(** * Name matching between the MIUR registry and OpenAlex authors

    A shallow embedding of the matching core of the repository
    ([ETL/Trasformazione/matching_functionsV4.py], its predecessor
    [matching_functionsV3.py], the first version in
    [ETL/Matching/old_versions/matching_functions.py] and the institution
    matcher [ETL/Matching/old_versions/mathcinguniv2.py]), followed by the
    properties of the normaliser, the parsers, the scorer and the resolver.

    Conventions of the embedding.
    - A Python [str] is a list of Unicode code points ([N]).
    - Python floats are modelled by exact rationals ([Q]); every constant of
      the scorer (0.7, 0.3, 0.5, 95.0, ...) is a rational number.
    - A Python exception is the value [None] of an [option] result.
    - The two functions of the third-party library rapidfuzz and the Unicode
      character database behind [unicodedata] and the [str] methods are not
      code of the repository: they are parameters of the development. *)

From Stdlib Require Import List NArith ZArith QArith Qminmax Lia Lqa Bool String Ascii.
From stdpp Require Import base option list gmap strings.
Import ListNotations.

(* ===================================================================== *)
(** * Part I. Definitions                                                 *)
(* ===================================================================== *)

(** ** Python strings *)

Module PyStr.

Local Open Scope N_scope.

Definition char := N.
Definition str := list char.

(** A Python literal made of ASCII characters. *)
Definition py (s : string) : str := List.map N_of_ascii (list_ascii_of_string s).

Definition nilb {A} (l : list A) : bool := match l with [] => true | _ => false end.

Definition str_eqb (a b : str) : bool := bool_decide (a = b).

(** [str.isspace] on one code point; the same set is used by [str.strip],
    [str.split] without argument and the pattern [\s] of [re]. *)
Definition isspace (c : char) : bool :=
  ((9 <=? c) && (c <=? 13)) || ((28 <=? c) && (c <=? 32))
  || (c =? 0x85) || (c =? 0xA0) || (c =? 0x1680)
  || ((0x2000 <=? c) && (c <=? 0x200A))
  || (c =? 0x2028) || (c =? 0x2029) || (c =? 0x202F) || (c =? 0x205F)
  || (c =? 0x3000).

Definition space : char := 32.
Definition dot : char := 46.

Fixpoint lstrip (s : str) : str :=
  match s with
  | [] => []
  | c :: r => if isspace c then lstrip r else s
  end.

Definition rstrip (s : str) : str :=
  fold_right (fun c acc => if isspace c && nilb acc then [] else c :: acc) [] s.

(** [s.strip()] *)
Definition strip (s : str) : str := rstrip (lstrip s).

(** [s.split()]: the maximal runs of non-whitespace characters. *)
Fixpoint split (s : str) : list str :=
  match s with
  | [] => []
  | c :: r =>
      if isspace c then split r
      else match r with
           | [] => [[c]]
           | d :: _ =>
               if isspace d then [c] :: split r
               else match split r with
                    | t :: ts => (c :: t) :: ts
                    | [] => [[c]]
                    end
           end
  end.

(** [sep.join(l)] *)
Fixpoint join (sep : str) (l : list str) : str :=
  match l with
  | [] => []
  | x :: rest => match rest with [] => x | _ => x ++ sep ++ join sep rest end
  end.

(** [s.startswith(p)] *)
Fixpoint startswith (s p : str) : bool :=
  match p, s with
  | [], _ => true
  | _ :: _, [] => false
  | a :: p', b :: s' => (a =? b) && startswith s' p'
  end.

(** [re.sub(r'[...]', repl, s)] for a character class and a replacement of
    one character. *)
Definition re_sub_class (cls : char -> bool) (repl : char) (s : str) : str :=
  List.map (fun c => if cls c then repl else c) s.

(** [re.sub(r'\s+', ' ', s)]: every maximal run of whitespace becomes one
    space; [in_run] tells that the previous character was whitespace. *)
Fixpoint re_sub_spaces (in_run : bool) (s : str) : str :=
  match s with
  | [] => []
  | c :: r =>
      if isspace c
      then (if in_run then re_sub_spaces true r else space :: re_sub_spaces true r)
      else c :: re_sub_spaces false r
  end.

(** The class [[A-Za-z]]. *)
Definition ascii_letter (c : char) : bool :=
  ((65 <=? c) && (c <=? 90)) || ((97 <=? c) && (c <=? 122)).

End PyStr.
Export PyStr.

(** ** The Unicode character database *)

(** What [unicodedata] and the case methods of [str] read from the Unicode
    character database, per code point. *)
Record UnicodeData := {
  category_Mn : char -> bool;        (* unicodedata.category(c) == 'Mn' *)
  decomposition : char -> str;       (* full canonical decomposition *)
  combining : char -> N;             (* unicodedata.combining(c) *)
  ch_isupper : char -> bool;
  ch_islower : char -> bool;
  ch_istitle : char -> bool;
  ch_isalpha : char -> bool;
  ch_upper : char -> str;            (* full upper-case mapping *)
  ch_lower : char -> str             (* full lower-case mapping *)
}.

Section UnicodeStr.
Variable U : UnicodeData.

(** Canonical ordering: a character of non-zero combining class moves
    left over the characters of greater class just before it. The
    argument is the output so far, last character first. *)
Fixpoint insert_mark (c : char) (out_rev : str) : str :=
  match out_rev with
  | [] => [c]
  | d :: rest =>
      if negb (combining U c =? 0)%N && (combining U c <? combining U d)%N
      then d :: insert_mark c rest
      else c :: out_rev
  end.

Definition canonical_order (s : str) : str :=
  rev (fold_left (fun acc c => insert_mark c acc) s []).

(** [unicodedata.normalize('NFD', s)] *)
Definition NFD (s : str) : str :=
  canonical_order (flat_map (decomposition U) s).

(** [s.isupper()]: no lower-case or title-case character and at least
    one upper-case character. *)
Definition isupper (s : str) : bool :=
  forallb (fun c => negb (ch_islower U c || ch_istitle U c)) s
  && existsb (ch_isupper U) s.

(** [s.isalpha()] *)
Definition isalpha (s : str) : bool :=
  negb (nilb s) && forallb (ch_isalpha U) s.

(** [s.upper()] and [s.lower()], character by character (the rule for
    the Greek final sigma in [lower] is left out). *)
Definition upper (s : str) : str := flat_map (ch_upper U) s.
Definition lower (s : str) : str := flat_map (ch_lower U) s.
End UnicodeStr.

(** ** Scores *)

(** Python floats as rationals; [x < y] on them. *)
Definition Qltb (x y : Q) : bool := negb (Qle_bool y x).

(** ** Records of the matching pipeline *)

(** A professor of the registry: a [dict] read with [.get]; a missing key
    is [None]. The last three fields are those that
    [preprocess_professor_data] adds. *)
Record professor {PId : Type} := {
  prof_id : option PId;                          (* 'id' *)
  nome_completo : option str;                    (* 'nome_completo' *)
  nome_completo_normalized : option str;
  nome_completo_tokens : option (list str);
  nome_completo_original : option str
}.
Arguments professor : clear implicits.

(** An OpenAlex author, the value stored in [authors_dict]. *)
Record author := {
  display_name : option str;                     (* 'display_name' *)
  orcid : option str;                            (* 'orcid' *)
  display_name_normalized : option str;
  display_name_tokens : option (list str)
}.

(** The second component returned by [parse_author_name]: a string, or the
    whole token list when the name is left to token-set scoring. *)
Inductive cognome :=
| CognomeStr (s : str)
| CognomeList (tokens : list str).

(** The [dict] that [resolve_matches] appends to [final_matches]. *)
Record match_result {AId : Type} := {
  mr_score : Q;                                  (* 'score' *)
  mr_nome_completo_rubrica : option str;         (* 'nome_completo_rubrica' *)
  mr_display_name : option str;                  (* 'display_name' *)
  mr_author_id : AId;                            (* 'author_id' *)
  mr_orcid : option str                          (* 'orcid' *)
}.
Arguments match_result : clear implicits.

(** ** Helpers that all versions of the matching module share

    [is_initial] and [extract_initial] have the same text in the three
    versions of the module; so have the classes of the regular expressions
    of [normalize_name]. *)

Definition is_dash (c : char) : bool :=
  ((c =? 0x2010) || (c =? 0x2011) || (c =? 0x2013) || (c =? 0x2014))%N.
(** The source writes the second class as [r'[''`´]']: two adjacent
    literals, [r'['] and ['`´]'], that is the pattern [[`´]]. *)
Definition is_quote (c : char) : bool := ((c =? 0x60) || (c =? 0xB4))%N.
Definition is_comma (c : char) : bool := ((c =? 0x2C) || (c =? 0x3B))%N.

Definition hyphen : char := 45%N.
Definition apostrophe : char := 39%N.

(** [is_initial]: the pattern [^[A-Za-z]\.?([A-Za-z]\.?)*$] is matched on
    the stripped name, so [$] is the end of the string; [after_letter]
    tells that the previous character was a letter, the only place where a
    dot may stand. *)
Fixpoint initials_tail (after_letter : bool) (s : str) : bool :=
  match s with
  | [] => true
  | c :: r =>
      if ascii_letter c then initials_tail true r
      else if (c =? dot)%N then after_letter && initials_tail false r
      else false
  end.

Definition re_match_initials (s : str) : bool :=
  negb (nilb s) && initials_tail false s.

Definition is_initial (name : str) : bool :=
  let name := strip name in
  re_match_initials name
  && (length (List.filter (fun c => negb (c =? dot)%N) name) <=? 3)%nat.

(** [extract_initial]: indexing the empty string raises [IndexError]. *)
Definition extract_initial (name : str) : option str :=
  if nilb name then Some []
  else match List.filter ascii_letter name with
       | [] => None
       | c :: _ => Some [c]
       end.

Fixpoint dict_get (d : list (str * list str)) (k : str) : option (list str) :=
  match d with
  | [] => None
  | (k', v) :: rest => if str_eqb k' k then Some v else dict_get rest k
  end.

(** ** [matching_functionsV4.py] *)

Module V4.

Definition abbreviations : list (str * list str) :=
  [ (py "giuseppe", [py "peppe"; py "beppe"; py "pino"]);
    (py "giovanni", [py "gianni"; py "nino"]);
    (py "francesco", [py "franco"; py "checco"]);
    (py "alessandro", [py "sandro"; py "alex"]);
    (py "antonio", [py "toni"; py "tonino"]);
    (py "maria", [py "mary"]) ].

Section Matching.
Local Open Scope Q_scope.
Variable U : UnicodeData.
(** [rapidfuzz.distance.JaroWinkler.similarity] and
    [rapidfuzz.fuzz.token_set_ratio]. *)
Variable JaroWinkler_similarity : str -> str -> Q.
Variable token_set_ratio : str -> str -> Q.

Definition normalize_name (name : str) : str :=
  if nilb name then []
  else
    let name := NFD U name in
    let name := List.filter (fun ch => negb (category_Mn U ch)) name in
    let name := re_sub_class is_dash hyphen name in
    let name := re_sub_class is_quote apostrophe name in
    let name := re_sub_class is_comma space name in
    re_sub_spaces false (strip name).

Definition preprocess_professor {PId} (prof : professor PId) : professor PId :=
  let nome := default [] (nome_completo prof) in
  if nilb nome
  then {| prof_id := prof_id prof; nome_completo := nome_completo prof;
          nome_completo_normalized := Some [];
          nome_completo_tokens := Some [];
          nome_completo_original := Some [] |}
  else
    let normalized := normalize_name nome in
    {| prof_id := prof_id prof; nome_completo := nome_completo prof;
       nome_completo_normalized := Some normalized;
       nome_completo_tokens := Some (split normalized);
       nome_completo_original := Some nome |}.

Definition preprocess_author (author_data : author) : author :=
  let name := default [] (display_name author_data) in
  if nilb name
  then {| display_name := display_name author_data; orcid := orcid author_data;
          display_name_normalized := Some [];
          display_name_tokens := Some [] |}
  else
    let normalized := normalize_name name in
    {| display_name := display_name author_data; orcid := orcid author_data;
       display_name_normalized := Some normalized;
       display_name_tokens := Some (split normalized) |}.

(** Returns [(nome, cognome)]. *)
Definition parse_professor_name (prof_tokens : list str) (original_name : str)
  : str * str :=
  let original_tokens :=
    if nilb original_name then prof_tokens else split original_name in
  match original_tokens with
  | [] | [_] => ([], [])
  | first :: others =>
      let cognome_tokens := List.filter (isupper U) original_tokens in
      let nome_tokens := List.filter (fun t => negb (isupper U t)) original_tokens in
      let prof_nome := join [space] nome_tokens in
      let prof_cognome := join [space] cognome_tokens in
      if nilb prof_cognome
      then (join [space] others, first)
      else (prof_nome, prof_cognome)
  end.

(** Returns [(nome_o_iniziale, cognome)]. *)
Definition parse_author_name (author_tokens : list str) : option (str * cognome) :=
  match author_tokens with
  | [] => Some ([], CognomeStr [])
  | [t0; t1] =>
      if is_initial t0
      then initial ← extract_initial t0; Some (initial, CognomeStr t1)
      else Some (t0, CognomeStr t1)
  | _ =>
      if (6 <? length author_tokens)%nat
      then Some ([], CognomeStr [])
      else Some ([], CognomeList author_tokens)
  end.

Definition check_common_abbreviations (full_name abbrev_name : str) : bool :=
  let full_lower := if nilb full_name then [] else lower U full_name in
  let abbrev_lower := if nilb abbrev_name then [] else lower U abbrev_name in
  match dict_get abbreviations full_lower with
  | Some l => existsb (str_eqb abbrev_lower) l
  | None => false
  end.

Definition first_letter_is (name initial : str) : bool :=
  match name with
  | [] => false
  | c :: _ => str_eqb (upper U [c]) (upper U initial)
  end.

Definition calculate_first_name_score_optimized (prof_nome author_first : str)
  : option Q :=
  let prof_nome := if nilb prof_nome then [] else strip prof_nome in
  let author_first := if nilb author_first then [] else strip author_first in
  if is_initial author_first then
    initial ← extract_initial author_first;
    Some (if first_letter_is prof_nome initial then 95 else 10)
  else if is_initial prof_nome then
    initial ← extract_initial prof_nome;
    Some (if first_letter_is author_first initial then 95 else 10)
  else
    let prof_nome_norm := upper U prof_nome in
    let author_first_norm := upper U author_first in
    let jaro_score := JaroWinkler_similarity prof_nome_norm author_first_norm * 100 in
    Some (if check_common_abbreviations prof_nome author_first
          then Qmin 100 (jaro_score + 10)
          else jaro_score).

(** One turn of the inner loop of [calculate_token_set_score_optimized]:
    what is added to [initial_bonus]. *)
Definition initial_bonus_of (prof_token author_token : str) : option Q :=
  if is_initial author_token then
    initial ← extract_initial author_token;
    Some (if startswith (upper U prof_token) (upper U initial) then 10 else 0)
  else if is_initial prof_token then
    initial ← extract_initial prof_token;
    Some (if startswith (upper U author_token) (upper U initial) then 10 else 0)
  else Some 0.

Fixpoint bonus_inner (prof_token : str) (author_tokens : list str) (initial_bonus : Q)
  : option Q :=
  match author_tokens with
  | [] => Some initial_bonus
  | author_token :: rest =>
      b ← initial_bonus_of prof_token author_token;
      bonus_inner prof_token rest (initial_bonus + b)
  end.

Fixpoint bonus_outer (prof_tokens author_tokens : list str) (initial_bonus : Q)
  : option Q :=
  match prof_tokens with
  | [] => Some initial_bonus
  | prof_token :: rest =>
      b ← bonus_inner prof_token author_tokens initial_bonus;
      bonus_outer rest author_tokens b
  end.

Definition calculate_token_set_score_optimized (prof_tokens author_tokens : list str)
  : option Q :=
  let prof_tokens_clean := List.map (upper U) (List.filter (isalpha U) prof_tokens) in
  let author_tokens_clean := List.map (upper U) (List.filter (isalpha U) author_tokens) in
  let token_set_score :=
    token_set_ratio (join [space] prof_tokens_clean) (join [space] author_tokens_clean) in
  initial_bonus ← bonus_outer prof_tokens author_tokens 0;
  Some (Qmin 100 (token_set_score + initial_bonus)).

(** The weighted part of [calculate_name_score_optimized], from the two
    partial scores. *)
Definition combine_scores (cognome_score nome_score : Q) : Q :=
  let final_score := cognome_score * (7 # 10) + nome_score * (3 # 10) in
  let final_score :=
    if Qltb 95 cognome_score && Qltb 95 nome_score
    then Qmin 100 (final_score + 5) else final_score in
  if Qltb cognome_score 60 then final_score * (1 # 2) else final_score.

Definition calculate_name_score_optimized {PId} (prof_data : professor PId)
           (author_data : author) : option Q :=
  let prof_clean := default [] (nome_completo_normalized prof_data) in
  let author_clean := default [] (display_name_normalized author_data) in
  if nilb prof_clean || nilb author_clean then Some 0
  else
    let prof_tokens := default [] (nome_completo_tokens prof_data) in
    let author_tokens := default [] (display_name_tokens author_data) in
    if (length prof_tokens <? 2)%nat || (length author_tokens <? 2)%nat
    then Some (JaroWinkler_similarity prof_clean author_clean * 100)
    else
      let original_name := default prof_clean (nome_completo_original prof_data) in
      let '(prof_nome, prof_cognome) := parse_professor_name prof_tokens original_name in
      parsed ← parse_author_name author_tokens;
      match parsed with
      | (_, CognomeList _) =>
          calculate_token_set_score_optimized prof_tokens author_tokens
      | (author_nome, CognomeStr author_cognome) =>
          let prof_cognome_norm := if nilb prof_cognome then [] else upper U prof_cognome in
          let author_cognome_norm :=
            if nilb author_cognome then [] else upper U author_cognome in
          let cognome_score :=
            JaroWinkler_similarity prof_cognome_norm author_cognome_norm * 100 in
          nome_score ← calculate_first_name_score_optimized prof_nome author_nome;
          Some (combine_scores cognome_score nome_score)
      end.

(** [debug_name_score] without its prints: the score of two raw names. *)
Definition debug_name_score (prof_name author_name : str) : option Q :=
  let normalized := normalize_name prof_name in
  let prof_data : professor unit :=
    {| prof_id := None; nome_completo := Some prof_name;
       nome_completo_normalized := Some normalized;
       nome_completo_tokens := Some (split normalized);
       nome_completo_original := Some prof_name |} in
  let author_normalized := normalize_name author_name in
  let author_data :=
    {| display_name := Some author_name; orcid := None;
       display_name_normalized := Some author_normalized;
       display_name_tokens := Some (split author_normalized) |} in
  calculate_name_score_optimized prof_data author_data.
End Matching.

(** *** The resolver *)

Section Resolver.
Context {PId AId : Type} `{Countable PId} `{Countable AId}.

(** An element of [all_matches]: [(score, prof, author_id, match_type)]. *)
Definition candidate : Type := Q * professor PId * AId * str.

Definition cand_score (c : candidate) : Q := c.1.1.1.
Definition cand_prof (c : candidate) : professor PId := c.1.1.2.
Definition cand_author (c : candidate) : AId := c.1.2.

(** The three local variables of [resolve_matches]. The set of used
    professors holds the values of [prof.get('id')], [None] included. *)
Record resolver_state := {
  final_matches : list (match_result AId);
  used_professors : gset (option PId);
  used_authors : gset AId
}.

Definition resolver_init : resolver_state :=
  {| final_matches := []; used_professors := ∅; used_authors := ∅ |}.

(** The loop of [resolve_matches]; [authors_dict[author_id]] raises
    [KeyError] on a missing key. *)
Fixpoint resolve_loop (authors_dict : gmap AId author) (threshold_resolve : Q)
         (all_matches : list candidate) (st : resolver_state)
  : option resolver_state :=
  match all_matches with
  | [] => Some st
  | (score, prof, author_id, match_type) :: rest =>
      if Qltb score threshold_resolve then Some st
      else
        let prof_id := prof_id prof in
        if bool_decide (prof_id ∉ used_professors st)
           && bool_decide (author_id ∉ used_authors st)
        then
          author_data ← authors_dict !! author_id;
          let match_result :=
            {| mr_score := score;
               mr_nome_completo_rubrica := nome_completo prof;
               mr_display_name := display_name author_data;
               mr_author_id := author_id;
               mr_orcid := orcid author_data |} in
          resolve_loop authors_dict threshold_resolve rest
            {| final_matches := final_matches st ++ [match_result];
               used_professors := used_professors st ∪ {[prof_id]};
               used_authors := used_authors st ∪ {[author_id]} |}
        else resolve_loop authors_dict threshold_resolve rest st
  end.

Definition resolve_matches (all_matches : list candidate)
           (authors_dict : gmap AId author) (threshold_resolve : Q)
  : option (list (match_result AId)) :=
  st ← resolve_loop authors_dict threshold_resolve all_matches resolver_init;
  Some (final_matches st).

(** The candidates that the loop commits, in order: the same walk as
    [resolve_loop], recording the tuple instead of building the [dict]. *)
Fixpoint committed_from (threshold_resolve : Q) (all_matches : list candidate)
         (used_p : gset (option PId)) (used_a : gset AId) : list candidate :=
  match all_matches with
  | [] => []
  | c :: rest =>
      if Qltb (cand_score c) threshold_resolve then []
      else if bool_decide (prof_id (cand_prof c) ∉ used_p)
              && bool_decide (cand_author c ∉ used_a)
      then c :: committed_from threshold_resolve rest
                  (used_p ∪ {[prof_id (cand_prof c)]}) (used_a ∪ {[cand_author c]})
      else committed_from threshold_resolve rest used_p used_a
  end.

Definition committed (all_matches : list candidate) (threshold_resolve : Q)
  : list candidate :=
  committed_from threshold_resolve all_matches ∅ ∅.

(** [m] is the [dict] built for the candidate [c]. *)
Definition emitted_for (authors_dict : gmap AId author) (c : candidate)
           (m : match_result AId) : Prop :=
  exists author_data,
    authors_dict !! cand_author c = Some author_data /\
    m = {| mr_score := cand_score c;
           mr_nome_completo_rubrica := nome_completo (cand_prof c);
           mr_display_name := display_name author_data;
           mr_author_id := cand_author c;
           mr_orcid := orcid author_data |}.

(** [all_matches.sort(reverse=True, key=lambda x: x[0])]: a stable sort
    by decreasing score. *)
Fixpoint insert_by_score (c : candidate) (sorted : list candidate) : list candidate :=
  match sorted with
  | [] => [c]
  | d :: rest =>
      if Qltb (cand_score c) (cand_score d)
      then d :: insert_by_score c rest
      else c :: sorted
  end.

Definition sort_by_score (l : list candidate) : list candidate :=
  fold_right insert_by_score [] l.
End Resolver.

(** *** Cleanup and candidate generation *)

(** [cleanup_preprocessed_data] on one professor and on one author: the
    keys that preprocessing added are popped. *)
Definition cleanup_professor {PId} (prof : professor PId) : professor PId :=
  {| prof_id := prof_id prof; nome_completo := nome_completo prof;
     nome_completo_normalized := None;
     nome_completo_tokens := None;
     nome_completo_original := None |}.

Definition cleanup_author (author_data : author) : author :=
  {| display_name := display_name author_data; orcid := orcid author_data;
     display_name_normalized := None;
     display_name_tokens := None |}.

Section Generator.
Local Open Scope Q_scope.
Variable U : UnicodeData.
Variable JaroWinkler_similarity : str -> str -> Q.
Variable token_set_ratio : str -> str -> Q.
Context {PId AId : Type}.

(** The loop over [authors_dict.items()], in the order of the dictionary,
    for one professor: what it appends to [all_matches]. *)
Fixpoint scan_authors (prof : professor PId) (items : list (AId * author))
         (score_threshold : Q) : option (list (Q * professor PId * AId * str)) :=
  match items with
  | [] => Some []
  | (author_id, author_data) :: rest =>
      score ← calculate_name_score_optimized U JaroWinkler_similarity token_set_ratio
                prof author_data;
      more ← scan_authors prof rest score_threshold;
      Some (if Qltb score_threshold score
            then (score, prof, author_id, py "display_name") :: more
            else more)
  end.

(** The loop over [professors]. *)
Fixpoint scan_professors (professors : list (professor PId)) (items : list (AId * author))
         (score_threshold : Q) : option (list (Q * professor PId * AId * str)) :=
  match professors with
  | [] => Some []
  | prof :: rest =>
      mine ← scan_authors prof items score_threshold;
      more ← scan_professors rest items score_threshold;
      Some (mine ++ more)
  end.
End Generator.

Section GeneratorSort.
Local Open Scope Q_scope.
Variable U : UnicodeData.
Variable JaroWinkler_similarity : str -> str -> Q.
Variable token_set_ratio : str -> str -> Q.
Context {PId AId : Type} `{Countable PId} `{Countable AId}.

Definition find_best_matches_optimized (professors : list (professor PId))
           (items : list (AId * author)) (score_threshold : Q)
  : option (list (candidate (PId := PId) (AId := AId))) :=
  all_matches ← scan_professors U JaroWinkler_similarity token_set_ratio
                  professors items score_threshold;
  Some (sort_by_score all_matches).
End GeneratorSort.


End V4.

(** ** [matcher_optimized.py] *)

Module Matcher.

Definition SCORE_APPEND_THRESHOLD : Q := 40.
Definition RESOLVE_THRESHOLD : Q := 86.

Section Run.
Local Open Scope Q_scope.
Variable U : UnicodeData.
Variable JaroWinkler_similarity : str -> str -> Q.
Variable token_set_ratio : str -> str -> Q.
Context {PId AId : Type} `{Countable PId} `{Countable AId}.

(** Steps 2 and 3 of [main_professor_matcher] for one university:
    preprocessing, candidate generation and resolution. [oa_authors] is the
    dictionary of the authors as the list of its items; a university
    without professors or without authors is skipped and writes no row. *)
Definition match_ateneo (professor_stack : list (professor PId))
           (oa_authors : list (AId * author)) : option (list (match_result AId)) :=
  if nilb professor_stack || nilb oa_authors then Some []
  else
    let professor_stack := List.map (V4.preprocess_professor U) professor_stack in
    let oa_authors :=
      List.map (fun item => (fst item, V4.preprocess_author U (snd item))) oa_authors in
    all_matches ← V4.find_best_matches_optimized U JaroWinkler_similarity token_set_ratio
                    professor_stack oa_authors SCORE_APPEND_THRESHOLD;
    V4.resolve_matches all_matches (list_to_map oa_authors) RESOLVE_THRESHOLD.
End Run.

(** Step 4 of [main_professor_matcher], the cell of the column
    ['nome_completo_rubrica'] in the row written for a match: the name of
    the first professor of the stack whose name is the name in the match;
    the cell is empty when there is no such professor or when that
    professor has no name ([csv] writes [None] as an empty cell). *)
Definition nome_completo_rubrica_cell {PId AId : Type}
           (professor_stack : list (professor PId)) (m : match_result AId) : str :=
  match List.find (fun prof =>
                     bool_decide (nome_completo prof = mr_nome_completo_rubrica m))
                  professor_stack with
  | Some prof_data => default [] (nome_completo prof_data)
  | None => []
  end.

(** The three counts of [log_matching_stats]: scores of at least 80, from
    60 to below 80, and below 60. *)
Definition score_bands (scores : list Q) : nat * nat * nat :=
  (length (List.filter (fun s => negb (Qltb s 80)) scores),
   length (List.filter (fun s => negb (Qltb s 60) && Qltb s 80) scores),
   length (List.filter (fun s => Qltb s 60) scores)).

End Matcher.

(** ** [matching_functionsV3.py] *)

Module V3.

(** The literal repeats the key ['francesco']; the last value wins. *)
Definition abbreviations : list (str * list str) :=
  [ (py "giuseppe", [py "peppe"; py "beppe"; py "pino"]);
    (py "giovanni", [py "gianni"; py "nino"]);
    (py "francesco", [py "franco"]);
    (py "alessandro", [py "sandro"; py "alex"]);
    (py "antonio", [py "toni"; py "tonino"]);
    (py "maria", [py "mary"]) ].

(** This version does not decompose accents. *)
Definition normalize_name (name : str) : str :=
  if nilb name then []
  else
    let name := re_sub_class is_dash hyphen name in
    let name := re_sub_class is_quote apostrophe name in
    re_sub_spaces false (strip name).

Section Matching.
Local Open Scope Q_scope.
Variable U : UnicodeData.
Variable JaroWinkler_similarity : str -> str -> Q.
Variable token_set_ratio : str -> str -> Q.

Definition parse_professor_name (prof_tokens : list str) : str * str :=
  match prof_tokens with
  | [] | [_] => ([], [])
  | first :: others =>
      let cognome_tokens := List.filter (isupper U) prof_tokens in
      let nome_tokens := List.filter (fun t => negb (isupper U t)) prof_tokens in
      let prof_nome := join [space] nome_tokens in
      let prof_cognome := join [space] cognome_tokens in
      if nilb prof_cognome
      then (join [space] others, first)
      else (prof_nome, prof_cognome)
  end.

(** [author_tokens[0]] is read first: [IndexError] on the empty list. *)
Definition parse_author_name (author_tokens : list str) : option (str * cognome) :=
  match author_tokens with
  | [] => None
  | [t0; t1] =>
      if is_initial t0
      then initial ← extract_initial t0; Some (initial, CognomeStr t1)
      else Some (t0, CognomeStr t1)
  | _ =>
      if (6 <? length author_tokens)%nat
      then Some ([], CognomeStr [])
      else Some ([], CognomeList author_tokens)
  end.

Definition check_common_abbreviations (full_name abbrev_name : str) : bool :=
  let full_lower := lower U (normalize_name full_name) in
  let abbrev_lower := lower U (normalize_name abbrev_name) in
  match dict_get abbreviations full_lower with
  | Some l => existsb (str_eqb abbrev_lower) l
  | None => false
  end.

Definition first_letter_is (name initial : str) : bool :=
  match name with
  | [] => false
  | c :: _ => str_eqb (upper U [c]) (upper U initial)
  end.

Definition calculate_first_name_score (prof_nome author_first : str) : option Q :=
  let prof_nome := strip prof_nome in
  let author_first := strip author_first in
  if is_initial author_first then
    initial ← extract_initial author_first;
    Some (if first_letter_is prof_nome initial then 95 else 10)
  else if is_initial prof_nome then
    initial ← extract_initial prof_nome;
    Some (if first_letter_is author_first initial then 95 else 10)
  else
    let prof_nome_norm := upper U (normalize_name prof_nome) in
    let author_first_norm := upper U (normalize_name author_first) in
    let jaro_score := JaroWinkler_similarity prof_nome_norm author_first_norm * 100 in
    Some (if check_common_abbreviations prof_nome author_first
          then Qmin 100 (jaro_score + 10)
          else jaro_score).

Definition initial_bonus_of (prof_token author_token : str) : option Q :=
  if is_initial author_token then
    initial ← extract_initial author_token;
    Some (if startswith (upper U (normalize_name prof_token)) (upper U initial)
          then 10 else 0)
  else if is_initial prof_token then
    initial ← extract_initial prof_token;
    Some (if startswith (upper U (normalize_name author_token)) (upper U initial)
          then 10 else 0)
  else Some 0.

Fixpoint bonus_inner (prof_token : str) (author_tokens : list str) (initial_bonus : Q)
  : option Q :=
  match author_tokens with
  | [] => Some initial_bonus
  | author_token :: rest =>
      b ← initial_bonus_of prof_token author_token;
      bonus_inner prof_token rest (initial_bonus + b)
  end.

Fixpoint bonus_outer (prof_tokens author_tokens : list str) (initial_bonus : Q)
  : option Q :=
  match prof_tokens with
  | [] => Some initial_bonus
  | prof_token :: rest =>
      b ← bonus_inner prof_token author_tokens initial_bonus;
      bonus_outer rest author_tokens b
  end.

Definition calculate_token_set_score (prof_tokens author_tokens : list str)
  : option Q :=
  let clean := fun tokens =>
    List.map (fun t => upper U (normalize_name t)) (List.filter (isalpha U) tokens) in
  let token_set_score :=
    token_set_ratio (join [space] (clean prof_tokens))
                    (join [space] (clean author_tokens)) in
  initial_bonus ← bonus_outer prof_tokens author_tokens 0;
  Some (Qmin 100 (token_set_score + initial_bonus)).

Definition combine_scores (cognome_score nome_score : Q) : Q :=
  let final_score := cognome_score * (7 # 10) + nome_score * (3 # 10) in
  let final_score :=
    if Qltb 95 cognome_score && Qltb 95 nome_score
    then Qmin 100 (final_score + 5) else final_score in
  if Qltb cognome_score 60 then final_score * (1 # 2) else final_score.

Definition calculate_name_score (prof_name author_name : str) : option Q :=
  if nilb prof_name || nilb author_name then Some 0
  else
    let prof_clean := normalize_name prof_name in
    let author_clean := normalize_name author_name in
    let prof_tokens := split prof_clean in
    let author_tokens := split author_clean in
    if (length prof_tokens <? 2)%nat || (length author_tokens <? 2)%nat
    then Some (JaroWinkler_similarity prof_clean author_clean * 100)
    else
      let '(prof_nome, prof_cognome) := parse_professor_name prof_tokens in
      parsed ← parse_author_name author_tokens;
      match parsed with
      | (_, CognomeList _) => calculate_token_set_score prof_tokens author_tokens
      | (author_nome, CognomeStr author_cognome) =>
          let prof_cognome_norm := upper U (normalize_name prof_cognome) in
          let author_cognome_norm := upper U (normalize_name author_cognome) in
          let cognome_score :=
            JaroWinkler_similarity prof_cognome_norm author_cognome_norm * 100 in
          nome_score ← calculate_first_name_score prof_nome author_nome;
          Some (combine_scores cognome_score nome_score)
      end.
End Matching.

End V3.

(** ** [old_versions/matching_functions.py] *)

Module Old.

Section Parsing.
Variable U : UnicodeData.

(** The first version asks for an alphabetic token and, on the fall-back,
    appends the row [(prof_cognome, prof_nome)] to [anomalie_prof.csv];
    the rows written are the third component of the result. *)
Definition parse_professor_name (prof_tokens : list str)
  : str * str * list (str * str) :=
  match prof_tokens with
  | [] | [_] => ([], [], [])
  | first :: others =>
      let is_cognome := fun token => isupper U token && isalpha U token in
      let cognome_tokens := List.filter is_cognome prof_tokens in
      let nome_tokens := List.filter (fun t => negb (is_cognome t)) prof_tokens in
      let prof_nome := join [space] nome_tokens in
      let prof_cognome := join [space] cognome_tokens in
      if nilb prof_cognome
      then (join [space] others, first, [(first, join [space] others)])
      else (prof_nome, prof_cognome, [])
  end.
End Parsing.

End Old.

(** ** [old_versions/mathcinguniv2.py] *)

Module Univ.

(** A row of [miur_stack] and a row of [oa_stack]. The key
    ['alternatives_pulite'] may be absent. *)
Record miur_row := {
  NomeOperativo : str;
  NomeEsteso : str;
  nome_pulito : str
}.

Record oa_row {OId : Type} := {
  oa_id : OId;                                   (* 'id' *)
  oa_display_name : str;                         (* 'display_name' *)
  display_name_pulito : str;
  display_name_alternatives : list str;
  alternatives_pulite : option (list str)
}.
Arguments oa_row : clear implicits.

Record institution_match {OId : Type} := {
  im_score : Q;                                  (* 'score' *)
  nome_operativo_miur : str;
  nome_esteso_miur : str;
  display_name_oa : str;
  id_openalex : OId;
  im_match_type : str                            (* 'match_type' *)
}.
Arguments institution_match : clear implicits.

(** The four [best_*] variables of the inner loop. *)
Record best := {
  best_score : Q;
  best_match_idx : option nat;
  best_match_type : option str;
  best_oa_name : option str
}.

Section Greedy.
Local Open Scope Q_scope.
Variable U : UnicodeData.
Variable JaroWinkler_similarity : str -> str -> Q.
Variable token_set_ratio : str -> str -> Q.
Context {OId : Type} `{Countable OId}.

Definition calculate_institution_score (miur_clean oa_clean : str) : Q :=
  if nilb miur_clean || nilb oa_clean then 0
  else if (length (strip miur_clean) <? 2)%nat || (length (strip oa_clean) <? 2)%nat
  then 0
  else
    let miur_upper := upper U miur_clean in
    let oa_upper := upper U oa_clean in
    let jaro_score := JaroWinkler_similarity miur_upper oa_upper * 100 in
    let token_score := token_set_ratio miur_upper oa_upper in
    Qmax jaro_score token_score.

(** The loop over [enumerate(oa_row['alternatives_pulite'])];
    [oa_row['display_name_alternatives'][alt_idx]] raises [IndexError]
    when the two lists differ in length. *)
Fixpoint scan_alternatives (miur_clean : str) (oa_idx : nat) (oa : oa_row OId)
         (alt_idx : nat) (alts : list str) (b : best) : option best :=
  match alts with
  | [] => Some b
  | alt_clean :: rest =>
      if nilb alt_clean
      then scan_alternatives miur_clean oa_idx oa (S alt_idx) rest b
      else
        let alt_score := calculate_institution_score miur_clean alt_clean in
        if Qltb (best_score b) alt_score
        then
          name ← display_name_alternatives oa !! alt_idx;
          scan_alternatives miur_clean oa_idx oa (S alt_idx) rest
            {| best_score := alt_score; best_match_idx := Some oa_idx;
               best_match_type := Some (py "alternative");
               best_oa_name := Some name |}
        else scan_alternatives miur_clean oa_idx oa (S alt_idx) rest b
  end.

(** The loop over [range(len(oa_stack))], from index [oa_idx] on. *)
Fixpoint scan_openalex (threshold : Q) (miur_clean : str) (used_openalex : gset nat)
         (oa_idx : nat) (oa_rows : list (oa_row OId)) (b : best) : option best :=
  match oa_rows with
  | [] => Some b
  | oa :: rest =>
      if bool_decide (oa_idx ∈ used_openalex)
      then scan_openalex threshold miur_clean used_openalex (S oa_idx) rest b
      else
        let oa_clean := display_name_pulito oa in
        let score := calculate_institution_score miur_clean oa_clean in
        let b :=
          if Qltb (best_score b) score
          then {| best_score := score; best_match_idx := Some oa_idx;
                  best_match_type := Some (py "display_name");
                  best_oa_name := Some (oa_display_name oa) |}
          else b in
        b ← (if Qltb (best_score b) threshold
             then match alternatives_pulite oa with
                  | Some alts => scan_alternatives miur_clean oa_idx oa 0 alts b
                  | None => Some b
                  end
             else Some b);
        scan_openalex threshold miur_clean used_openalex (S oa_idx) rest b
  end.

(** The loop over [range(len(miur_stack))]. *)
Fixpoint greedy_loop (threshold : Q) (oa_stack : list (oa_row OId))
         (miur_rows : list miur_row)
         (final_matches : list (institution_match OId)) (used_openalex : gset nat)
  : option (list (institution_match OId)) :=
  match miur_rows with
  | [] => Some final_matches
  | row :: rest =>
      b ← scan_openalex threshold (nome_pulito row) used_openalex 0 oa_stack
            {| best_score := 0; best_match_idx := None;
               best_match_type := None; best_oa_name := None |};
      match best_match_idx b, best_match_type b, best_oa_name b with
      | Some idx, Some type, Some name =>
          if negb (Qltb (best_score b) threshold)
          then
            oa ← oa_stack !! idx;
            greedy_loop threshold oa_stack rest
              (final_matches ++
               [ {| im_score := best_score b;
                    nome_operativo_miur := NomeOperativo row;
                    nome_esteso_miur := NomeEsteso row;
                    display_name_oa := name;
                    id_openalex := oa_id oa;
                    im_match_type := type |} ])
              (used_openalex ∪ {[idx]})
          else greedy_loop threshold oa_stack rest final_matches used_openalex
      | _, _, _ => greedy_loop threshold oa_stack rest final_matches used_openalex
      end
  end.

Definition greedy_institution_matching (miur_stack : list miur_row)
           (oa_stack : list (oa_row OId)) (threshold : Q)
  : option (list (institution_match OId)) :=
  greedy_loop threshold oa_stack miur_stack [] ∅.

(** The same rows as input of the professor resolver: every pair of a
    left and a right row in enumeration order with the score of the two
    cleaned names, kept when above [floor] and sorted by decreasing
    score, as [find_best_matches_optimized] builds [all_matches]. *)
Definition as_professor (idx : nat) (row : miur_row) : professor nat :=
  {| prof_id := Some idx; nome_completo := Some (NomeOperativo row);
     nome_completo_normalized := None; nome_completo_tokens := None;
     nome_completo_original := None |}.

Definition as_author (oa : oa_row OId) : author :=
  {| display_name := Some (oa_display_name oa); orcid := None;
     display_name_normalized := None; display_name_tokens := None |}.

Definition authors_dict_of (oa_stack : list (oa_row OId)) : gmap OId author :=
  list_to_map (List.map (fun oa => (oa_id oa, as_author oa)) oa_stack).

Definition scored_pairs (miur_stack : list miur_row) (oa_stack : list (oa_row OId))
           (floor : Q) : list (V4.candidate (PId := nat) (AId := OId)) :=
  V4.sort_by_score
    (flat_map
       (fun '(idx, row) =>
          flat_map
            (fun oa =>
               let score :=
                 calculate_institution_score (nome_pulito row) (display_name_pulito oa) in
               if Qltb floor score
               then [(score, as_professor idx row, oa_id oa, py "display_name")]
               else [])
            oa_stack)
       (imap pair miur_stack)).
End Greedy.

(** [normalize_institution_name]: the text of [normalize_name] of
    [matching_functionsV3.py]. *)
Definition normalize_institution_name (name : str) : str :=
  if nilb name then []
  else
    let name := re_sub_class is_dash hyphen name in
    let name := re_sub_class is_quote apostrophe name in
    re_sub_spaces false (strip name).

Definition stopwords : list str :=
  [ py "universit" ++ [0xE0%N]; py "degli"; py "studi"; py "di"; py "della";
    py "del"; py "dello"; py "delle"; py "university"; py "of"; py "studies" ].

Section Stopwords.
Variable U : UnicodeData.

Definition is_stopword (token : str) : bool :=
  existsb (str_eqb (lower U token)) stopwords.

Definition remove_stopwords_from_institution (name : str) : str :=
  if nilb name then []
  else
    let name := normalize_institution_name name in
    let tokens := split name in
    let filtered_tokens := List.filter (fun token => negb (is_stopword token)) tokens in
    join [space] filtered_tokens.

(** The rows that [prepare_institution_stacks] reads from the two data
    frames; [od_alternatives] is [None] when the cell is missing or is not
    a list. *)
Record miur_data_row := {
  md_NomeOperativo : str;
  md_NomeEsteso : str
}.

Record oa_data_row {OId : Type} := {
  od_id : OId;
  od_display_name : str;
  od_alternatives : option (list str)
}.
Arguments oa_data_row : clear implicits.

Definition prepare_miur_row (row : miur_data_row) : miur_row :=
  {| NomeOperativo := md_NomeOperativo row;
     NomeEsteso := md_NomeEsteso row;
     nome_pulito := remove_stopwords_from_institution (md_NomeOperativo row) |}.

Definition prepare_oa_row {OId} (row : oa_data_row OId) : oa_row OId :=
  {| oa_id := od_id row;
     oa_display_name := od_display_name row;
     display_name_pulito := remove_stopwords_from_institution (od_display_name row);
     display_name_alternatives := default [] (od_alternatives row);
     alternatives_pulite :=
       Some (List.map remove_stopwords_from_institution
               (default [] (od_alternatives row))) |}.

Definition prepare_institution_stacks {OId} (miur_data : list miur_data_row)
           (oa_data : list (oa_data_row OId)) : list miur_row * list (oa_row OId) :=
  (List.map prepare_miur_row miur_data, List.map prepare_oa_row oa_data).
End Stopwords.
Arguments oa_data_row : clear implicits.


End Univ.

(** ** Instances of the parameters, for concrete executions *)

(** Modelled from the spec: the repository calls
    [rapidfuzz.distance.JaroWinkler.similarity], a third-party function whose
    code is not part of it and which the specification describes only as a
    "phonetic similarity (Jaro-Winkler-style)". The instance below is the
    usual definition of that similarity: matching characters are looked for
    within half the longer length, transpositions are halved, and a common
    prefix of up to four characters is rewarded with weight 0.1 when the
    Jaro similarity exceeds 0.7. *)
Module Rapidfuzz.

Local Open Scope nat_scope.

(** Flags the first free position of [s2] in the window [lo..hi] that
    holds [c]; [j] is the position of the head of [s2]. *)
Fixpoint find_match (c : char) (lo hi j : nat) (s2 : str) (flags : list bool)
  : option (list bool) :=
  match s2, flags with
  | d :: s2', f :: flags' =>
      if (lo <=? j) && (j <=? hi) && negb f && (c =? d)%N
      then Some (true :: flags')
      else option_map (cons f) (find_match c lo hi (S j) s2' flags')
  | _, _ => None
  end.

(** Walks [s1] from position [i]; returns the flags of [s1] and of [s2]. *)
Fixpoint scan (w i : nat) (s1 s2 : str) (flags : list bool) : list bool * list bool :=
  match s1 with
  | [] => ([], flags)
  | c :: r =>
      match find_match c (i - w) (i + w) 0 s2 flags with
      | Some flags' =>
          let (f1, f2) := scan w (S i) r s2 flags' in (true :: f1, f2)
      | None =>
          let (f1, f2) := scan w (S i) r s2 flags in (false :: f1, f2)
      end
  end.

Fixpoint flagged (s : str) (flags : list bool) : str :=
  match s, flags with
  | c :: s', f :: flags' => if f then c :: flagged s' flags' else flagged s' flags'
  | _, _ => []
  end.

Fixpoint count_flags (flags : list bool) : nat :=
  match flags with
  | [] => 0
  | f :: r => (if f then 1 else 0) + count_flags r
  end.

Fixpoint mismatches (a b : str) : nat :=
  match a, b with
  | x :: a', y :: b' => (if (x =? y)%N then 0 else 1) + mismatches a' b'
  | _, _ => 0
  end.

Fixpoint common_prefix (limit : nat) (a b : str) : nat :=
  match limit, a, b with
  | S limit', x :: a', y :: b' =>
      if (x =? y)%N then S (common_prefix limit' a' b') else 0
  | _, _, _ => 0
  end.

Definition Qnat (n : nat) : Q := inject_Z (Z.of_nat n).

Definition jaro (s1 s2 : str) : Q :=
  let l1 := length s1 in
  let l2 := length s2 in
  if (l1 =? 0) && (l2 =? 0) then 1%Q
  else if (l1 =? 0) || (l2 =? 0) then 0%Q
  else
    let w := Nat.max l1 l2 / 2 - 1 in
    let (f1, f2) := scan w 0 s1 s2 (repeat false l2) in
    let m := count_flags f2 in
    if m =? 0 then 0%Q
    else
      let t := mismatches (flagged s1 f1) (flagged s2 f2) / 2 in
      ((Qnat m / Qnat l1 + Qnat m / Qnat l2 + Qnat (m - t) / Qnat m) / 3)%Q.

Definition JaroWinkler_similarity (s1 s2 : str) : Q :=
  let sim := jaro s1 s2 in
  if Qltb (7 # 10) sim
  then (sim + Qnat (common_prefix 4 s1 s2) * (1 # 10) * (1 - sim))%Q
  else sim.

(** Modelled from the spec: [rapidfuzz.fuzz.token_set_ratio], "a token-set
    similarity ratio (order- and duplicate-insensitive overlap measure) on
    the joined token strings, 0-100". The instance is the usual definition:
    the two sets of whitespace-separated tokens are compared; when they
    overlap and one holds the other the ratio is 100; otherwise it is the
    greatest of three normalised insertion-deletion similarities, between
    the sorted differences and between the intersection and each side. *)
Fixpoint str_ltb (a b : str) : bool :=
  match a, b with
  | [], [] => false
  | [], _ :: _ => true
  | _ :: _, [] => false
  | x :: a', y :: b' => (x <? y)%N || ((x =? y)%N && str_ltb a' b')
  end.

(** [sorted(set(tokens))] *)
Fixpoint set_insert (t : str) (sorted : list str) : list str :=
  match sorted with
  | [] => [t]
  | u :: rest =>
      if str_eqb t u then sorted
      else if str_ltb t u then t :: sorted
      else u :: set_insert t rest
  end.

Definition token_set (s : str) : list str := fold_right set_insert [] (split s).

Definition member (t : str) (l : list str) : bool := existsb (str_eqb t) l.

(** One row of the table of longest common subsequences: [up_row] is the
    row above without its first column, [diag] and [left] the entries
    above-left and left of the next one. *)
Fixpoint lcs_row (x : char) (b : str) (up_row : list nat) (diag left : nat) : list nat :=
  match b, up_row with
  | y :: b', up :: up_row' =>
      let v := if (x =? y)%N then S diag else Nat.max up left in
      v :: lcs_row x b' up_row' up v
  | _, _ => []
  end.

Definition lcs (a b : str) : nat :=
  List.last (fold_left (fun row x => lcs_row x b row 0 0) a (repeat 0 (length b))) 0.

Definition indel_distance (a b : str) : nat := length a + length b - 2 * lcs a b.

Definition norm_distance (dist lensum : nat) : Q :=
  if lensum =? 0 then 100%Q else (100 - 100 * Qnat dist / Qnat lensum)%Q.

Definition token_set_ratio (s1 s2 : str) : Q :=
  if nilb s1 || nilb s2 then 0%Q
  else
    let tokens_a := token_set s1 in
    let tokens_b := token_set s2 in
    if nilb tokens_a || nilb tokens_b then 0%Q
    else
      let intersect := List.filter (fun t => member t tokens_b) tokens_a in
      let diff_ab := List.filter (fun t => negb (member t tokens_b)) tokens_a in
      let diff_ba := List.filter (fun t => negb (member t tokens_a)) tokens_b in
      if negb (nilb intersect) && (nilb diff_ab || nilb diff_ba) then 100%Q
      else
        let diff_ab_joined := join [space] diff_ab in
        let diff_ba_joined := join [space] diff_ba in
        let ab_len := length diff_ab_joined in
        let ba_len := length diff_ba_joined in
        let sect_len := length (join [space] intersect) in
        let sep := if sect_len =? 0 then 0 else 1 in
        let sect_ab_len := sect_len + sep + ab_len in
        let sect_ba_len := sect_len + sep + ba_len in
        let result :=
          norm_distance (indel_distance diff_ab_joined diff_ba_joined)
            (sect_ab_len + sect_ba_len) in
        if sect_len =? 0 then result
        else
          let sect_ab_ratio := norm_distance (sep + ab_len) (sect_len + sect_ab_len) in
          let sect_ba_ratio := norm_distance (sep + ba_len) (sect_len + sect_ba_len) in
          Qmax result (Qmax sect_ab_ratio sect_ba_ratio).

End Rapidfuzz.

(** Modelled from the spec: [unicodedata] and the case methods of [str]
    read the Unicode character database, which is not part of the
    repository. The instance below holds the entries of that database for
    ASCII and Latin-1, the combining marks that Latin-1 letters decompose
    to, and three code points outside the Latin script: U+0902 (a
    nonspacing mark of class 0) and the musical symbols U+1D165 and U+1D16D
    (spacing marks, category [Mc], of classes 216 and 226). Every other
    code point is taken as a caseless starter without decomposition. *)
Module UCD.

Local Open Scope N_scope.

Definition within (lo hi c : N) : bool := (lo <=? c) && (c <=? hi).

Definition is_Mn (c : char) : bool :=
  within 0x300 0x314 c || (c =? 0x327) || (c =? 0x902).

Definition combining_class (c : char) : N :=
  if within 0x300 0x314 c then 230
  else if c =? 0x327 then 202
  else if c =? 0x1D165 then 216
  else if c =? 0x1D16D then 226
  else 0.

(** Canonical decompositions of Latin-1: base letter and mark. *)
Definition decomposition_table : list (char * str) :=
  [ (0xC0, [0x41; 0x300]); (0xC1, [0x41; 0x301]); (0xC2, [0x41; 0x302]);
    (0xC3, [0x41; 0x303]); (0xC4, [0x41; 0x308]); (0xC5, [0x41; 0x30A]);
    (0xC7, [0x43; 0x327]); (0xC8, [0x45; 0x300]); (0xC9, [0x45; 0x301]);
    (0xCA, [0x45; 0x302]); (0xCB, [0x45; 0x308]); (0xCC, [0x49; 0x300]);
    (0xCD, [0x49; 0x301]); (0xCE, [0x49; 0x302]); (0xCF, [0x49; 0x308]);
    (0xD1, [0x4E; 0x303]); (0xD2, [0x4F; 0x300]); (0xD3, [0x4F; 0x301]);
    (0xD4, [0x4F; 0x302]); (0xD5, [0x4F; 0x303]); (0xD6, [0x4F; 0x308]);
    (0xD9, [0x55; 0x300]); (0xDA, [0x55; 0x301]); (0xDB, [0x55; 0x302]);
    (0xDC, [0x55; 0x308]); (0xDD, [0x59; 0x301]);
    (0xE0, [0x61; 0x300]); (0xE1, [0x61; 0x301]); (0xE2, [0x61; 0x302]);
    (0xE3, [0x61; 0x303]); (0xE4, [0x61; 0x308]); (0xE5, [0x61; 0x30A]);
    (0xE7, [0x63; 0x327]); (0xE8, [0x65; 0x300]); (0xE9, [0x65; 0x301]);
    (0xEA, [0x65; 0x302]); (0xEB, [0x65; 0x308]); (0xEC, [0x69; 0x300]);
    (0xED, [0x69; 0x301]); (0xEE, [0x69; 0x302]); (0xEF, [0x69; 0x308]);
    (0xF1, [0x6E; 0x303]); (0xF2, [0x6F; 0x300]); (0xF3, [0x6F; 0x301]);
    (0xF4, [0x6F; 0x302]); (0xF5, [0x6F; 0x303]); (0xF6, [0x6F; 0x308]);
    (0xF9, [0x75; 0x300]); (0xFA, [0x75; 0x301]); (0xFB, [0x75; 0x302]);
    (0xFC, [0x75; 0x308]); (0xFD, [0x79; 0x301]); (0xFF, [0x79; 0x308]) ].

Fixpoint table_get (t : list (char * str)) (c : char) : option str :=
  match t with
  | [] => None
  | (k, v) :: rest => if k =? c then Some v else table_get rest c
  end.

Definition decompose (c : char) : str :=
  default [c] (table_get decomposition_table c).

Definition is_upper (c : char) : bool :=
  within 65 90 c || (within 0xC0 0xDE c && negb (c =? 0xD7)).

Definition is_lower (c : char) : bool :=
  within 97 122 c || (c =? 0xAA) || (c =? 0xB5) || (c =? 0xBA)
  || (within 0xDF 0xFF c && negb (c =? 0xF7)).

Definition to_upper (c : char) : str :=
  if within 97 122 c then [c - 32]
  else if c =? 0xB5 then [0x39C]
  else if c =? 0xDF then [0x53; 0x53]
  else if c =? 0xFF then [0x178]
  else if within 0xE0 0xFE c && negb (c =? 0xF7) then [c - 32]
  else [c].

Definition to_lower (c : char) : str :=
  if within 65 90 c then [c + 32]
  else if within 0xC0 0xDE c && negb (c =? 0xD7) then [c + 32]
  else [c].

Definition latin1 : UnicodeData :=
  {| category_Mn := is_Mn;
     decomposition := decompose;
     combining := combining_class;
     ch_isupper := is_upper;
     ch_islower := is_lower;
     ch_istitle := fun _ => false;
     ch_isalpha := fun c => is_upper c || is_lower c;
     ch_upper := to_upper;
     ch_lower := to_lower |}.

End UCD.

(** The concrete scorers and normaliser used in the examples. *)
Definition v4_score : str -> str -> option Q :=
  V4.debug_name_score UCD.latin1 Rapidfuzz.JaroWinkler_similarity Rapidfuzz.token_set_ratio.
Definition v3_score : str -> str -> option Q :=
  V3.calculate_name_score UCD.latin1 Rapidfuzz.JaroWinkler_similarity
    Rapidfuzz.token_set_ratio.

(** Records for the examples: a registry entry and an author, as they are
    after [preprocess_professor_data] and [preprocess_authors_data]. *)
Definition registry_entry (id : nat) (name : string) : professor nat :=
  V4.preprocess_professor UCD.latin1
    {| prof_id := Some id; nome_completo := Some (py name);
       nome_completo_normalized := None; nome_completo_tokens := None;
       nome_completo_original := None |}.

Definition openalex_author (name : string) : author :=
  V4.preprocess_author UCD.latin1
    {| display_name := Some (py name); orcid := None;
       display_name_normalized := None; display_name_tokens := None |}.

(** The data of [match_test.py], with a candidate list written by hand. *)
Definition test_authors : gmap string author :=
  list_to_map
    [ ("A123"%string,
       {| display_name := Some (py "G. Verdi"); orcid := Some (py "0000-0000-0000-0001");
          display_name_normalized := None; display_name_tokens := None |});
      ("A456"%string,
       {| display_name := Some (py "M. Rossi"); orcid := Some (py "0000-0000-0000-0002");
          display_name_normalized := None; display_name_tokens := None |}) ].

Definition test_candidates : list (V4.candidate (PId := nat) (AId := string)) :=
  [ ((197 # 2)%Q, registry_entry 1 "Giuseppe VERDI", "A123"%string, py "display_name");
    ((197 # 2)%Q, registry_entry 2 "Maria ROSSI", "A456"%string, py "display_name");
    (80%Q, registry_entry 1 "Giuseppe VERDI", "A456"%string, py "display_name");
    (78%Q, registry_entry 2 "Maria ROSSI", "A123"%string, py "display_name");
    (50%Q, registry_entry 3 "Anna BIANCHI", "A123"%string, py "display_name") ].

(** The professors and the items of the authors dictionary of
    [match_test.py], before preprocessing. *)
Definition test_professors : list (professor nat) :=
  [ {| prof_id := Some 1%nat; nome_completo := Some (py "Giuseppe VERDI");
       nome_completo_normalized := None; nome_completo_tokens := None;
       nome_completo_original := None |};
    {| prof_id := Some 2%nat; nome_completo := Some (py "Maria ROSSI");
       nome_completo_normalized := None; nome_completo_tokens := None;
       nome_completo_original := None |} ].

Definition test_items : list (string * author) :=
  [ ("A123"%string,
     {| display_name := Some (py "G. Verdi"); orcid := Some (py "0000-0000-0000-0001");
        display_name_normalized := None; display_name_tokens := None |});
    ("A456"%string,
     {| display_name := Some (py "M. Rossi"); orcid := Some (py "0000-0000-0000-0002");
        display_name_normalized := None; display_name_tokens := None |}) ].

(** Two registry records without the key ['id']. *)
Definition anonymous_entry (name : string) : professor nat :=
  {| prof_id := None; nome_completo := Some (py name);
     nome_completo_normalized := None; nome_completo_tokens := None;
     nome_completo_original := None |}.

Definition anonymous_candidates : list (V4.candidate (PId := nat) (AId := string)) :=
  [ (90%Q, anonymous_entry "Giuseppe VERDI", "A123"%string, py "display_name");
    (85%Q, anonymous_entry "Maria ROSSI", "A456"%string, py "display_name") ].

(** Two universities of the registry and two OpenAlex institutions. *)
Definition university (name : string) : Univ.miur_row :=
  {| Univ.NomeOperativo := py name; Univ.NomeEsteso := py name;
     Univ.nome_pulito := py name |}.

Definition institution (id name : string) : Univ.oa_row string :=
  {| Univ.oa_id := id; Univ.oa_display_name := py name;
     Univ.display_name_pulito := py name;
     Univ.display_name_alternatives := []; Univ.alternatives_pulite := Some [] |}.

Definition rome_miur : list Univ.miur_row :=
  [university "Roma Tre"; university "Roma Sapienza"].

Definition rome_openalex : list (Univ.oa_row string) :=
  [institution "I1" "Roma Sapienza"; institution "I2" "Rome 3"].

(** ** Predicates of the statements *)

(** A string in the form that the last step of [normalize_name] produces:
    no whitespace at either end and, inside, single spaces only. [prev]
    tells that the previous character was whitespace or that the string
    starts here. *)
Fixpoint tidy_from (prev : bool) (s : str) : bool :=
  match s with
  | [] => negb prev
  | c :: r =>
      if isspace c
      then negb prev && (c =? space)%N && tidy_from true r
      else tidy_from false r
  end.

Definition tidy (s : str) : bool :=
  match s with [] => true | _ => tidy_from true s end.

(** A starter that the canonical decomposition and the removal of marks
    leave alone. *)
Definition inert (U : UnicodeData) (c : char) : Prop :=
  decomposition U c = [c] /\ combining U c = 0%N /\ category_Mn U c = false.

(** A character that no step of [normalize_name] changes. *)
Definition settled (U : UnicodeData) (c : char) : Prop :=
  inert U c /\ is_dash c = false /\ is_quote c = false /\ is_comma c = false.

(** The registry parser as the specification words it: a token belongs to
    the family name exactly when it is "composed entirely of uppercase
    alphabetic characters"; when no token does, the first token is the
    family name and the others the given name. Returns [(given, family)]. *)
Definition uppercase_alphabetic (U : UnicodeData) (token : str) : bool :=
  negb (nilb token) && forallb (fun c => ch_isupper U c && ch_isalpha U c) token.

Definition parse_registry_name_spec (U : UnicodeData) (name : str) : str * str :=
  let tokens := split name in
  match List.filter (uppercase_alphabetic U) tokens with
  | [] => (join [space] (tl tokens), hd [] tokens)
  | family =>
      (join [space] (List.filter (fun t => negb (uppercase_alphabetic U t)) tokens),
       join [space] family)
  end.

(** The canonical decomposition of a decomposed character is itself. *)
Definition decomposition_closed (U : UnicodeData) : Prop :=
  forall c c', In c' (decomposition U c) -> decomposition U c' = [c'].

(** The names that [is_initial] accepts: each group is a letter, with or
    without a dot after it. *)
Definition render_initials (groups : list (char * bool)) : str :=
  flat_map (fun g : char * bool => if snd g then [fst g; dot] else [fst g]) groups.

(** A token as [str.split] yields it: not empty and free of whitespace. *)
Definition is_token (t : str) : Prop :=
  t <> [] /\ forallb (fun c => negb (isspace c)) t = true.

(** Scores in the order of [sort(reverse=True)]: none is followed by a
    greater one. *)
Fixpoint sorted_desc (scores : list Q) : Prop :=
  match scores with
  | [] => True
  | s :: rest => Forall (fun t => (t <= s)%Q) rest /\ sorted_desc rest
  end.

(** [c] is the tuple that the generator appends for a pair of [professors]
    and [items] whose score is above the threshold. *)
Definition generated_by {PId AId : Type} (U : UnicodeData)
           (JaroWinkler_similarity token_set_ratio : str -> str -> Q)
           (professors : list (professor PId)) (items : list (AId * author))
           (score_threshold : Q) (c : Q * professor PId * AId * str) : Prop :=
  exists prof author_id author_data score,
    In prof professors /\ In (author_id, author_data) items /\
    V4.calculate_name_score_optimized U JaroWinkler_similarity token_set_ratio
      prof author_data = Some score /\
    (score_threshold < score)%Q /\
    c = (score, prof, author_id, py "display_name").

(** Every row of [oa_stack] that has the key ['alternatives_pulite'] has
    at least as many original alternatives as cleaned ones. *)
Definition aligned {OId : Type} (oa_stack : list (Univ.oa_row OId)) : Prop :=
  forall oa alts,
    In oa oa_stack -> Univ.alternatives_pulite oa = Some alts ->
    (length alts <= length (Univ.display_name_alternatives oa))%nat.

(** Where a score of the greedy matcher comes from: the cleaned display
    name of the row [oa], or a non-empty cleaned alternative of it, whose
    original stands at the same index. *)
Definition score_source {OId : Type} (score : str -> str -> Q) (miur_clean : str)
           (oa : Univ.oa_row OId) (match_type name : str) (s : Q) : Prop :=
  (match_type = py "display_name" /\ name = Univ.oa_display_name oa /\
   s = score miur_clean (Univ.display_name_pulito oa)) \/
  (match_type = py "alternative" /\
   exists k alts alt,
     Univ.alternatives_pulite oa = Some alts /\ alts !! k = Some alt /\ alt <> [] /\
     Univ.display_name_alternatives oa !! k = Some name /\
     s = score miur_clean alt).

(** The four [best_*] variables hold their initial values, or describe a
    row of [oa_stack] that is not in [used_openalex], with a positive
    score. *)
Definition best_justified {OId : Type} (score : str -> str -> Q)
           (oa_stack : list (Univ.oa_row OId)) (used_openalex : gset nat)
           (miur_clean : str) (b : Univ.best) : Prop :=
  (Univ.best_match_idx b = None /\ Univ.best_match_type b = None /\
   Univ.best_oa_name b = None /\ Univ.best_score b = 0%Q) \/
  exists idx oa match_type name,
    Univ.best_match_idx b = Some idx /\ Univ.best_match_type b = Some match_type /\
    Univ.best_oa_name b = Some name /\
    oa_stack !! idx = Some oa /\ (idx ∉ used_openalex) /\
    (0 < Univ.best_score b)%Q /\
    score_source score miur_clean oa match_type name (Univ.best_score b).

(** The match [m] joins a row of [miur_stack] and a row of [oa_stack]
    with a positive score that is not below the threshold. *)
Definition match_justified {OId : Type} (score : str -> str -> Q)
           (oa_stack : list (Univ.oa_row OId)) (miur_stack : list Univ.miur_row)
           (threshold : Q) (m : Univ.institution_match OId) : Prop :=
  exists row oa,
    In row miur_stack /\ In oa oa_stack /\
    Univ.nome_operativo_miur m = Univ.NomeOperativo row /\
    Univ.nome_esteso_miur m = Univ.NomeEsteso row /\
    Univ.id_openalex m = Univ.oa_id oa /\
    (threshold <= Univ.im_score m)%Q /\ (0 < Univ.im_score m)%Q /\
    score_source score (Univ.nome_pulito row) oa
      (Univ.im_match_type m) (Univ.display_name_oa m) (Univ.im_score m).

(* ===================================================================== *)
(** * Part II. Properties                                                 *)
(* ===================================================================== *)

(** ** Whitespace *)

Arguments rstrip : simpl never.

Lemma rstrip_cons c r :
  rstrip (c :: r) = if isspace c && nilb (rstrip r) then [] else c :: rstrip r.
Proof. reflexivity. Qed.

Lemma lstrip_tidy s : tidy_from true s = true -> lstrip s = s.
Proof.
  destruct s as [|c r]; simpl; [discriminate|].
  destruct (isspace c); [discriminate | reflexivity].
Qed.

Lemma rstrip_tidy s : forall prev, tidy_from prev s = true -> rstrip s = s.
Proof.
  induction s as [|c r IH]; intros prev Ht; [reflexivity|].
  rewrite rstrip_cons. simpl in Ht.
  destruct (isspace c).
  - apply andb_prop in Ht as [_ Ht].
    rewrite (IH true Ht). destruct r; [discriminate | reflexivity].
  - rewrite (IH false Ht). reflexivity.
Qed.

Lemma re_sub_spaces_tidy s :
  forall prev in_run,
    tidy_from prev s = true -> (in_run = true -> prev = true) ->
    re_sub_spaces in_run s = s.
Proof.
  induction s as [|c r IH]; intros prev in_run Ht Hrun; [reflexivity|].
  simpl in *. destruct (isspace c).
  - apply andb_prop in Ht as [Hc Ht]. apply andb_prop in Hc as [Hp Hc].
    destruct in_run.
    + rewrite Hrun in Hp by reflexivity. discriminate.
    + apply N.eqb_eq in Hc. subst c. f_equal. apply (IH true true Ht). auto.
  - f_equal. apply (IH false false Ht). discriminate.
Qed.

Lemma rstrip_idem s : rstrip (rstrip s) = rstrip s.
Proof.
  induction s as [|c r IH]; [reflexivity|].
  rewrite rstrip_cons.
  destruct (isspace c) eqn:Hc; cbn [andb].
  - destruct (rstrip r) as [|d r'] eqn:Hr; cbn [nilb]; [reflexivity|].
    rewrite rstrip_cons, Hc, IH. reflexivity.
  - rewrite rstrip_cons, Hc, IH. reflexivity.
Qed.

Lemma rstrip_head c r :
  rstrip (c :: r) <> [] -> exists r', rstrip (c :: r) = c :: r'.
Proof.
  rewrite rstrip_cons. destruct (isspace c && nilb (rstrip r)); [congruence|eauto].
Qed.

Lemma lstrip_head s : lstrip s = [] \/ exists c r, lstrip s = c :: r /\ isspace c = false.
Proof.
  induction s as [|c r IH]; [left; reflexivity|].
  simpl. destruct (isspace c) eqn:Hc; [exact IH|]. right. eauto.
Qed.

Lemma strip_head s : strip s = [] \/ exists c r, strip s = c :: r /\ isspace c = false.
Proof.
  unfold strip. destruct (lstrip_head s) as [->|(c & r & -> & Hc)]; [left; reflexivity|].
  destruct (rstrip (c :: r)) eqn:Hr; [left; reflexivity|].
  right. destruct (rstrip_head c r) as [r' Hr']; [congruence|].
  rewrite Hr in Hr'. inversion Hr'; subst. eauto.
Qed.

Lemma re_sub_spaces_rstripped s :
  forall prev in_run,
    rstrip s = s -> (s = [] -> prev = false) ->
    (prev = true -> in_run = false -> exists c r, s = c :: r /\ isspace c = false) ->
    (in_run = true -> prev = true) ->
    tidy_from prev (re_sub_spaces in_run s) = true.
Proof.
  induction s as [|c r IH]; intros prev in_run Hs Hnil Hhead Hrun.
  - simpl. rewrite Hnil by reflexivity. reflexivity.
  - rewrite rstrip_cons in Hs. simpl.
    destruct (isspace c) eqn:Hc; cbn [andb] in Hs.
    + destruct (rstrip r) as [|d r'] eqn:Hn; cbn [nilb] in Hs; [discriminate|].
      assert (Hr : r = d :: r') by congruence.
      assert (Hrr : rstrip r = r) by congruence.
      destruct in_run.
      * apply (IH prev true (eq_sym Hr)).
        -- rewrite Hr. discriminate.
        -- intros _ E. discriminate.
        -- exact Hrun.
      * destruct prev.
        { destruct Hhead as (c' & r'' & E & Hc'); auto. inversion E; subst. congruence. }
        cbn. apply (IH true true (eq_sym Hr)).
        -- rewrite Hr. discriminate.
        -- intros _ E. discriminate.
        -- reflexivity.
    + assert (Hrr : rstrip r = r) by congruence.
      cbn [tidy_from]. rewrite Hc. apply (IH false false Hrr).
      * reflexivity.
      * discriminate.
      * discriminate.
Qed.

Lemma strip_re_sub_spaces_tidy s : tidy (re_sub_spaces false (strip s)) = true.
Proof.
  destruct (strip_head s) as [E|(c & r & E & Hc)].
  - rewrite E. reflexivity.
  - assert (Ht : tidy_from true (re_sub_spaces false (strip s)) = true).
    { apply re_sub_spaces_rstripped.
      - unfold strip. apply rstrip_idem.
      - rewrite E. discriminate.
      - intros _ _. eauto.
      - discriminate. }
    destruct (re_sub_spaces false (strip s)); [reflexivity | exact Ht].
Qed.

Lemma tidy_fixed s : tidy s = true -> re_sub_spaces false (strip s) = s.
Proof.
  destruct s as [|c r]; [reflexivity|]. unfold tidy. intros Ht.
  unfold strip. rewrite (lstrip_tidy _ Ht), (rstrip_tidy _ _ Ht).
  apply (re_sub_spaces_tidy _ true false Ht). discriminate.
Qed.

(** ** The normaliser *)

Section Normalizer.
Variable U : UnicodeData.

Lemma insert_mark_starter c out_rev :
  combining U c = 0%N -> insert_mark U c out_rev = c :: out_rev.
Proof.
  intros Hc. destruct out_rev as [|d rest]; simpl; [reflexivity|].
  rewrite Hc. reflexivity.
Qed.

Lemma In_insert_mark x c out_rev :
  In x (insert_mark U c out_rev) -> x = c \/ In x out_rev.
Proof.
  induction out_rev as [|d rest IH]; simpl.
  - intros [->|[]]. now left.
  - destruct (negb (combining U c =? 0)%N && (combining U c <? combining U d)%N); simpl.
    + intros [->|Hx]; [right; now left|].
      destruct (IH Hx) as [->|Hin]; [now left | right; now right].
    + intros [->|Hx]; [now left | now right].
Qed.

Lemma In_fold_insert_mark x s :
  forall acc, In x (fold_left (fun acc c => insert_mark U c acc) s acc) ->
              In x s \/ In x acc.
Proof.
  induction s as [|c r IH]; intros acc Hx; simpl in *; [now right|].
  destruct (IH _ Hx) as [Hin|Hin]; [left; now right|].
  destruct (In_insert_mark _ _ _ Hin) as [->|Hacc]; [left; now left | now right].
Qed.

Lemma In_canonical_order x s : In x (canonical_order U s) -> In x s.
Proof.
  unfold canonical_order. rewrite <- in_rev. intros Hx.
  destruct (In_fold_insert_mark _ _ _ Hx) as [Hin|[]]. exact Hin.
Qed.

Lemma fold_insert_mark_starters s :
  Forall (fun c => combining U c = 0%N) s ->
  forall acc, fold_left (fun acc c => insert_mark U c acc) s acc = rev s ++ acc.
Proof.
  induction 1 as [|c r Hc _ IH]; intros acc; simpl; [reflexivity|].
  rewrite (insert_mark_starter _ _ Hc), IH, <- app_assoc. reflexivity.
Qed.

Lemma canonical_order_starters s :
  Forall (fun c => combining U c = 0%N) s -> canonical_order U s = s.
Proof.
  intros Hs. unfold canonical_order.
  rewrite (fold_insert_mark_starters _ Hs), app_nil_r. apply rev_involutive.
Qed.

Lemma NFD_inert s : Forall (inert U) s -> NFD U s = s.
Proof.
  intros Hs. unfold NFD.
  assert (E : flat_map (decomposition U) s = s).
  { induction Hs as [|c r (Hd & _) _ IH]; simpl; [reflexivity|].
    rewrite Hd, IH. reflexivity. }
  rewrite E. apply canonical_order_starters.
  eapply List.Forall_impl; [|exact Hs]. intros c (_ & Hc & _). exact Hc.
Qed.

Lemma filter_marks_inert s :
  Forall (inert U) s -> List.filter (fun ch => negb (category_Mn U ch)) s = s.
Proof.
  induction 1 as [|c r (_ & _ & Hm) _ IH]; simpl; [reflexivity|].
  rewrite Hm, IH. reflexivity.
Qed.

Lemma re_sub_class_none cls repl s :
  Forall (fun c => cls c = false) s -> re_sub_class cls repl s = s.
Proof.
  induction 1 as [|c r Hc _ IH]; simpl; [reflexivity|].
  rewrite Hc. f_equal. exact IH.
Qed.

Lemma In_re_sub_class cls repl s x :
  In x (re_sub_class cls repl s) -> x = repl \/ (In x s /\ cls x = false).
Proof.
  unfold re_sub_class. rewrite in_map_iff. intros (c & E & Hc).
  destruct (cls c) eqn:Hcls; subst; [now left | right; now split].
Qed.

Lemma In_lstrip x s : In x (lstrip s) -> In x s.
Proof.
  induction s as [|c r IH]; simpl; [tauto|].
  destruct (isspace c); [right; auto | tauto].
Qed.

Lemma In_rstrip x s : In x (rstrip s) -> In x s.
Proof.
  induction s as [|c r IH]; [tauto|].
  rewrite rstrip_cons. destruct (isspace c && nilb (rstrip r)); simpl; tauto.
Qed.

Lemma In_re_sub_spaces x s :
  forall in_run, In x (re_sub_spaces in_run s) -> x = space \/ In x s.
Proof.
  induction s as [|c r IH]; intros in_run; simpl; [tauto|].
  destruct (isspace c); [destruct in_run|]; simpl; intros Hx.
  - destruct (IH _ Hx); tauto.
  - destruct Hx as [<-|Hx]; [now left|]. destruct (IH _ Hx); tauto.
  - destruct Hx as [<-|Hx]; [right; now left|]. destruct (IH _ Hx); tauto.
Qed.

Lemma normalize_name_settled s :
  Forall (settled U) s -> tidy s = true -> V4.normalize_name U s = s.
Proof.
  intros Hs Ht. unfold V4.normalize_name.
  destruct s as [|c0 r0] eqn:Es; [reflexivity|]. cbn [nilb]. rewrite <- Es in *.
  assert (Hi : Forall (inert U) s)
    by (eapply List.Forall_impl; [|exact Hs]; intros c Hc; apply Hc).
  rewrite (NFD_inert _ Hi), (filter_marks_inert _ Hi).
  rewrite (re_sub_class_none is_dash hyphen s)
    by (eapply List.Forall_impl; [|exact Hs]; intros c Hc; apply Hc).
  rewrite (re_sub_class_none is_quote apostrophe s)
    by (eapply List.Forall_impl; [|exact Hs]; intros c Hc; apply Hc).
  rewrite (re_sub_class_none is_comma space s)
    by (eapply List.Forall_impl; [|exact Hs]; intros c Hc; apply Hc).
  apply tidy_fixed, Ht.
Qed.

Hypothesis closed : decomposition_closed U.
Hypothesis inert_hyphen : inert U hyphen.
Hypothesis inert_apostrophe : inert U apostrophe.
Hypothesis inert_space : inert U space.

Lemma normalize_name_output s :
  Forall (fun c => category_Mn U c = false -> combining U c = 0%N) (NFD U s) ->
  Forall (settled U) (V4.normalize_name U s) /\ tidy (V4.normalize_name U s) = true.
Proof.
  intros Hs. unfold V4.normalize_name.
  destruct (nilb s); [split; [constructor | reflexivity]|].
  split; [|apply strip_re_sub_spaces_tidy].
  apply List.Forall_forall. intros x Hx.
  apply In_re_sub_spaces in Hx as [->|Hx]; [repeat split; apply inert_space|].
  apply In_rstrip, In_lstrip in Hx.
  apply In_re_sub_class in Hx as [->|[Hx Hcomma]]; [repeat split; apply inert_space|].
  apply In_re_sub_class in Hx as [->|[Hx Hquote]];
    [repeat split; apply inert_apostrophe|].
  apply In_re_sub_class in Hx as [->|[Hx Hdash]];
    [repeat split; apply inert_hyphen|].
  apply filter_In in Hx as [Hx Hmn]. apply negb_true_iff in Hmn.
  repeat split; auto.
  - apply In_canonical_order, in_flat_map in Hx as (c0 & _ & Hc0).
    exact (closed _ _ Hc0).
  - rewrite List.Forall_forall in Hs. exact (Hs _ Hx Hmn).
Qed.

(** C8, as amended. [normalize_name] is idempotent on every string
    whose canonical decomposition holds, apart from nonspacing marks
    (category Mn), only characters of combining class 0. The Unicode
    database is any database whose decomposition mapping is closed and in
    which hyphen, apostrophe and space are starters without decomposition. *)
Theorem normalize_name_idempotent_on_starters s :
  Forall (fun c => category_Mn U c = false -> combining U c = 0%N) (NFD U s) ->
  V4.normalize_name U (V4.normalize_name U s) = V4.normalize_name U s.
Proof.
  intros Hs. destruct (normalize_name_output s Hs) as [Hsettled Htidy].
  apply normalize_name_settled; assumption.
Qed.
End Normalizer.

(** The Latin-1 instance of the database satisfies the four conditions. *)
Lemma latin1_closed : decomposition_closed UCD.latin1.
Proof.
  assert (Htab : forallb (fun kv => forallb (fun c' => str_eqb (UCD.decompose c') [c'])
                                       (snd kv)) UCD.decomposition_table = true)
    by (vm_compute; reflexivity).
  intros c c'. cbn [decomposition UCD.latin1]. unfold UCD.decompose at 1.
  destruct (UCD.table_get UCD.decomposition_table c) as [v|] eqn:Hget; cbn [default].
  - assert (Hin : exists k, In (k, v) UCD.decomposition_table).
    { revert Hget. generalize UCD.decomposition_table as t.
      induction t as [|[k w] t IH]; simpl; [discriminate|].
      destruct (k =? c)%N.
      - intros [= ->]. exists k. now left.
      - intros Hg. destruct (IH Hg) as [k' Hk']. exists k'. now right. }
    destruct Hin as [k Hk]. rewrite forallb_forall in Htab.
    specialize (Htab _ Hk). cbn [snd] in Htab. rewrite forallb_forall in Htab.
    intros Hc'. specialize (Htab _ Hc'). unfold str_eqb in Htab.
    apply bool_decide_eq_true in Htab. exact Htab.
  - intros [<-|[]]. unfold UCD.decompose. rewrite Hget. reflexivity.
Qed.

Lemma latin1_inert_ascii :
  inert UCD.latin1 hyphen /\ inert UCD.latin1 apostrophe /\ inert UCD.latin1 space.
Proof. repeat split; reflexivity. Qed.

(** Witness of C8 as amended: "Jose' Garci'a", with accents, commas, a dash
    and disorderly whitespace. *)
Lemma normalize_name_idempotent_on_starters_witness :
  let s := (py "  Jos" ++ [0xE9; 0x2C; 0x2014; 9] ++ py "Garc" ++ [0xED] ++ py "a `x ")%N in
  V4.normalize_name UCD.latin1 (V4.normalize_name UCD.latin1 s)
  = V4.normalize_name UCD.latin1 s.
Proof.
  intros s.
  apply (normalize_name_idempotent_on_starters UCD.latin1 latin1_closed
           (proj1 latin1_inert_ascii) (proj1 (proj2 latin1_inert_ascii))
           (proj2 (proj2 latin1_inert_ascii)) s).
  vm_compute.
  repeat (apply List.Forall_cons; [intros Hm; first [reflexivity | discriminate Hm]|]).
  apply List.Forall_nil.
Defined.

(** C8, as stated, fails: the spacing marks U+1D16D (class 226) and
    U+1D165 (class 216) stay in this order while the nonspacing mark U+0902
    (class 0) stands between them; the first pass removes U+0902, the
    second pass then reorders the two. *)
Lemma normalize_name_not_idempotent :
  let s := [0x1D16D; 0x902; 0x1D165]%N in
  V4.normalize_name UCD.latin1 s = [0x1D16D; 0x1D165]%N /\
  V4.normalize_name UCD.latin1 (V4.normalize_name UCD.latin1 s) = [0x1D165; 0x1D16D]%N /\
  V4.normalize_name UCD.latin1 (V4.normalize_name UCD.latin1 s)
  <> V4.normalize_name UCD.latin1 s.
Proof. vm_compute. repeat split; discriminate. Qed.

(** ** The registry parser *)

Section RegistryParser.
Variable U : UnicodeData.

Lemma isupper_nonempty token : isupper U token = true -> token <> [].
Proof. intros Hu ->. discriminate Hu. Qed.

Lemma join_nil_iff (l : list str) :
  Forall (fun t => t <> []) l -> (nilb (join [space] l) = true <-> l = []).
Proof.
  intros Hl. split; [|intros ->; reflexivity].
  destruct Hl as [|t l Ht _]; [reflexivity|].
  simpl. destruct l; destruct t; try congruence; discriminate.
Qed.

Lemma filter_nil_existsb {A} (f : A -> bool) l :
  List.filter f l = [] <-> existsb f l = false.
Proof.
  induction l as [|a l IH]; simpl; [tauto|].
  destruct (f a); simpl; [split; discriminate | exact IH].
Qed.

Lemma cognome_tokens_nil tokens :
  nilb (join [space] (List.filter (isupper U) tokens))
  = negb (existsb (isupper U) tokens).
Proof.
  assert (Hne : Forall (fun t => t <> []) (List.filter (isupper U) tokens)).
  { apply List.Forall_forall. intros t Ht. apply filter_In in Ht as [_ Ht].
    now apply isupper_nonempty. }
  pose proof (join_nil_iff _ Hne) as Hj.
  pose proof (filter_nil_existsb (isupper U) tokens) as Hf.
  destruct (existsb (isupper U) tokens); cbn [negb].
  - destruct (nilb (join [space] (List.filter (isupper U) tokens))); [|reflexivity].
    apply proj1 in Hj. apply proj1 in Hf. specialize (Hf (Hj eq_refl)). discriminate.
  - apply proj2 in Hf. rewrite (Hf eq_refl). reflexivity.
Qed.

(** C5, as amended. On a registry name of at least two tokens,
    [parse_professor_name] puts a token into the family name exactly when
    [token.isupper()] holds, that is when the token has an upper-case
    character and no lower-case or title-case one, whatever other
    characters it has; the other tokens make the given name, both in the
    order of the name; when no token qualifies, the first token is the
    family name and the others the given name. The result is
    [(given, family)]. *)
Theorem parse_professor_name_isupper prof_tokens original_name :
  (2 <= length (split original_name))%nat ->
  V4.parse_professor_name U prof_tokens original_name =
    let tokens := split original_name in
    if existsb (isupper U) tokens
    then (join [space] (List.filter (fun t => negb (isupper U t)) tokens),
          join [space] (List.filter (isupper U) tokens))
    else (join [space] (tl tokens), hd [] tokens).
Proof.
  intros Hlen. unfold V4.parse_professor_name.
  destruct original_name as [|c r]; [simpl in Hlen; lia|]. cbn [nilb].
  cbv zeta. remember (split (c :: r)) as tokens eqn:Et. clear Et.
  destruct tokens as [|t0 [|t1 rest]]; [simpl in Hlen; lia..|].
  rewrite cognome_tokens_nil.
  destruct (existsb (isupper U) (t0 :: t1 :: rest)); reflexivity.
Qed.
End RegistryParser.

(** Witness of C5 as amended: a double-barrelled family name. *)
Lemma parse_professor_name_isupper_witness :
  V4.parse_professor_name UCD.latin1 [] (py "Maria Grazia DE-LUCA ROSSI")
  = (py "Maria Grazia", py "DE-LUCA ROSSI").
Proof.
  rewrite (parse_professor_name_isupper UCD.latin1 []
             (py "Maria Grazia DE-LUCA ROSSI")); [reflexivity|].
  vm_compute. lia.
Defined.

(** C5, as stated, fails: ["D'ANGELO"] is not made of upper-case letters
    only, and the code takes it for the family name; read by the sentence
    of the specification, no token qualifies and the fall-back applies. *)
Lemma parse_professor_name_not_alphabetic :
  let name := py "Mario D'ANGELO" in
  split name = [py "Mario"; py "D'ANGELO"] /\
  uppercase_alphabetic UCD.latin1 (py "D'ANGELO") = false /\
  V4.parse_professor_name UCD.latin1 (split name) name = (py "Mario", py "D'ANGELO") /\
  parse_registry_name_spec UCD.latin1 name = (py "D'ANGELO", py "Mario") /\
  V4.parse_professor_name UCD.latin1 (split name) name
  <> parse_registry_name_spec UCD.latin1 name.
Proof. vm_compute. repeat split; discriminate. Qed.

(** The first version of the parser, which asks for [isalpha()] too, does
    what the sentence of the specification says on that name, and records
    the anomaly. *)
Lemma old_parse_professor_name_fall_back :
  Old.parse_professor_name UCD.latin1 (split (py "Mario D'ANGELO"))
  = (py "D'ANGELO", py "Mario", [(py "Mario", py "D'ANGELO")]).
Proof. vm_compute. reflexivity. Qed.

(** ** Comparisons and bounds on scores *)

Lemma Qltb_true x y : Qltb x y = true <-> (x < y)%Q.
Proof.
  unfold Qltb. rewrite negb_true_iff, <- not_true_iff_false, Qle_bool_iff.
  split; [apply Qnot_le_lt | apply Qlt_not_le].
Qed.

Lemma Qltb_false x y : Qltb x y = false <-> (y <= x)%Q.
Proof. unfold Qltb. rewrite negb_false_iff. apply Qle_bool_iff. Qed.

Lemma Qmin_100_range x : (0 <= x)%Q -> (0 <= Qmin 100 x <= 100)%Q.
Proof.
  intros Hx. split.
  - apply Q.min_glb; [discriminate | exact Hx].
  - apply Q.le_min_l.
Qed.

(** ** Initials *)

Lemma initials_first_letter s :
  re_match_initials s = true -> exists c r, s = c :: r /\ ascii_letter c = true.
Proof.
  destruct s as [|c r]; [discriminate|]. unfold re_match_initials. cbn.
  destruct (ascii_letter c) eqn:Hc; [eauto|].
  destruct (c =? dot)%N; discriminate.
Qed.

(** After [is_initial] has answered [True], [extract_initial] finds a
    letter: it does not raise. *)
Lemma is_initial_extract s :
  is_initial s = true -> exists c, extract_initial s = Some [c].
Proof.
  unfold is_initial. intros Hi. apply andb_prop in Hi as [Hm _].
  destruct (initials_first_letter _ Hm) as (c & r & Es & Hc).
  assert (Hin : In c s).
  { apply In_lstrip, In_rstrip. fold (strip s). rewrite Es. now left. }
  unfold extract_initial. destruct s as [|d s']; [destruct Hin|]. cbn [nilb].
  assert (Hf : In c (List.filter ascii_letter (d :: s'))) by (apply filter_In; auto).
  destruct (List.filter ascii_letter (d :: s')) as [|e l]; [destruct Hf | eauto].
Qed.

(** ** The scorer *)

Section Scorer.
Local Open Scope Q_scope.
Variable U : UnicodeData.
Variable JaroWinkler_similarity : str -> str -> Q.
Variable token_set_ratio : str -> str -> Q.

(** The two contracts of rapidfuzz that the bounds rest on. *)
Hypothesis JaroWinkler_range : forall a b, 0 <= JaroWinkler_similarity a b <= 1.
Hypothesis token_set_ratio_range : forall a b, 0 <= token_set_ratio a b <= 100.

Lemma combine_scores_range cognome_score nome_score :
  0 <= cognome_score <= 100 -> 0 <= nome_score <= 100 ->
  0 <= V4.combine_scores cognome_score nome_score <= 100.
Proof.
  intros Hc Hn. unfold V4.combine_scores.
  assert (Hw : 0 <= cognome_score * (7 # 10) + nome_score * (3 # 10) <= 100) by lra.
  set (w := cognome_score * (7 # 10) + nome_score * (3 # 10)) in *.
  assert (Hb : 0 <= Qmin 100 (w + 5) <= 100) by (apply Qmin_100_range; lra).
  set (b := Qmin 100 (w + 5)) in *.
  destruct (Qltb 95 cognome_score && Qltb 95 nome_score);
    destruct (Qltb cognome_score 60); lra.
Qed.

Lemma first_name_score_range prof_nome author_first :
  exists q,
    V4.calculate_first_name_score_optimized U JaroWinkler_similarity
      prof_nome author_first = Some q /\ 0 <= q <= 100.
Proof.
  unfold V4.calculate_first_name_score_optimized.
  set (p := if nilb prof_nome then [] else strip prof_nome).
  set (a := if nilb author_first then [] else strip author_first).
  destruct (is_initial a) eqn:Ha.
  - destruct (is_initial_extract _ Ha) as [c ->]. cbn.
    destruct (V4.first_letter_is U p [c]); eexists; (split; [reflexivity | lra]).
  - destruct (is_initial p) eqn:Hp.
    + destruct (is_initial_extract _ Hp) as [c ->]. cbn.
      destruct (V4.first_letter_is U a [c]); eexists; (split; [reflexivity | lra]).
    + pose proof (JaroWinkler_range (upper U p) (upper U a)) as Hj.
      destruct (V4.check_common_abbreviations U p a); eexists; (split; [reflexivity|]).
      * apply Qmin_100_range. lra.
      * lra.
Qed.

Lemma initial_bonus_of_nonneg prof_token author_token :
  exists b, V4.initial_bonus_of U prof_token author_token = Some b /\ 0 <= b.
Proof.
  unfold V4.initial_bonus_of.
  destruct (is_initial author_token) eqn:Ha.
  - destruct (is_initial_extract _ Ha) as [c ->]. cbn.
    destruct (startswith _ _); eexists; (split; [reflexivity | lra]).
  - destruct (is_initial prof_token) eqn:Hp.
    + destruct (is_initial_extract _ Hp) as [c ->]. cbn.
      destruct (startswith _ _); eexists; (split; [reflexivity | lra]).
    + eexists; split; [reflexivity | lra].
Qed.

Lemma bonus_inner_nonneg prof_token author_tokens :
  forall acc, 0 <= acc ->
    exists b, V4.bonus_inner U prof_token author_tokens acc = Some b /\ 0 <= b.
Proof.
  induction author_tokens as [|t rest IH]; intros acc Hacc; cbn.
  - eauto.
  - destruct (initial_bonus_of_nonneg prof_token t) as (b & -> & Hb). cbn.
    apply IH. lra.
Qed.

Lemma bonus_outer_nonneg prof_tokens author_tokens :
  forall acc, 0 <= acc ->
    exists b, V4.bonus_outer U prof_tokens author_tokens acc = Some b /\ 0 <= b.
Proof.
  induction prof_tokens as [|t rest IH]; intros acc Hacc; cbn.
  - eauto.
  - destruct (bonus_inner_nonneg t author_tokens acc Hacc) as (b & -> & Hb). cbn.
    apply IH, Hb.
Qed.

Lemma token_set_score_range prof_tokens author_tokens :
  exists q,
    V4.calculate_token_set_score_optimized U token_set_ratio
      prof_tokens author_tokens = Some q /\ 0 <= q <= 100.
Proof.
  unfold V4.calculate_token_set_score_optimized.
  destruct (bonus_outer_nonneg prof_tokens author_tokens 0) as (b & -> & Hb); [lra|].
  cbn. eexists; split; [reflexivity|].
  apply Qmin_100_range.
  match goal with |- 0 <= token_set_ratio ?x ?y + _ =>
    pose proof (token_set_ratio_range x y) end.
  lra.
Qed.

Lemma parse_author_name_returns author_tokens :
  exists parsed, V4.parse_author_name author_tokens = Some parsed.
Proof.
  unfold V4.parse_author_name.
  destruct author_tokens as [|t0 [|t1 [|t2 rest]]]; eauto.
  - destruct (is_initial t0) eqn:Hi; [|eauto].
    destruct (is_initial_extract _ Hi) as [c ->]. cbn. eauto.
  - destruct (6 <? _)%nat; eauto.
Qed.

(** C1. For every professor record and every author record, preprocessed
    or not, [calculate_name_score_optimized] returns a score, through
    whichever branch (empty name, whole-string Jaro-Winkler, token set,
    weighted family and given name), and the score lies in [0, 100]. *)
Theorem calculate_name_score_optimized_range {PId} (prof_data : professor PId)
        (author_data : author) :
  exists score,
    V4.calculate_name_score_optimized U JaroWinkler_similarity token_set_ratio
      prof_data author_data = Some score
    /\ 0 <= score <= 100.
Proof.
  unfold V4.calculate_name_score_optimized.
  destruct (nilb _ || nilb _); [eexists; split; [reflexivity | lra]|].
  destruct ((_ <? 2)%nat || (_ <? 2)%nat).
  { eexists; split; [reflexivity|].
    match goal with |- 0 <= JaroWinkler_similarity ?x ?y * _ <= _ =>
      pose proof (JaroWinkler_range x y) end.
    lra. }
  destruct (V4.parse_professor_name U _ _) as [prof_nome prof_cognome].
  destruct (parse_author_name_returns (default [] (display_name_tokens author_data)))
    as ([author_nome [author_cognome|tokens]] & ->); cbn.
  - destruct (first_name_score_range prof_nome author_nome) as (ns & -> & Hns). cbn.
    eexists; split; [reflexivity|].
    apply combine_scores_range; [|exact Hns].
    match goal with |- 0 <= JaroWinkler_similarity ?x ?y * _ <= _ =>
      pose proof (JaroWinkler_range x y) end.
    lra.
  - apply token_set_score_range.
Qed.
End Scorer.

(** ** Candidate names of more than six tokens *)

Section LongCandidate.
Local Open Scope Q_scope.
Variable U : UnicodeData.
Variable JaroWinkler_similarity : str -> str -> Q.
Variable token_set_ratio : str -> str -> Q.

Lemma no_empty_abbreviation key :
  match dict_get V4.abbreviations key with
  | Some l => existsb (str_eqb []) l = false
  | None => True
  end.
Proof.
  unfold V4.abbreviations. cbn [dict_get].
  repeat (destruct (str_eqb _ key); [reflexivity|]). exact I.
Qed.

(** The given-name score against an empty candidate given name. *)
Lemma first_name_score_empty_author prof_nome :
  V4.calculate_first_name_score_optimized U JaroWinkler_similarity prof_nome []
  = let p := if nilb prof_nome then [] else strip prof_nome in
    Some (if is_initial p then 10 else JaroWinkler_similarity (upper U p) [] * 100).
Proof.
  unfold V4.calculate_first_name_score_optimized. cbn [nilb]. cbv zeta.
  set (p := if nilb prof_nome then [] else strip prof_nome).
  change (is_initial []) with false. cbn iota.
  destruct (is_initial p) eqn:Hp.
  - destruct (is_initial_extract _ Hp) as [c ->]. reflexivity.
  - unfold V4.check_common_abbreviations. cbn [nilb].
    pose proof (no_empty_abbreviation (if nilb p then [] else lower U p)) as Ha.
    destruct (dict_get V4.abbreviations _); [rewrite Ha|]; reflexivity.
Qed.

Lemma parse_author_name_long author_tokens :
  (6 < length author_tokens)%nat ->
  V4.parse_author_name author_tokens = Some ([], CognomeStr []).
Proof.
  intros Hlen. unfold V4.parse_author_name.
  destruct author_tokens as [|t0 [|t1 [|t2 rest]]]; try (simpl in Hlen; lia).
  apply Nat.ltb_lt in Hlen. rewrite Hlen. reflexivity.
Qed.

(** C6, as amended. When the candidate name has more than six tokens
    (both names non-empty, the registry name of at least two tokens),
    [parse_author_name] returns (empty, empty), which is not the list
    sentinel: the score is not the token-set score but the weighted one,
    computed against an empty family name and an empty given name, where
    the given-name score is 10 when the registry given name has the shape
    of an initial and its Jaro-Winkler similarity to the empty string
    otherwise. The call returns: no exception is raised. *)
Theorem long_candidate_weighted_score {PId} (prof_data : professor PId)
        (author_data : author) prof_clean author_clean prof_tokens author_tokens :
  nome_completo_normalized prof_data = Some prof_clean -> prof_clean <> [] ->
  display_name_normalized author_data = Some author_clean -> author_clean <> [] ->
  nome_completo_tokens prof_data = Some prof_tokens ->
  (2 <= length prof_tokens)%nat ->
  display_name_tokens author_data = Some author_tokens ->
  (6 < length author_tokens)%nat ->
  V4.parse_author_name author_tokens = Some ([], CognomeStr []) /\
  V4.calculate_name_score_optimized U JaroWinkler_similarity token_set_ratio
    prof_data author_data
  = let original_name := default prof_clean (nome_completo_original prof_data) in
    let '(prof_nome, prof_cognome) :=
      V4.parse_professor_name U prof_tokens original_name in
    let p := if nilb prof_nome then [] else strip prof_nome in
    let cognome_score :=
      JaroWinkler_similarity (if nilb prof_cognome then [] else upper U prof_cognome) []
      * 100 in
    let nome_score :=
      if is_initial p then 10 else JaroWinkler_similarity (upper U p) [] * 100 in
    Some (V4.combine_scores cognome_score nome_score).
Proof.
  intros Hpc Hpne Hac Hane Hpt Hplen Hat Halen.
  split; [now apply parse_author_name_long|].
  unfold V4.calculate_name_score_optimized.
  rewrite Hpc, Hac, Hpt, Hat. cbn [from_option id].
  destruct prof_clean as [|c0 r0]; [congruence|].
  destruct author_clean as [|c1 r1]; [congruence|]. cbn [nilb orb].
  replace (length prof_tokens <? 2)%nat with false
    by (symmetry; apply Nat.ltb_ge; lia).
  replace (length author_tokens <? 2)%nat with false
    by (symmetry; apply Nat.ltb_ge; lia).
  cbn [orb]. cbv zeta.
  destruct (V4.parse_professor_name U prof_tokens _) as [prof_nome prof_cognome].
  rewrite (parse_author_name_long _ Halen). cbn [mbind option_bind].
  rewrite first_name_score_empty_author. reflexivity.
Qed.
End LongCandidate.

(** Witness of C6 as amended, which is also the input on which C6, as
    stated, fails: a candidate name of seven tokens. *)
Lemma long_candidate_weighted_score_witness :
  exists score,
    V4.calculate_name_score_optimized UCD.latin1 Rapidfuzz.JaroWinkler_similarity
      Rapidfuzz.token_set_ratio
      (registry_entry 1 "Mario ROSSI") (openalex_author "M R a b c d e")
    = Some score /\ (score == 0)%Q.
Proof.
  destruct (long_candidate_weighted_score UCD.latin1 Rapidfuzz.JaroWinkler_similarity
              Rapidfuzz.token_set_ratio
              (registry_entry 1 "Mario ROSSI") (openalex_author "M R a b c d e")
              (py "Mario ROSSI") (py "M R a b c d e")
              (split (py "Mario ROSSI")) (split (py "M R a b c d e")))
    as [_ Hscore].
  - reflexivity.
  - discriminate.
  - reflexivity.
  - discriminate.
  - reflexivity.
  - vm_compute. lia.
  - reflexivity.
  - vm_compute. lia.
  - rewrite Hscore. eexists. split; [vm_compute; reflexivity | reflexivity].
Defined.

(** C6, as stated, fails: on a candidate name of seven tokens the parser
    returns (empty, empty) and the score is 0, the weighted score against
    two empty names; the token-set score of the same tokens is 45, of which
    20 come from the two initials [M] and [R]. *)
Lemma long_candidate_not_token_set :
  let prof := registry_entry 1 "Mario ROSSI" in
  let candidate := openalex_author "M R a b c d e" in
  let prof_tokens := split (py "Mario ROSSI") in
  let author_tokens := split (py "M R a b c d e") in
  length author_tokens = 7%nat /\
  V4.parse_author_name author_tokens = Some ([], CognomeStr []) /\
  option_map Qred
    (V4.calculate_name_score_optimized UCD.latin1 Rapidfuzz.JaroWinkler_similarity
       Rapidfuzz.token_set_ratio prof candidate) = Some 0%Q /\
  option_map Qred
    (V4.calculate_token_set_score_optimized UCD.latin1 Rapidfuzz.token_set_ratio
       prof_tokens author_tokens) = Some 45%Q /\
  V4.bonus_outer UCD.latin1 prof_tokens author_tokens 0 <> Some 0%Q.
Proof. vm_compute. repeat split; discriminate. Qed.

(** ** The scenario "Giuseppe VERDI" against "G. Verdi" *)

Section GiuseppeVerdi.
Local Open Scope Q_scope.
Variable JaroWinkler_similarity : str -> str -> Q.
Variable token_set_ratio : str -> str -> Q.

Lemma combine_scores_no_bonus cognome_score :
  cognome_score == 100 -> V4.combine_scores cognome_score 95 == 197 # 2.
Proof.
  intros Hc. unfold V4.combine_scores.
  replace (Qltb 95 95) with false by reflexivity. rewrite andb_false_r.
  replace (Qltb cognome_score 60) with false
    by (symmetry; apply Qltb_false; lra).
  lra.
Qed.

(** C7, as amended. The parsers yield given name "Giuseppe", family name
    "VERDI" and given name "G" (the initial without its dot), family name
    "Verdi"; with identical upper-cased family names of similarity 1 the
    family score is 100 and the given-name score is 95, a matching
    initial; 95 is not above 95, so the +5 bonus does not apply, and the
    final score is 100 * 0.7 + 95 * 0.3 = 98.5: the pair passes every
    threshold up to 98.5 and fails the threshold 100. *)
Theorem giuseppe_verdi_score :
  JaroWinkler_similarity (py "VERDI") (py "VERDI") == 1 ->
  V4.parse_professor_name UCD.latin1 (split (py "Giuseppe VERDI")) (py "Giuseppe VERDI")
  = (py "Giuseppe", py "VERDI") /\
  V4.parse_author_name (split (py "G. Verdi")) = Some (py "G", CognomeStr (py "Verdi")) /\
  V4.calculate_first_name_score_optimized UCD.latin1 JaroWinkler_similarity
    (py "Giuseppe") (py "G") = Some 95 /\
  exists score,
    V4.debug_name_score UCD.latin1 JaroWinkler_similarity token_set_ratio
      (py "Giuseppe VERDI") (py "G. Verdi") = Some score /\
    score == 197 # 2 /\
    (forall threshold, threshold <= 197 # 2 -> Qltb score threshold = false) /\
    Qltb score 100 = true.
Proof.
  intros Hjw.
  split; [reflexivity|]. split; [reflexivity|]. split; [reflexivity|].
  exists (V4.combine_scores (JaroWinkler_similarity (py "VERDI") (py "VERDI") * 100) 95).
  assert (Hs : V4.combine_scores (JaroWinkler_similarity (py "VERDI") (py "VERDI") * 100) 95
               == 197 # 2) by (apply combine_scores_no_bonus; lra).
  split; [|split; [|split]].
  - vm_compute. reflexivity.
  - exact Hs.
  - intros threshold Ht. apply Qltb_false. lra.
  - apply Qltb_true. lra.
Qed.
End GiuseppeVerdi.

(** Witness of C7 as amended, with the Jaro-Winkler instance. *)
Lemma giuseppe_verdi_score_witness :
  exists score,
    v4_score (py "Giuseppe VERDI") (py "G. Verdi") = Some score /\ (score == 197 # 2)%Q.
Proof.
  destruct (giuseppe_verdi_score Rapidfuzz.JaroWinkler_similarity Rapidfuzz.token_set_ratio)
    as (_ & _ & _ & score & Hscore & Hvalue & _).
  - vm_compute. reflexivity.
  - exists score. split; [exact Hscore | exact Hvalue].
Defined.

(** C7, as stated, fails: the candidate's given name is parsed as "G",
    not "G.", and the final score is 98.5, not 100: the bonus needs a
    given-name score above 95 and a matching initial scores exactly 95. *)
Lemma giuseppe_verdi_not_100 :
  V4.parse_author_name (split (py "G. Verdi")) = Some (py "G", CognomeStr (py "Verdi")) /\
  V4.parse_author_name (split (py "G. Verdi")) <> Some (py "G.", CognomeStr (py "Verdi")) /\
  Qltb 95 95 = false /\
  option_map Qred (v4_score (py "Giuseppe VERDI") (py "G. Verdi")) = Some (197 # 2)%Q /\
  ~ (197 # 2 == 100)%Q /\
  option_map (fun score => Qltb score 100)
    (v4_score (py "Giuseppe VERDI") (py "G. Verdi")) = Some true.
Proof. vm_compute. repeat split; discriminate. Qed.

(** ** The scorer is not symmetric *)

Section Asymmetry.
Local Open Scope Q_scope.
Variable JaroWinkler_similarity : str -> str -> Q.
Variable token_set_ratio : str -> str -> Q.

Lemma combine_scores_family_mismatch cognome_score nome_score :
  0 <= cognome_score -> cognome_score < 60 -> 0 <= nome_score <= 100 ->
  V4.combine_scores cognome_score nome_score <= 36.
Proof.
  intros Hc0 Hc Hn. unfold V4.combine_scores.
  replace (Qltb 95 cognome_score) with false
    by (symmetry; apply Qltb_false; lra).
  replace (Qltb cognome_score 60) with true
    by (symmetry; apply Qltb_true; lra).
  cbn [andb]. lra.
Qed.

(** C4, as amended. The scorer is not symmetric. For the names
    "Giuseppe VERDI" and "G. Verdi", whatever the similarity, provided it
    stays in [0, 1], gives 1 to ("VERDI", "VERDI") and less than 0.6 to
    ("G.", "VERDI"): as registry name and candidate they score 98.5; with
    the roles exchanged, "G." is upper case and becomes the family name of
    the registry side, and the score is at most 36. This holds of
    [calculate_name_score] (V3) and of [calculate_name_score_optimized]
    (V4) on the preprocessed names alike. *)
Theorem calculate_name_score_not_symmetric :
  (forall a b, 0 <= JaroWinkler_similarity a b <= 1) ->
  JaroWinkler_similarity (py "VERDI") (py "VERDI") == 1 ->
  JaroWinkler_similarity (py "G.") (py "VERDI") < 6 # 10 ->
  let a := py "Giuseppe VERDI" in
  let b := py "G. Verdi" in
  (exists ab ba,
      V3.calculate_name_score UCD.latin1 JaroWinkler_similarity token_set_ratio a b
      = Some ab /\
      V3.calculate_name_score UCD.latin1 JaroWinkler_similarity token_set_ratio b a
      = Some ba /\
      ab == 197 # 2 /\ ba <= 36 /\ ~ ab == ba) /\
  (exists ab ba,
      V4.debug_name_score UCD.latin1 JaroWinkler_similarity token_set_ratio a b
      = Some ab /\
      V4.debug_name_score UCD.latin1 JaroWinkler_similarity token_set_ratio b a
      = Some ba /\
      ab == 197 # 2 /\ ba <= 36 /\ ~ ab == ba).
Proof.
  intros Hrange Hsame Hdiff a b.
  pose proof (Hrange (py "G.") (py "VERDI")) as Hgv.
  pose proof (Hrange (py "VERDI") (py "GIUSEPPE")) as Hvg.
  assert (Hab : V4.combine_scores
                  (JaroWinkler_similarity (py "VERDI") (py "VERDI") * 100) 95
                == 197 # 2) by (apply combine_scores_no_bonus; lra).
  assert (Hba : V4.combine_scores
                  (JaroWinkler_similarity (py "G.") (py "VERDI") * 100)
                  (JaroWinkler_similarity (py "VERDI") (py "GIUSEPPE") * 100)
                <= 36) by (apply combine_scores_family_mismatch; lra).
  split.
  - exists (V4.combine_scores
              (JaroWinkler_similarity (py "VERDI") (py "VERDI") * 100) 95),
           (V4.combine_scores
              (JaroWinkler_similarity (py "G.") (py "VERDI") * 100)
              (JaroWinkler_similarity (py "VERDI") (py "GIUSEPPE") * 100)).
    split; [vm_compute; reflexivity|]. split; [vm_compute; reflexivity|].
    split; [exact Hab|]. split; [exact Hba|]. lra.
  - exists (V4.combine_scores
              (JaroWinkler_similarity (py "VERDI") (py "VERDI") * 100) 95),
           (V4.combine_scores
              (JaroWinkler_similarity (py "G.") (py "VERDI") * 100)
              (JaroWinkler_similarity (py "VERDI") (py "GIUSEPPE") * 100)).
    split; [vm_compute; reflexivity|]. split; [vm_compute; reflexivity|].
    split; [exact Hab|]. split; [exact Hba|]. lra.
Qed.
End Asymmetry.

(** C4, as stated, fails: exchanging the two names changes the score from
    98.5 to 5.75, in both versions of the scorer. *)
Lemma calculate_name_score_asymmetric_example :
  option_map Qred (v3_score (py "Giuseppe VERDI") (py "G. Verdi")) = Some (197 # 2)%Q /\
  option_map Qred (v3_score (py "G. Verdi") (py "Giuseppe VERDI")) = Some (23 # 4)%Q /\
  option_map Qred (v4_score (py "Giuseppe VERDI") (py "G. Verdi")) = Some (197 # 2)%Q /\
  option_map Qred (v4_score (py "G. Verdi") (py "Giuseppe VERDI")) = Some (23 # 4)%Q /\
  ~ (197 # 2 == 23 # 4)%Q.
Proof. vm_compute. repeat split; discriminate. Qed.

(** ** The Jaro-Winkler instance stays in [0, 1] *)

Section JaroWinklerRange.
Import Rapidfuzz.

Lemma count_flags_le flags : (count_flags flags <= length flags)%nat.
Proof. induction flags as [|[] r IH]; simpl; lia. Qed.

Lemma count_flags_repeat n : count_flags (repeat false n) = 0%nat.
Proof. induction n; simpl; auto. Qed.

Lemma find_match_flags c lo hi s2 :
  forall j flags flags',
    find_match c lo hi j s2 flags = Some flags' ->
    length flags' = length flags /\ count_flags flags' = S (count_flags flags).
Proof.
  induction s2 as [|d s2' IH]; intros j flags flags'; [discriminate|].
  destruct flags as [|f r]; [discriminate|]. cbn [find_match].
  destruct ((lo <=? j)%nat && (j <=? hi)%nat && negb f && (c =? d)%N) eqn:Hhit.
  - intros [= <-]. apply andb_prop in Hhit as [Hhit _].
    apply andb_prop in Hhit as [_ Hf]. apply negb_true_iff in Hf. subst f.
    simpl. auto.
  - destruct (find_match c lo hi (S j) s2' r) as [r'|] eqn:Hr; [|discriminate].
    intros [= <-]. destruct (IH _ _ _ Hr) as [Hl Hc]. simpl. split; lia.
Qed.

Lemma scan_flags w s1 s2 :
  forall i flags f1 f2,
    scan w i s1 s2 flags = (f1, f2) ->
    length f1 = length s1 /\ length f2 = length flags /\
    count_flags f2 = (count_flags flags + count_flags f1)%nat.
Proof.
  induction s1 as [|c r IH]; intros i flags f1 f2; cbn [scan].
  - intros [= <- <-]. simpl. repeat split; lia.
  - destruct (find_match c (i - w) (i + w) 0 s2 flags) as [flags'|] eqn:Hm.
    + destruct (scan w (S i) r s2 flags') as [g1 g2] eqn:Hs. intros [= <- <-].
      destruct (IH _ _ _ _ Hs) as (H1 & H2 & H3).
      destruct (find_match_flags _ _ _ _ _ _ _ Hm) as [H4 H5].
      simpl. repeat split; lia.
    + destruct (scan w (S i) r s2 flags) as [g1 g2] eqn:Hs. intros [= <- <-].
      destruct (IH _ _ _ _ Hs) as (H1 & H2 & H3).
      simpl. repeat split; lia.
Qed.

Local Open Scope Q_scope.

Lemma Qnat_ratio a b :
  (a <= b)%nat -> (0 < b)%nat -> 0 <= Qnat a / Qnat b <= 1.
Proof.
  intros Hab Hb.
  assert (Hpos : 0 < Qnat b) by (unfold Qnat, Qlt; simpl; lia).
  split.
  - apply Qle_shift_div_l; [exact Hpos|]. unfold Qnat, Qle; simpl; lia.
  - apply Qle_shift_div_r; [exact Hpos|]. unfold Qnat, Qle; simpl; lia.
Qed.

Lemma jaro_range s1 s2 : 0 <= jaro s1 s2 <= 1.
Proof.
  unfold jaro.
  destruct ((length s1 =? 0)%nat && (length s2 =? 0)%nat); [lra|].
  destruct ((length s1 =? 0)%nat || (length s2 =? 0)%nat) eqn:Hz; [lra|].
  apply orb_false_elim in Hz as [H1 H2].
  apply Nat.eqb_neq in H1. apply Nat.eqb_neq in H2.
  destruct (scan _ 0 s1 s2 (repeat false (length s2))) as [f1 f2] eqn:Hs.
  destruct (scan_flags _ _ _ _ _ _ _ Hs) as (Hl1 & Hl2 & Hc).
  rewrite count_flags_repeat in Hc. rewrite repeat_length in Hl2.
  pose proof (count_flags_le f1) as Hf1. pose proof (count_flags_le f2) as Hf2.
  destruct (count_flags f2 =? 0)%nat eqn:Hm; [lra|].
  apply Nat.eqb_neq in Hm.
  set (m := count_flags f2) in *.
  set (t := (mismatches (flagged s1 f1) (flagged s2 f2) / 2)%nat).
  pose proof (Qnat_ratio m (length s1)) as Ha.
  pose proof (Qnat_ratio m (length s2)) as Hb.
  pose proof (Qnat_ratio (m - t) m) as Ht.
  change ((Qnat m / Qnat (length s1) + Qnat m / Qnat (length s2)
           + Qnat (m - t) / Qnat m) / 3)
    with ((Qnat m / Qnat (length s1) + Qnat m / Qnat (length s2)
           + Qnat (m - t) / Qnat m) * (1 # 3)).
  lapply Ha; [clear Ha; intros Ha | lia]. lapply Ha; [clear Ha; intros Ha | lia].
  lapply Hb; [clear Hb; intros Hb | lia]. lapply Hb; [clear Hb; intros Hb | lia].
  lapply Ht; [clear Ht; intros Ht | lia]. lapply Ht; [clear Ht; intros Ht | lia].
  lra.
Qed.

Lemma common_prefix_le limit : forall a b, (common_prefix limit a b <= limit)%nat.
Proof.
  induction limit as [|n IH]; intros [|x a] [|y b]; simpl; try lia.
  destruct (x =? y)%N; [specialize (IH a b)|]; lia.
Qed.

Lemma JaroWinkler_similarity_range s1 s2 : 0 <= JaroWinkler_similarity s1 s2 <= 1.
Proof.
  unfold JaroWinkler_similarity.
  pose proof (jaro_range s1 s2) as Hj. set (sim := jaro s1 s2) in *.
  destruct (Qltb (7 # 10) sim); [|exact Hj].
  pose proof (common_prefix_le 4 s1 s2) as Hp.
  set (p := common_prefix 4 s1 s2) in *.
  assert (Hk : 0 <= Qnat p * (1 # 10) <= 4 # 10).
  { assert (0 <= Qnat p <= 4) by (unfold Qnat, Qle; simpl; lia). lra. }
  set (k := Qnat p * (1 # 10)) in *.
  assert (H0 : 0 <= k * (1 - sim)) by (apply Qmult_le_0_compat; lra).
  assert (H1 : k * (1 - sim) <= 1 * (1 - sim))
    by (apply Qmult_le_compat_r; lra).
  lra.
Qed.

Lemma norm_distance_range dist lensum :
  (dist <= lensum)%nat -> 0 <= norm_distance dist lensum <= 100.
Proof.
  intros Hd. unfold norm_distance.
  destruct (lensum =? 0)%nat eqn:Hl; [lra|]. apply Nat.eqb_neq in Hl.
  destruct (Qnat_ratio dist lensum Hd) as [H0 H1]; [lia|].
  unfold Qdiv in *. rewrite <- Qmult_assoc.
  set (r := Qnat dist * / Qnat lensum) in *. lra.
Qed.

Lemma token_set_ratio_range s1 s2 : 0 <= token_set_ratio s1 s2 <= 100.
Proof.
  unfold token_set_ratio.
  destruct (nilb s1 || nilb s2); [lra|].
  destruct (nilb (token_set s1) || nilb (token_set s2)); [lra|].
  destruct (negb _ && _); [lra|]. cbv zeta.
  match goal with
  | |- context [norm_distance (indel_distance ?a ?b) ?l] =>
      assert (Hr : 0 <= norm_distance (indel_distance a b) l <= 100)
        by (apply norm_distance_range; unfold indel_distance; lia)
  end.
  destruct (_ =? 0)%nat; [exact Hr|].
  match goal with
  | |- context [Qmax (norm_distance ?d1 ?l1) (norm_distance ?d2 ?l2)] =>
      assert (Ha : 0 <= norm_distance d1 l1 <= 100)
        by (apply norm_distance_range; lia);
      assert (Hb : 0 <= norm_distance d2 l2 <= 100)
        by (apply norm_distance_range; lia)
  end.
  split.
  - apply (Qle_trans _ _ _ (proj1 Hr)), Q.le_max_l.
  - apply Q.max_lub; [apply Hr|]. apply Q.max_lub; [apply Ha | apply Hb].
Qed.
End JaroWinklerRange.

(** Witness of C1: the two contracts hold of the instances, and the
    theorem applies to "Maria ROSSI" against "Giuseppe Rossi". *)
Lemma calculate_name_score_optimized_range_witness :
  exists score,
    V4.calculate_name_score_optimized UCD.latin1 Rapidfuzz.JaroWinkler_similarity
      Rapidfuzz.token_set_ratio
      (registry_entry 2 "Maria ROSSI") (openalex_author "Giuseppe Rossi") = Some score
    /\ (0 <= score <= 100)%Q.
Proof.
  apply (calculate_name_score_optimized_range UCD.latin1
           Rapidfuzz.JaroWinkler_similarity Rapidfuzz.token_set_ratio
           JaroWinkler_similarity_range token_set_ratio_range).
Defined.

(** Witness of C4 as amended, with the Jaro-Winkler instance. *)
Lemma calculate_name_score_not_symmetric_witness :
  exists ab ba,
    v3_score (py "Giuseppe VERDI") (py "G. Verdi") = Some ab /\
    v3_score (py "G. Verdi") (py "Giuseppe VERDI") = Some ba /\
    ~ (ab == ba)%Q.
Proof.
  destruct (calculate_name_score_not_symmetric Rapidfuzz.JaroWinkler_similarity
              Rapidfuzz.token_set_ratio) as [(ab & ba & Hab & Hba & _ & _ & Hne) _].
  - exact JaroWinkler_similarity_range.
  - vm_compute. reflexivity.
  - vm_compute. reflexivity.
  - exists ab, ba. split; [exact Hab|]. split; [exact Hba | exact Hne].
Defined.

(** ** The resolver *)

Section ResolverFacts.
Local Open Scope Q_scope.
Context {PId AId : Type} `{Countable PId} `{Countable AId}.
Implicit Types (c : V4.candidate (PId := PId) (AId := AId)).
Implicit Types (all_matches : list (V4.candidate (PId := PId) (AId := AId))).
Implicit Types (authors_dict : gmap AId author).

Local Abbreviation pid c := (prof_id (V4.cand_prof c)).
Local Abbreviation aid c := (V4.cand_author c).

(** The committed candidates are new to both sets, are not below the
    threshold, and no two of them share a professor or an author. *)
Lemma committed_from_spec threshold all_matches :
  forall used_p used_a,
    let committed := V4.committed_from threshold all_matches used_p used_a in
    (forall c, c ∈ committed ->
               (pid c ∉ used_p) /\ (aid c ∉ used_a) /\
               threshold <= V4.cand_score c /\ c ∈ all_matches) /\
    NoDup ((fun c => pid c) <$> committed) /\
    NoDup ((fun c => aid c) <$> committed).
Proof.
  induction all_matches as [|d rest IH]; intros used_p used_a; cbn [V4.committed_from].
  - cbn. split; [intros c Hc; inversion Hc|]. split; constructor.
  - destruct (Qltb (V4.cand_score d) threshold) eqn:Hbreak.
    { cbn. split; [intros c Hc; inversion Hc|]. split; constructor. }
    apply Qltb_false in Hbreak.
    destruct (bool_decide (pid d ∉ used_p) && bool_decide (aid d ∉ used_a)) eqn:Hfree.
    + apply andb_prop in Hfree as [Hp Ha].
      apply bool_decide_eq_true in Hp. apply bool_decide_eq_true in Ha.
      destruct (IH (used_p ∪ {[pid d]}) (used_a ∪ {[aid d]})) as (Hin & Hndp & Hnda).
      cbn zeta in *. split; [|split].
      * intros c Hc. apply elem_of_cons in Hc as [->|Hc].
        -- repeat split; auto. left.
        -- destruct (Hin c Hc) as (Hcp & Hca & Hs & Hl).
           apply not_elem_of_union in Hcp as [Hcp _].
           apply not_elem_of_union in Hca as [Hca _].
           repeat split; auto. now right.
      * rewrite fmap_cons. apply NoDup_cons. split; [|exact Hndp].
        intros Hd. apply list_elem_of_fmap in Hd as (c & Heq & Hc).
        destruct (Hin c Hc) as (Hcp & _). rewrite Heq in Hcp.
        apply Hcp, elem_of_union. right. now apply elem_of_singleton.
      * rewrite fmap_cons. apply NoDup_cons. split; [|exact Hnda].
        intros Hd. apply list_elem_of_fmap in Hd as (c & Heq & Hc).
        destruct (Hin c Hc) as (_ & Hca & _). rewrite Heq in Hca.
        apply Hca, elem_of_union. right. now apply elem_of_singleton.
    + destruct (IH used_p used_a) as (Hin & Hndp & Hnda).
      cbn zeta in *. split; [|split]; auto.
      intros c Hc. destruct (Hin c Hc) as (Hcp & Hca & Hs & Hl).
      repeat split; auto. now right.
Qed.

(** The list that [resolve_matches] builds follows the committed
    candidates one by one. *)
Lemma resolve_loop_committed authors_dict threshold all_matches :
  forall st st',
    V4.resolve_loop authors_dict threshold all_matches st = Some st' ->
    exists new,
      V4.final_matches st' = V4.final_matches st ++ new /\
      Forall2 (V4.emitted_for authors_dict)
        (V4.committed_from threshold all_matches
           (V4.used_professors st) (V4.used_authors st))
        new.
Proof.
  induction all_matches as [|d rest IH]; intros st st'.
  - cbn. intros [= <-]. exists []. rewrite app_nil_r. split; [reflexivity | constructor].
  - destruct d as [[[score prof] author_id] match_type].
    cbn [V4.resolve_loop V4.committed_from].
    change (V4.cand_score (score, prof, author_id, match_type)) with score.
    change (V4.cand_prof (score, prof, author_id, match_type)) with prof.
    change (V4.cand_author (score, prof, author_id, match_type)) with author_id.
    destruct (Qltb score threshold).
    { intros [= <-]. exists []. rewrite app_nil_r. split; [reflexivity | constructor]. }
    destruct (bool_decide (prof_id prof ∉ V4.used_professors st)
              && bool_decide (author_id ∉ V4.used_authors st)).
    + destruct (authors_dict !! author_id) as [author_data|] eqn:Hget;
        [|discriminate]. cbn [mbind option_bind].
      intros Hloop. destruct (IH _ _ Hloop) as (new & Hfinal & Hnew).
      cbn [V4.final_matches V4.used_professors V4.used_authors] in Hfinal, Hnew.
      eexists (_ :: new). split.
      * rewrite Hfinal, <- app_assoc. reflexivity.
      * constructor; [|exact Hnew]. exists author_data. split; [exact Hget | reflexivity].
    + intros Hloop. exact (IH _ _ Hloop).
Qed.

Lemma resolve_matches_committed all_matches authors_dict threshold final :
  V4.resolve_matches all_matches authors_dict threshold = Some final ->
  Forall2 (V4.emitted_for authors_dict) (V4.committed all_matches threshold) final.
Proof.
  unfold V4.resolve_matches.
  destruct (V4.resolve_loop _ _ _ _) as [st'|] eqn:Hloop; [|discriminate].
  cbn. intros [= <-].
  destruct (resolve_loop_committed _ _ _ _ _ Hloop) as (new & Hfinal & Hnew).
  cbn in Hfinal. rewrite Hfinal. exact Hnew.
Qed.

Lemma emitted_author_ids authors_dict committed final :
  Forall2 (V4.emitted_for authors_dict) committed final ->
  mr_author_id <$> final = (fun c => aid c) <$> committed.
Proof.
  induction 1 as [|c m cs ms (a & _ & ->) _ IH]; [reflexivity|].
  rewrite !fmap_cons, IH. reflexivity.
Qed.

Lemma emitted_scores authors_dict threshold committed final :
  Forall2 (V4.emitted_for authors_dict) committed final ->
  (forall c, c ∈ committed -> threshold <= V4.cand_score c) ->
  Forall (fun m => threshold <= mr_score m) final.
Proof.
  induction 1 as [|c m cs ms (a & _ & ->) _ IH]; intros Hs; constructor.
  - cbn. apply Hs. left.
  - apply IH. intros c' Hc'. apply Hs. now right.
Qed.

(** [resolve_matches] returns when every author of the candidate list is
    a key of [authors_dict], as it is for the list that
    [find_best_matches_optimized] builds from the same dictionary. *)
Lemma resolve_loop_returns authors_dict threshold all_matches :
  (forall c, c ∈ all_matches -> is_Some (authors_dict !! aid c)) ->
  forall st, is_Some (V4.resolve_loop authors_dict threshold all_matches st).
Proof.
  induction all_matches as [|d rest IH]; intros Hkeys st; [cbn; eauto|].
  assert (Hrest : forall c, c ∈ rest -> is_Some (authors_dict !! aid c))
    by (intros c Hc; apply Hkeys; now right).
  destruct (Hkeys d) as [author_data Hget]; [left|].
  destruct d as [[[score prof] author_id] match_type].
  change (V4.cand_author (score, prof, author_id, match_type)) with author_id in Hget.
  cbn [V4.resolve_loop].
  destruct (Qltb score threshold); [eauto|].
  destruct (_ && _); [|apply IH, Hrest].
  rewrite Hget. cbn [mbind option_bind]. apply IH, Hrest.
Qed.

Lemma resolve_matches_returns all_matches authors_dict threshold :
  (forall c, c ∈ all_matches -> is_Some (authors_dict !! aid c)) ->
  is_Some (V4.resolve_matches all_matches authors_dict threshold).
Proof.
  intros Hkeys. unfold V4.resolve_matches.
  destruct (resolve_loop_returns authors_dict threshold all_matches Hkeys
              V4.resolver_init) as [st ->].
  cbn. eauto.
Qed.

(** C2. In the list that [resolve_matches] returns, every match comes
    from one committed candidate, in order; no two committed candidates
    have the same professor identifier (the value of [prof.get('id')]),
    and no two matches have the same author identifier. *)
Theorem resolve_matches_one_to_one all_matches authors_dict threshold final :
  V4.resolve_matches all_matches authors_dict threshold = Some final ->
  Forall2 (V4.emitted_for authors_dict) (V4.committed all_matches threshold) final /\
  NoDup ((fun c => pid c) <$> V4.committed all_matches threshold) /\
  NoDup (mr_author_id <$> final).
Proof.
  intros Hres. pose proof (resolve_matches_committed _ _ _ _ Hres) as Hem.
  destruct (committed_from_spec threshold all_matches ∅ ∅) as (_ & Hp & Ha).
  split; [exact Hem|]. split; [exact Hp|].
  rewrite (emitted_author_ids _ _ _ Hem). exact Ha.
Qed.

(** C3. Every match that [resolve_matches] returns has a score that is
    not below the threshold. *)
Theorem resolve_matches_threshold all_matches authors_dict threshold final :
  V4.resolve_matches all_matches authors_dict threshold = Some final ->
  Forall (fun m => threshold <= mr_score m) final.
Proof.
  intros Hres. pose proof (resolve_matches_committed _ _ _ _ Hres) as Hem.
  destruct (committed_from_spec threshold all_matches ∅ ∅) as (Hin & _ & _).
  cbn zeta in Hin. fold (V4.committed all_matches threshold) in Hin.
  apply (emitted_scores authors_dict threshold _ _ Hem).
  intros c Hc. apply (Hin c Hc).
Qed.
End ResolverFacts.

(** Witness of C2: the data of [match_test.py]. *)
Lemma resolve_matches_one_to_one_witness :
  exists final,
    V4.resolve_matches test_candidates test_authors 75 = Some final /\
    length final = 2%nat /\
    NoDup (mr_author_id <$> final).
Proof.
  destruct (V4.resolve_matches test_candidates test_authors 75) as [final|] eqn:Hres;
    [|vm_compute in Hres; discriminate Hres].
  exists final. split; [reflexivity|]. split.
  - vm_compute in Hres. injection Hres as <-. reflexivity.
  - apply (resolve_matches_one_to_one test_candidates test_authors 75 final Hres).
Defined.

(** Witness of C3: the same run; both matches score 98.5. *)
Lemma resolve_matches_threshold_witness :
  exists final,
    V4.resolve_matches test_candidates test_authors 75 = Some final /\
    Forall (fun m => (75 <= mr_score m)%Q) final.
Proof.
  destruct (V4.resolve_matches test_candidates test_authors 75) as [final|] eqn:Hres;
    [|vm_compute in Hres; discriminate Hres].
  exists final. split; [reflexivity|].
  apply (resolve_matches_threshold test_candidates test_authors 75 final Hres).
Defined.

(** ** Records that share the value of [prof.get('id')] *)

Section SharedIdentifier.
Local Open Scope Q_scope.
Context {PId AId : Type} `{Countable PId} `{Countable AId}.
Implicit Types (c : V4.candidate (PId := PId) (AId := AId)).
Implicit Types (pre rest all_matches : list (V4.candidate (PId := PId) (AId := AId))).
Implicit Types (authors_dict : gmap AId author).

Local Abbreviation pid c := (prof_id (V4.cand_prof c)).

Lemma NoDup_fmap_inj_on {A B} (f : A -> B) (l : list A) x y :
  NoDup (f <$> l) -> x ∈ l -> y ∈ l -> f x = f y -> x = y.
Proof.
  induction l as [|a l IH]; intros Hnd Hx Hy Hf; [inversion Hx|].
  rewrite fmap_cons in Hnd. apply NoDup_cons in Hnd as [Ha Hnd].
  apply elem_of_cons in Hx as [->|Hx]; apply elem_of_cons in Hy as [->|Hy]; auto.
  - exfalso. apply Ha. apply list_elem_of_fmap. exists y. split; auto.
  - exfalso. apply Ha. apply list_elem_of_fmap. exists x. split; auto.
Qed.

(** A candidate whose professor identifier is already in the set of used
    professors, or is put there by an earlier candidate of the list, is
    stepped over. *)
Lemma resolve_loop_skip authors_dict threshold c rest :
  threshold <= V4.cand_score c ->
  forall pre st,
    (exists c0,
        c0 ∈ V4.committed_from threshold pre (V4.used_professors st) (V4.used_authors st)
        /\ pid c0 = pid c)
    \/ pid c ∈ V4.used_professors st ->
    V4.resolve_loop authors_dict threshold (pre ++ c :: rest) st
    = V4.resolve_loop authors_dict threshold (pre ++ rest) st.
Proof.
  intros Hscore. apply Qltb_false in Hscore.
  induction pre as [|d pre IH]; intros st Hused.
  - destruct Hused as [(c0 & Hc0 & _)|Hused]; [inversion Hc0|].
    destruct c as [[[score prof] author_id] match_type]. cbn in *.
    rewrite Hscore.
    rewrite (bool_decide_eq_false_2 (prof_id prof ∉ V4.used_professors st))
      by (intros Hn; exact (Hn Hused)).
    reflexivity.
  - destruct d as [[[score prof] author_id] match_type].
    cbn [app V4.resolve_loop]. cbn [V4.committed_from] in Hused.
    change (V4.cand_score (score, prof, author_id, match_type)) with score in Hused.
    change (V4.cand_prof (score, prof, author_id, match_type)) with prof in Hused.
    change (V4.cand_author (score, prof, author_id, match_type)) with author_id in Hused.
    destruct (Qltb score threshold).
    { destruct Hused as [(c0 & Hc0 & _)|Hused]; [inversion Hc0 | reflexivity]. }
    destruct (bool_decide (prof_id prof ∉ V4.used_professors st)
              && bool_decide (author_id ∉ V4.used_authors st)).
    + destruct (authors_dict !! author_id) as [author_data|]; [|reflexivity].
      cbn [mbind option_bind]. apply IH.
      cbn [V4.used_professors V4.used_authors].
      destruct Hused as [(c0 & Hc0 & Heq)|Hused].
      * apply elem_of_cons in Hc0 as [->|Hc0].
        -- right. cbn in Heq. rewrite <- Heq.
           apply elem_of_union. right. now apply elem_of_singleton.
        -- left. exists c0. split; assumption.
      * right. apply elem_of_union. now left.
    + apply IH. exact Hused.
Qed.

(** C10. [resolve_matches] tells registry records apart by the value of
    [prof.get('id')] alone, [None] for a record without the key. Two
    committed candidates never share that value; and a candidate whose
    value was taken by an earlier committed candidate is stepped over,
    whatever its score above the threshold, its professor record and its
    author: the run returns what it would return without it. *)
Theorem shared_identifier_matched_once all_matches authors_dict threshold :
  (forall c1 c2,
      c1 ∈ V4.committed all_matches threshold ->
      c2 ∈ V4.committed all_matches threshold ->
      pid c1 = pid c2 -> c1 = c2) /\
  (forall pre c rest c0,
      all_matches = pre ++ c :: rest ->
      c0 ∈ V4.committed pre threshold ->
      pid c0 = pid c ->
      threshold <= V4.cand_score c ->
      V4.resolve_matches all_matches authors_dict threshold
      = V4.resolve_matches (pre ++ rest) authors_dict threshold).
Proof.
  split.
  - intros c1 c2 H1 H2 Heq.
    destruct (committed_from_spec threshold all_matches ∅ ∅) as (_ & Hnd & _).
    exact (NoDup_fmap_inj_on _ _ _ _ Hnd H1 H2 Heq).
  - intros pre c rest c0 -> Hc0 Heq Hscore. unfold V4.resolve_matches.
    rewrite (resolve_loop_skip authors_dict threshold c rest Hscore pre
               V4.resolver_init); [reflexivity|].
    left. exists c0. split; [exact Hc0 | exact Heq].
Qed.
End SharedIdentifier.

(** Witness of C10: two different records without ['id'], two different
    free authors, both scores above the threshold; the second record is
    left unmatched. *)
Lemma shared_identifier_matched_once_witness :
  nome_completo (anonymous_entry "Giuseppe VERDI")
  <> nome_completo (anonymous_entry "Maria ROSSI") /\
  V4.resolve_matches anonymous_candidates test_authors 75
  = V4.resolve_matches (firstn 1 anonymous_candidates) test_authors 75 /\
  option_map (fmap mr_author_id)
    (V4.resolve_matches anonymous_candidates test_authors 75) = Some ["A123"%string].
Proof.
  split; [vm_compute; discriminate|]. split; [|vm_compute; reflexivity].
  destruct (shared_identifier_matched_once anonymous_candidates test_authors 75)
    as [_ Hskip].
  apply (Hskip (firstn 1 anonymous_candidates)
               (85%Q, anonymous_entry "Maria ROSSI", "A456"%string, py "display_name")
               []
               (90%Q, anonymous_entry "Giuseppe VERDI", "A123"%string, py "display_name")).
  - reflexivity.
  - vm_compute. left.
  - reflexivity.
  - vm_compute. discriminate.
Defined.

(** ** Global sort against greedy best pick *)

(** C9. The two resolution strategies are not equivalent. Take the
    universities "Roma Tre" and "Roma Sapienza", the OpenAlex institutions
    I1 "Roma Sapienza" and I2 "Rome 3", the threshold 75 and the scores of
    [calculate_institution_score] under the two instances: 84.2 and 80.6
    for "Roma Tre", 100 and 65.8 for "Roma Sapienza".
    [greedy_institution_matching] lets "Roma Tre", the first row, take I1,
    its best, and leaves "Roma Sapienza" without a match;
    [resolve_matches], on the same scores sorted, gives I1 to "Roma
    Sapienza", the best pair overall, and I2 to "Roma Tre". *)
Theorem resolution_strategies_diverge :
  let score :=
    Univ.calculate_institution_score UCD.latin1 Rapidfuzz.JaroWinkler_similarity
      Rapidfuzz.token_set_ratio in
  let all_matches :=
    Univ.scored_pairs UCD.latin1 Rapidfuzz.JaroWinkler_similarity
      Rapidfuzz.token_set_ratio rome_miur rome_openalex 40 in
  List.map (fun c => (Qred (V4.cand_score c), nome_completo (V4.cand_prof c),
                      V4.cand_author c)) all_matches
  = [ (Qred (score (py "Roma Sapienza") (py "Roma Sapienza")),
       Some (py "Roma Sapienza"), "I1"%string);
      (Qred (score (py "Roma Tre") (py "Roma Sapienza")), Some (py "Roma Tre"), "I1"%string);
      (Qred (score (py "Roma Tre") (py "Rome 3")), Some (py "Roma Tre"), "I2"%string);
      (Qred (score (py "Roma Sapienza") (py "Rome 3")),
       Some (py "Roma Sapienza"), "I2"%string) ] /\
  exists greedy global,
    Univ.greedy_institution_matching UCD.latin1 Rapidfuzz.JaroWinkler_similarity
      Rapidfuzz.token_set_ratio rome_miur rome_openalex 75 = Some greedy /\
    V4.resolve_matches all_matches (Univ.authors_dict_of rome_openalex) 75 = Some global /\
    List.map (fun m => (Univ.nome_operativo_miur m, Univ.id_openalex m)) greedy
    = [(py "Roma Tre", "I1"%string)] /\
    List.map (fun m => (mr_nome_completo_rubrica m, mr_author_id m)) global
    = [(Some (py "Roma Sapienza"), "I1"%string); (Some (py "Roma Tre"), "I2"%string)] /\
    List.map Univ.id_openalex
      (List.filter (fun m => str_eqb (Univ.nome_operativo_miur m) (py "Roma Tre")) greedy)
    <> List.map mr_author_id
         (List.filter
            (fun m => bool_decide (mr_nome_completo_rubrica m = Some (py "Roma Tre")))
            global).
Proof.
  intros score all_matches. split; [vm_compute; reflexivity|].
  destruct (Univ.greedy_institution_matching UCD.latin1 Rapidfuzz.JaroWinkler_similarity
              Rapidfuzz.token_set_ratio rome_miur rome_openalex 75)
    as [greedy|] eqn:Hgreedy; [|vm_compute in Hgreedy; discriminate Hgreedy].
  destruct (V4.resolve_matches all_matches (Univ.authors_dict_of rome_openalex) 75)
    as [global|] eqn:Hglobal; [|vm_compute in Hglobal; discriminate Hglobal].
  exists greedy, global. split; [reflexivity|]. split; [reflexivity|].
  vm_compute in Hgreedy. injection Hgreedy as <-.
  vm_compute in Hglobal. injection Hglobal as <-.
  split; [vm_compute; reflexivity|]. split; [vm_compute; reflexivity|].
  vm_compute. discriminate.
Qed.

(* ===================================================================== *)
(** * Part III. Further properties of the matching modules               *)
(* ===================================================================== *)

(** ** Tokens *)

Lemma split_cons c r :
  split (c :: r) =
  if isspace c then split r
  else match r with
       | [] => [[c]]
       | d :: _ =>
           if isspace d then [c] :: split r
           else match split r with
                | t :: ts => (c :: t) :: ts
                | [] => [[c]]
                end
       end.
Proof. reflexivity. Qed.

Arguments split : simpl never.

Lemma is_token_cons c t : isspace c = false -> is_token t -> is_token (c :: t).
Proof.
  intros Hc [_ Ht]. split; [discriminate|]. cbn. rewrite Hc, Ht. reflexivity.
Qed.

Lemma is_token_single c : isspace c = false -> is_token [c].
Proof. intros Hc. split; [discriminate|]. cbn. rewrite Hc. reflexivity. Qed.

(** What [s.split()] returns are tokens. *)
Lemma split_tokens s : Forall is_token (split s).
Proof.
  induction s as [|c r IH]; [constructor|]. rewrite split_cons.
  destruct (isspace c) eqn:Hc; [exact IH|].
  destruct r as [|d r']; [repeat constructor; now apply is_token_single|].
  destruct (isspace d) eqn:Hd.
  - constructor; [now apply is_token_single | exact IH].
  - destruct (split (d :: r')) as [|t ts].
    + repeat constructor; now apply is_token_single.
    + inversion IH; subst. constructor; [now apply is_token_cons | assumption].
Qed.

Lemma split_nonspace c r : isspace c = false -> split (c :: r) <> [].
Proof.
  intros Hc. rewrite split_cons, Hc. destruct r as [|d r']; [discriminate|].
  destruct (isspace d); [discriminate|]. destruct (split (d :: r')); discriminate.
Qed.

Lemma join_cons_cons c t ts :
  join [space] ((c :: t) :: ts) = c :: join [space] (t :: ts).
Proof. cbn. destruct ts; reflexivity. Qed.

(** On a tidy string, joining the tokens gives the string back. *)
Lemma join_split_tidy_from s :
  forall prev, tidy_from prev s = true -> join [space] (split s) = lstrip s.
Proof.
  induction s as [|c r IH]; intros prev Ht; [reflexivity|].
  rewrite split_cons. cbn [tidy_from lstrip] in *.
  destruct (isspace c) eqn:Hc.
  - apply andb_prop in Ht as [_ Ht]. exact (IH true Ht).
  - specialize (IH false Ht). destruct r as [|d r']; [reflexivity|].
    cbn [tidy_from lstrip] in *. destruct (isspace d) eqn:Hd.
    + apply andb_prop in Ht as [Hd' Ht]. apply andb_prop in Hd' as [_ Hd'].
      apply N.eqb_eq in Hd'. subst d.
      rewrite split_cons, Hd in IH |- *.
      rewrite (lstrip_tidy _ Ht) in IH.
      destruct r' as [|e r'']; [discriminate Ht|].
      assert (He : isspace e = false).
      { cbn in Ht. destruct (isspace e); [discriminate | reflexivity]. }
      pose proof (split_nonspace e r'' He) as Hne.
      destruct (split (e :: r'')) as [|t ts]; [congruence|].
      assert (E : join [space] ([c] :: t :: ts) = c :: space :: join [space] (t :: ts))
        by reflexivity.
      rewrite E. exact (f_equal (fun x => c :: space :: x) IH).
    + pose proof (split_nonspace d r' Hd) as Hne.
      destruct (split (d :: r')) as [|t ts]; [congruence|].
      rewrite join_cons_cons. exact (f_equal (cons c) IH).
Qed.

Lemma join_split_tidy s : tidy s = true -> join [space] (split s) = s.
Proof.
  destruct s as [|c r]; [reflexivity|]. unfold tidy. intros Ht.
  rewrite (join_split_tidy_from _ true Ht). apply lstrip_tidy, Ht.
Qed.

Lemma split_token_app t :
  is_token t ->
  forall rest, (rest = [] \/ exists r, rest = space :: r) ->
  split (t ++ rest) = t :: split rest.
Proof.
  intros [Hne Hws]. induction t as [|c t' IH]; [congruence|]. intros rest Hrest.
  cbn in Hws. apply andb_prop in Hws as [Hc Hws]. apply negb_true_iff in Hc.
  cbn [app]. rewrite split_cons, Hc.
  destruct t' as [|d t''].
  - cbn [app]. destruct Hrest as [->|[r ->]]; [reflexivity|].
    replace (isspace space) with true by reflexivity. reflexivity.
  - cbn [app]. assert (Hd : isspace d = false).
    { cbn in Hws. apply andb_prop in Hws as [Hd _]. now apply negb_true_iff in Hd. }
    rewrite Hd. cbn [app] in IH. rewrite (IH ltac:(discriminate) Hws rest Hrest).
    reflexivity.
Qed.

(** Splitting the tokens joined by single spaces gives the tokens back. *)
Lemma split_join tokens :
  Forall is_token tokens -> split (join [space] tokens) = tokens.
Proof.
  induction 1 as [|t ts Ht _ IH]; [reflexivity|].
  cbn [join]. destruct ts as [|u ts'].
  - rewrite <- (app_nil_r t) at 1. rewrite (split_token_app t Ht); [reflexivity | now left].
  - rewrite (split_token_app t Ht); [|right; eexists; reflexivity].
    cbn [app]. rewrite split_cons. replace (isspace space) with true by reflexivity.
    rewrite IH. reflexivity.
Qed.

Lemma tidy_from_token_app t :
  is_token t -> forall prev rest, tidy_from prev (t ++ rest) = tidy_from false rest.
Proof.
  intros [Hne Hws]. induction t as [|c t' IH]; [congruence|]. intros prev rest.
  cbn in Hws. apply andb_prop in Hws as [Hc Hws]. apply negb_true_iff in Hc.
  cbn [app tidy_from]. rewrite Hc. destruct t' as [|d t'']; [reflexivity|].
  apply IH; [discriminate | exact Hws].
Qed.

Lemma tidy_join tokens : Forall is_token tokens -> tidy (join [space] tokens) = true.
Proof.
  intros Hts.
  assert (Hfrom : tokens <> [] -> forall prev, tidy_from prev (join [space] tokens) = true).
  { induction Hts as [|t ts Ht Hts IH]; [congruence|]. intros _ prev.
    cbn [join]. destruct ts as [|u ts'].
    - rewrite <- (app_nil_r t). rewrite (tidy_from_token_app t Ht). reflexivity.
    - rewrite (tidy_from_token_app t Ht). cbn [app tidy_from].
      replace (isspace space) with true by reflexivity. cbn.
      apply IH. discriminate. }
  destruct tokens as [|t ts]; [reflexivity|].
  unfold tidy. destruct (join [space] (t :: ts)) eqn:E; [reflexivity|].
  apply Hfrom. discriminate.
Qed.

(** ** Initials *)

Lemma ascii_letter_not_space c : ascii_letter c = true -> isspace c = false.
Proof.
  intros Hl. unfold ascii_letter in Hl.
  assert (Hr : (65 <= c <= 122)%N).
  { destruct (N.leb_spec 65 c), (N.leb_spec c 90), (N.leb_spec 97 c),
      (N.leb_spec c 122); cbn in Hl; try discriminate; lia. }
  unfold isspace.
  repeat match goal with
         | |- context [(?a <=? ?b)%N] => destruct (N.leb_spec a b); try lia
         | |- context [(?a =? ?b)%N] => destruct (N.eqb_spec a b); try lia
         end;
    try reflexivity.
Qed.

Lemma ascii_letter_not_dot c : ascii_letter c = true -> (c =? dot)%N = false.
Proof.
  intros Hl. apply N.eqb_neq. intros ->. discriminate Hl.
Qed.

Lemma initials_tail_render groups :
  Forall (fun g => ascii_letter (fst g) = true) groups ->
  forall after_letter, initials_tail after_letter (render_initials groups) = true.
Proof.
  induction 1 as [|[c d] gs Hc _ IH]; intros b; [reflexivity|].
  cbn in Hc. unfold render_initials. cbn [flat_map fst snd].
  fold (render_initials gs). destruct d; cbn [app initials_tail]; rewrite Hc.
  - replace (ascii_letter dot) with false by reflexivity.
    rewrite N.eqb_refl. apply IH.
  - apply IH.
Qed.

Lemma initials_tail_groups s :
  forall after_letter,
    initials_tail after_letter s = true ->
    exists groups,
      Forall (fun g => ascii_letter (fst g) = true) groups /\
      (s = render_initials groups \/
       (after_letter = true /\ s = dot :: render_initials groups)).
Proof.
  induction s as [|c r IH]; intros b Ht.
  - exists []. split; [constructor | now left].
  - cbn [initials_tail] in Ht. destruct (ascii_letter c) eqn:Hc.
    + destruct (IH true Ht) as (gs & Hgs & [->|[_ ->]]).
      * exists ((c, false) :: gs). split; [constructor; assumption | now left].
      * exists ((c, true) :: gs). split; [constructor; assumption | now left].
    + destruct (c =? dot)%N eqn:Hd; [|discriminate]. apply N.eqb_eq in Hd. subst c.
      apply andb_prop in Ht as [-> Ht].
      destruct (IH false Ht) as (gs & Hgs & [->|[Hb _]]); [|discriminate].
      exists gs. split; [assumption | right; now split].
Qed.

Lemma render_initials_letters groups :
  Forall (fun g => ascii_letter (fst g) = true) groups ->
  length (List.filter (fun c => negb (c =? dot)%N) (render_initials groups))
  = length groups.
Proof.
  induction 1 as [|[c d] gs Hc _ IH]; [reflexivity|].
  cbn in Hc. unfold render_initials. cbn [flat_map fst snd].
  fold (render_initials gs). pose proof (ascii_letter_not_dot c Hc) as Hnd.
  destruct d; cbn [app List.filter]; rewrite Hnd; cbn [negb length];
    rewrite ?N.eqb_refl; cbn [negb]; rewrite IH; reflexivity.
Qed.

(** X1. [is_initial] accepts a name exactly when the name, stripped, is
    made of one to three ASCII letters, each with or without a dot after
    it. *)
Theorem is_initial_groups name :
  is_initial name = true <->
  exists groups,
    (1 <= length groups <= 3)%nat /\
    Forall (fun g => ascii_letter (fst g) = true) groups /\
    strip name = render_initials groups.
Proof.
  unfold is_initial, re_match_initials. split.
  - intros Hi. apply andb_prop in Hi as [Hm Hlen]. apply andb_prop in Hm as [Hne Hm].
    destruct (initials_tail_groups _ _ Hm) as (gs & Hgs & [E|[Hb _]]); [|discriminate].
    exists gs. rewrite E in Hlen, Hne. rewrite (render_initials_letters _ Hgs) in Hlen.
    apply Nat.leb_le in Hlen. split; [|split; assumption].
    split; [|exact Hlen]. destruct gs; [discriminate Hne | cbn; lia].
  - intros (gs & [Hlo Hhi] & Hgs & E). rewrite E.
    rewrite (initials_tail_render _ Hgs), (render_initials_letters _ Hgs).
    destruct gs as [|[c d] gs']; [cbn in Hlo; lia|].
    replace (nilb (render_initials ((c, d) :: gs'))) with false
      by (unfold render_initials; cbn; destruct d; reflexivity).
    cbn [negb andb]. apply Nat.leb_le. exact Hhi.
Qed.

Lemma filter_letter_lstrip s :
  List.filter ascii_letter (lstrip s) = List.filter ascii_letter s.
Proof.
  induction s as [|c r IH]; [reflexivity|]. cbn [lstrip].
  destruct (isspace c) eqn:Hc; [|reflexivity]. cbn [List.filter].
  destruct (ascii_letter c) eqn:Hl; [|exact IH].
  rewrite (ascii_letter_not_space _ Hl) in Hc. discriminate.
Qed.

Lemma is_initial_first_letter name :
  is_initial name = true ->
  exists c r, strip name = c :: r /\ ascii_letter c = true /\
              extract_initial name = Some [c].
Proof.
  intros Hi. unfold is_initial in Hi. apply andb_prop in Hi as [Hm _].
  destruct (initials_first_letter _ Hm) as (c & r & Es & Hc).
  exists c, r. split; [exact Es|]. split; [exact Hc|].
  unfold strip in Es.
  destruct (lstrip name) as [|c' r'] eqn:El; [discriminate Es|].
  destruct (rstrip_head c' r') as [r'' Hr]; [congruence|].
  rewrite Es in Hr. injection Hr as <- _.
  unfold extract_initial. destruct name as [|d name']; [discriminate El|]. cbn [nilb].
  rewrite <- filter_letter_lstrip, El. cbn [List.filter]. rewrite Hc. reflexivity.
Qed.

(** X2. [extract_initial] raises [IndexError] exactly on a name that is
    not empty and has no ASCII letter; on a name that [is_initial] accepts
    it returns the first character of the stripped name, a letter. *)
Theorem extract_initial_spec name :
  (extract_initial name = None <->
   name <> [] /\ Forall (fun c => ascii_letter c = false) name) /\
  (is_initial name = true ->
   exists c r, strip name = c :: r /\ ascii_letter c = true /\
               extract_initial name = Some [c]).
Proof.
  split.
  - unfold extract_initial. destruct name as [|d name']; cbn [nilb].
    + split; [discriminate | intros [Hne _]; congruence].
    + split.
      * destruct (List.filter ascii_letter (d :: name')) as [|e l] eqn:Hf; [|discriminate].
        intros _. split; [discriminate|]. apply List.Forall_forall. intros c Hc.
        destruct (ascii_letter c) eqn:Hl; [|reflexivity].
        assert (Hin : In c (List.filter ascii_letter (d :: name')))
          by (apply filter_In; auto).
        rewrite Hf in Hin. destruct Hin.
      * intros [_ Hall].
        assert (Hf : List.filter ascii_letter (d :: name') = []).
        { apply filter_nil_existsb. apply not_true_is_false. intros He.
          apply existsb_exists in He as (c & Hc & Hl).
          rewrite List.Forall_forall in Hall. rewrite (Hall c Hc) in Hl. discriminate. }
        rewrite Hf. reflexivity.
  - apply is_initial_first_letter.
Qed.

(** X3. [parse_author_name] of [matching_functionsV4.py] never raises.
    With two tokens the family name is the second token, a string; the
    token list comes back as family name exactly for one token and for
    three to six tokens; otherwise both parts are strings. *)
Theorem parse_author_name_shape author_tokens :
  exists nome family,
    V4.parse_author_name author_tokens = Some (nome, family) /\
    (forall t0 t1, author_tokens = [t0; t1] ->
                   family = CognomeStr t1 /\
                   (is_initial t0 = false -> nome = t0) /\
                   (is_initial t0 = true -> extract_initial t0 = Some nome)) /\
    (length author_tokens = 1%nat \/ (3 <= length author_tokens <= 6)%nat ->
     nome = [] /\ family = CognomeList author_tokens) /\
    (length author_tokens = 0%nat \/ (6 < length author_tokens)%nat ->
     nome = [] /\ family = CognomeStr []).
Proof.
  unfold V4.parse_author_name.
  destruct author_tokens as [|t0 [|t1 [|t2 rest]]].
  - exists [], (CognomeStr []). split; [reflexivity|].
    split; [intros ? ? [=]|]. split; [cbn; lia | auto].
  - exists [], (CognomeList [t0]). split; [reflexivity|].
    split; [intros ? ? [=]|]. split; [auto | cbn; lia].
  - destruct (is_initial t0) eqn:Hi.
    + destruct (is_initial_extract _ Hi) as [c Hc]. rewrite Hc. cbn.
      exists [c], (CognomeStr t1). split; [reflexivity|].
      split; [|split; cbn; lia].
      intros ? ? [= <- <-]. split; [reflexivity|]. split; [congruence | auto].
    + exists t0, (CognomeStr t1). split; [reflexivity|].
      split; [|split; cbn; lia].
      intros ? ? [= <- <-]. split; [reflexivity|]. split; [auto | congruence].
  - destruct (6 <? length (t0 :: t1 :: t2 :: rest))%nat eqn:Hlen.
    + apply Nat.ltb_lt in Hlen.
      exists [], (CognomeStr []). split; [reflexivity|].
      split; [intros ? ? [=]|]. split; [lia | auto].
    + apply Nat.ltb_ge in Hlen.
      exists [], (CognomeList (t0 :: t1 :: t2 :: rest)). split; [reflexivity|].
      split; [intros ? ? [=]|]. split; [auto | cbn in *; lia].
Qed.

(** ** The normalisers without decomposition *)

Lemma tidy_from_spaces s :
  forall prev, tidy_from prev s = true ->
               Forall (fun c => isspace c = true -> c = space) s.
Proof.
  induction s as [|c r IH]; intros prev Ht; [constructor|].
  cbn [tidy_from] in Ht. destruct (isspace c) eqn:Hc.
  - apply andb_prop in Ht as [Hc' Ht]. apply andb_prop in Hc' as [_ Hc'].
    apply N.eqb_eq in Hc'. constructor; [auto | exact (IH _ Ht)].
  - constructor; [congruence | exact (IH _ Ht)].
Qed.

Lemma tidy_spaces s : tidy s = true -> Forall (fun c => isspace c = true -> c = space) s.
Proof.
  destruct s as [|c r]; [constructor|]. unfold tidy. apply tidy_from_spaces.
Qed.

Lemma normalize_v3_fixed r :
  Forall (fun c => is_dash c = false /\ is_quote c = false) r -> tidy r = true ->
  V3.normalize_name r = r.
Proof.
  intros Hr Ht. unfold V3.normalize_name. destruct r as [|c0 r0] eqn:Er; [reflexivity|].
  cbn [nilb]. rewrite <- Er in *.
  rewrite (re_sub_class_none is_dash hyphen r)
    by (eapply List.Forall_impl; [|exact Hr]; intros c Hc; apply Hc).
  rewrite (re_sub_class_none is_quote apostrophe r)
    by (eapply List.Forall_impl; [|exact Hr]; intros c Hc; apply Hc).
  apply tidy_fixed, Ht.
Qed.

Lemma normalize_v3_output s :
  tidy (V3.normalize_name s) = true /\
  Forall (fun c => is_dash c = false /\ is_quote c = false) (V3.normalize_name s).
Proof.
  unfold V3.normalize_name. destruct (nilb s); [split; [reflexivity | constructor]|].
  split; [apply strip_re_sub_spaces_tidy|].
  apply List.Forall_forall. intros x Hx.
  apply In_re_sub_spaces in Hx as [->|Hx]; [split; reflexivity|].
  apply In_rstrip, In_lstrip in Hx.
  apply In_re_sub_class in Hx as [->|[Hx Hquote]]; [split; reflexivity|].
  apply In_re_sub_class in Hx as [->|[Hx Hdash]]; [split; reflexivity|].
  split; assumption.
Qed.

(** X4. [normalize_name] of [matching_functionsV3.py], which is also the
    text of [normalize_institution_name], is idempotent on every string:
    without the decomposition step nothing can reorder. Its result has no
    whitespace at the ends, only single spaces inside, and none of the
    dashes and accents that it replaces. *)
Theorem normalize_name_v3_idempotent s :
  V3.normalize_name (V3.normalize_name s) = V3.normalize_name s /\
  Univ.normalize_institution_name s = V3.normalize_name s /\
  tidy (V3.normalize_name s) = true /\
  Forall (fun c => is_dash c = false /\ is_quote c = false) (V3.normalize_name s).
Proof.
  destruct (normalize_v3_output s) as [Ht Hc].
  split; [apply normalize_v3_fixed; assumption|].
  split; [reflexivity|]. split; assumption.
Qed.

Lemma normalize_name_tidy U s : tidy (V4.normalize_name U s) = true.
Proof.
  unfold V4.normalize_name. destruct (nilb s); [reflexivity|].
  apply strip_re_sub_spaces_tidy.
Qed.

(** X5. Whatever the Unicode database, the result of [normalize_name] of
    [matching_functionsV4.py] has no whitespace at the ends, its only
    whitespace characters are single spaces, it holds none of the dashes,
    accents, commas and semicolons that the function replaces, and its
    tokens joined by one space give it back: it is [' '.join(s.split())]
    of itself. *)
Theorem normalize_name_shape U s :
  let n := V4.normalize_name U s in
  tidy n = true /\
  Forall (fun c => is_dash c = false /\ is_quote c = false /\ is_comma c = false /\
                   (isspace c = true -> c = space)) n /\
  join [space] (split n) = n.
Proof.
  intros n.
  assert (Ht : tidy n = true) by apply normalize_name_tidy.
  split; [exact Ht|]. split; [|apply join_split_tidy, Ht].
  pose proof (tidy_spaces n Ht) as Hsp. rewrite List.Forall_forall in Hsp.
  apply List.Forall_forall. intros x Hx.
  assert (Hcls : is_dash x = false /\ is_quote x = false /\ is_comma x = false).
  { unfold n, V4.normalize_name in Hx. destruct (nilb s); [destruct Hx|].
    apply In_re_sub_spaces in Hx as [->|Hx]; [repeat split|].
    apply In_rstrip, In_lstrip in Hx.
    apply In_re_sub_class in Hx as [->|[Hx Hcomma]]; [repeat split|].
    apply In_re_sub_class in Hx as [->|[Hx Hquote]]; [repeat split|].
    apply In_re_sub_class in Hx as [->|[Hx Hdash]]; [repeat split|].
    repeat split; assumption. }
  destruct Hcls as (Hd & Hq & Hc). repeat split; auto.
Qed.

(** ** Preprocessing and cleanup *)

(** X6. After [preprocess_professor_data] a record holds the normalised
    name, its tokens and the original name; the tokens are those of the
    normalised name, none is empty or holds whitespace, and joined by one
    space they give the normalised name back. The identifier and the name
    are untouched. A record without a name gets three empty fields. *)
Theorem preprocess_professor_fields U {PId} (prof : professor PId) :
  let prof' := V4.preprocess_professor U prof in
  let name := default [] (nome_completo prof) in
  prof_id prof' = prof_id prof /\
  nome_completo prof' = nome_completo prof /\
  nome_completo_original prof' = Some name /\
  nome_completo_normalized prof' = Some (V4.normalize_name U name) /\
  exists tokens,
    nome_completo_tokens prof' = Some tokens /\
    tokens = split (V4.normalize_name U name) /\
    Forall is_token tokens /\
    join [space] tokens = V4.normalize_name U name.
Proof.
  intros prof' name. unfold prof', V4.preprocess_professor. fold name.
  destruct name as [|c r] eqn:En; cbn [nilb].
  - repeat split; try reflexivity. exists []. repeat split; constructor.
  - cbn [prof_id nome_completo nome_completo_original nome_completo_normalized
           nome_completo_tokens].
    repeat split; try reflexivity.
    exists (split (V4.normalize_name U (c :: r))).
    split; [reflexivity|]. split; [reflexivity|]. split; [apply split_tokens|].
    apply join_split_tidy, normalize_name_tidy.
Qed.

(** X7. [cleanup_preprocessed_data] undoes preprocessing: on a record
    without the derived keys, preprocessing and then cleaning gives the
    record back; and preprocessing twice is preprocessing once. The same
    holds of authors. *)
Theorem cleanup_preprocess_round_trip U {PId} (prof : professor PId)
        (author_data : author) :
  V4.cleanup_professor (V4.preprocess_professor U prof) = V4.cleanup_professor prof /\
  (V4.cleanup_professor prof = prof ->
   V4.cleanup_professor (V4.preprocess_professor U prof) = prof) /\
  V4.preprocess_professor U (V4.preprocess_professor U prof)
  = V4.preprocess_professor U prof /\
  V4.cleanup_author (V4.preprocess_author U author_data) = V4.cleanup_author author_data /\
  (V4.cleanup_author author_data = author_data ->
   V4.cleanup_author (V4.preprocess_author U author_data) = author_data) /\
  V4.preprocess_author U (V4.preprocess_author U author_data)
  = V4.preprocess_author U author_data.
Proof.
  assert (Hp : V4.cleanup_professor (V4.preprocess_professor U prof)
               = V4.cleanup_professor prof).
  { unfold V4.preprocess_professor. destruct (nilb _); reflexivity. }
  assert (Ha : V4.cleanup_author (V4.preprocess_author U author_data)
               = V4.cleanup_author author_data).
  { unfold V4.preprocess_author. destruct (nilb _); reflexivity. }
  split; [exact Hp|]. split; [intros E; rewrite Hp; exact E|].
  split.
  { unfold V4.preprocess_professor at 1 3.
    replace (nome_completo (V4.preprocess_professor U prof)) with (nome_completo prof)
      by (unfold V4.preprocess_professor; destruct (nilb _); reflexivity).
    replace (prof_id (V4.preprocess_professor U prof)) with (prof_id prof)
      by (unfold V4.preprocess_professor; destruct (nilb _); reflexivity).
    reflexivity. }
  split; [exact Ha|]. split; [intros E; rewrite Ha; exact E|].
  unfold V4.preprocess_author at 1 3.
  replace (display_name (V4.preprocess_author U author_data))
    with (display_name author_data)
    by (unfold V4.preprocess_author; destruct (nilb _); reflexivity).
  replace (orcid (V4.preprocess_author U author_data)) with (orcid author_data)
    by (unfold V4.preprocess_author; destruct (nilb _); reflexivity).
  reflexivity.
Qed.

(** ** The scorer of [matching_functionsV3.py] *)

Section ScorerV3.
Local Open Scope Q_scope.
Variable U : UnicodeData.
Variable JaroWinkler_similarity : str -> str -> Q.
Variable token_set_ratio : str -> str -> Q.
Hypothesis JaroWinkler_range : forall a b, 0 <= JaroWinkler_similarity a b <= 1.
Hypothesis token_set_ratio_range : forall a b, 0 <= token_set_ratio a b <= 100.

Lemma first_name_score_v3_range prof_nome author_first :
  exists q,
    V3.calculate_first_name_score U JaroWinkler_similarity prof_nome author_first
    = Some q /\ 0 <= q <= 100.
Proof.
  unfold V3.calculate_first_name_score.
  set (p := strip prof_nome). set (a := strip author_first).
  destruct (is_initial a) eqn:Ha.
  - destruct (is_initial_extract _ Ha) as [c ->]. cbn.
    destruct (V3.first_letter_is U p [c]); eexists; (split; [reflexivity | lra]).
  - destruct (is_initial p) eqn:Hp.
    + destruct (is_initial_extract _ Hp) as [c ->]. cbn.
      destruct (V3.first_letter_is U a [c]); eexists; (split; [reflexivity | lra]).
    + match goal with |- context [JaroWinkler_similarity ?x ?y] =>
        pose proof (JaroWinkler_range x y) as Hj end.
      destruct (V3.check_common_abbreviations U p a); eexists; (split; [reflexivity|]).
      * apply Qmin_100_range. lra.
      * lra.
Qed.

Lemma bonus_v3_nonneg prof_tokens author_tokens :
  forall acc, 0 <= acc ->
    exists b, V3.bonus_outer U prof_tokens author_tokens acc = Some b /\ 0 <= b.
Proof.
  assert (Hone : forall p a, exists b, V3.initial_bonus_of U p a = Some b /\ 0 <= b).
  { intros p a. unfold V3.initial_bonus_of.
    destruct (is_initial a) eqn:Ha.
    - destruct (is_initial_extract _ Ha) as [c ->]. cbn.
      destruct (startswith _ _); eexists; (split; [reflexivity | lra]).
    - destruct (is_initial p) eqn:Hp.
      + destruct (is_initial_extract _ Hp) as [c ->]. cbn.
        destruct (startswith _ _); eexists; (split; [reflexivity | lra]).
      + eexists; split; [reflexivity | lra]. }
  assert (Hin : forall p ats acc, 0 <= acc ->
                  exists b, V3.bonus_inner U p ats acc = Some b /\ 0 <= b).
  { intros p ats. induction ats as [|t rest IH]; intros acc Hacc; cbn; [eauto|].
    destruct (Hone p t) as (b & -> & Hb). cbn. apply IH. lra. }
  induction prof_tokens as [|t rest IH]; intros acc Hacc; cbn; [eauto|].
  destruct (Hin t author_tokens acc Hacc) as (b & -> & Hb). cbn. apply IH, Hb.
Qed.

(** X8. [calculate_name_score] of [matching_functionsV3.py] returns, for
    every pair of raw names, a score in [0, 100]: it raises on no input,
    although its [parse_author_name] reads [author_tokens[0]] unguarded. *)
Theorem calculate_name_score_range prof_name author_name :
  exists score,
    V3.calculate_name_score U JaroWinkler_similarity token_set_ratio
      prof_name author_name = Some score
    /\ 0 <= score <= 100.
Proof.
  unfold V3.calculate_name_score.
  destruct (nilb _ || nilb _); [eexists; split; [reflexivity | lra]|].
  destruct ((length (split (V3.normalize_name prof_name)) <? 2)%nat
            || (length (split (V3.normalize_name author_name)) <? 2)%nat) eqn:Hlen.
  { eexists; split; [reflexivity|].
    match goal with |- 0 <= JaroWinkler_similarity ?x ?y * _ <= _ =>
      pose proof (JaroWinkler_range x y) end.
    lra. }
  apply orb_false_elim in Hlen as [_ Hlen]. apply Nat.ltb_ge in Hlen.
  destruct (V3.parse_professor_name U _) as [prof_nome prof_cognome].
  set (author_tokens := split (V3.normalize_name author_name)) in *.
  assert (Hparse : exists parsed, V3.parse_author_name author_tokens = Some parsed).
  { unfold V3.parse_author_name.
    destruct author_tokens as [|t0 [|t1 [|t2 rest]]]; try (cbn in Hlen; lia).
    - destruct (is_initial t0) eqn:Hi; [|eauto].
      destruct (is_initial_extract _ Hi) as [c ->]. cbn. eauto.
    - destruct (6 <? _)%nat; eauto. }
  destruct Hparse as ([author_nome [author_cognome|tokens]] & ->); cbn.
  - destruct (first_name_score_v3_range prof_nome author_nome) as (ns & -> & Hns). cbn.
    eexists; split; [reflexivity|].
    apply (combine_scores_range); [|exact Hns].
    match goal with |- 0 <= JaroWinkler_similarity ?x ?y * _ <= _ =>
      pose proof (JaroWinkler_range x y) end.
    lra.
  - unfold V3.calculate_token_set_score.
    destruct (bonus_v3_nonneg (split (V3.normalize_name prof_name)) author_tokens 0)
      as (b & -> & Hb); [lra|].
    cbn. eexists; split; [reflexivity|].
    apply Qmin_100_range.
    match goal with |- 0 <= token_set_ratio ?x ?y + _ =>
      pose proof (token_set_ratio_range x y) end.
    lra.
Qed.
End ScorerV3.

(** Witness of X8. *)
Lemma calculate_name_score_range_witness :
  exists score,
    v3_score (py "Maria ROSSI") (py "Maria Grazia Rossi") = Some score
    /\ (0 <= score <= 100)%Q.
Proof.
  apply (calculate_name_score_range UCD.latin1 Rapidfuzz.JaroWinkler_similarity
           Rapidfuzz.token_set_ratio JaroWinkler_similarity_range token_set_ratio_range).
Defined.

(** ** What the weights imply *)

Section Weights.
Local Open Scope Q_scope.

End Weights.


(** ** Candidates given by an initial *)

Section InitialCandidate.
Local Open Scope Q_scope.
Variable U : UnicodeData.
Variable JaroWinkler_similarity : str -> str -> Q.
Variable token_set_ratio : str -> str -> Q.
Hypothesis JaroWinkler_range : forall a b, 0 <= JaroWinkler_similarity a b <= 1.

Lemma strip_letter c : ascii_letter c = true -> strip [c] = [c].
Proof.
  intros Hc. pose proof (ascii_letter_not_space c Hc) as Hs.
  unfold strip. cbn [lstrip]. rewrite Hs. rewrite rstrip_cons, Hs. reflexivity.
Qed.

Lemma is_initial_letter c : ascii_letter c = true -> is_initial [c] = true.
Proof.
  intros Hc. unfold is_initial. rewrite (strip_letter c Hc).
  unfold re_match_initials. cbn. rewrite Hc, (ascii_letter_not_dot c Hc). reflexivity.
Qed.

End InitialCandidate.


(** ** Candidate generation *)

Section GeneratorFacts.
Local Open Scope Q_scope.
Variable U : UnicodeData.
Variable JaroWinkler_similarity : str -> str -> Q.
Variable token_set_ratio : str -> str -> Q.

Lemma first_name_score_returns prof_nome author_first :
  is_Some (V4.calculate_first_name_score_optimized U JaroWinkler_similarity
             prof_nome author_first).
Proof.
  unfold V4.calculate_first_name_score_optimized.
  set (p := if nilb prof_nome then [] else strip prof_nome).
  set (a := if nilb author_first then [] else strip author_first).
  destruct (is_initial a) eqn:Ha.
  - destruct (is_initial_extract _ Ha) as [c ->]. cbn. eauto.
  - destruct (is_initial p) eqn:Hp; [|eauto].
    destruct (is_initial_extract _ Hp) as [c ->]. cbn. eauto.
Qed.

Lemma token_set_score_returns prof_tokens author_tokens :
  is_Some (V4.calculate_token_set_score_optimized U token_set_ratio
             prof_tokens author_tokens).
Proof.
  unfold V4.calculate_token_set_score_optimized.
  assert (Hone : forall p a, is_Some (V4.initial_bonus_of U p a)).
  { intros p a. unfold V4.initial_bonus_of.
    destruct (is_initial a) eqn:Ha.
    - destruct (is_initial_extract _ Ha) as [c ->]. cbn. eauto.
    - destruct (is_initial p) eqn:Hp; [|eauto].
      destruct (is_initial_extract _ Hp) as [c ->]. cbn. eauto. }
  assert (Hin : forall p ats acc, is_Some (V4.bonus_inner U p ats acc)).
  { intros p ats. induction ats as [|t rest IH]; intros acc; cbn; [eauto|].
    destruct (Hone p t) as [b ->]. cbn. apply IH. }
  assert (Hout : forall pts acc, is_Some (V4.bonus_outer U pts author_tokens acc)).
  { induction pts as [|t rest IH]; intros acc; cbn; [eauto|].
    destruct (Hin t author_tokens acc) as [b ->]. cbn. apply IH. }
  destruct (Hout prof_tokens 0) as [b ->]. cbn. eauto.
Qed.

(** The scorer raises on no record, whatever the two library functions
    return. *)
Lemma calculate_name_score_optimized_returns {PId} (prof_data : professor PId)
      (author_data : author) :
  is_Some (V4.calculate_name_score_optimized U JaroWinkler_similarity token_set_ratio
             prof_data author_data).
Proof.
  unfold V4.calculate_name_score_optimized.
  destruct (nilb _ || nilb _); [eauto|].
  destruct ((_ <? 2)%nat || (_ <? 2)%nat); [eauto|].
  destruct (V4.parse_professor_name U _ _) as [prof_nome prof_cognome].
  destruct (parse_author_name_returns (default [] (display_name_tokens author_data)))
    as ([author_nome [author_cognome|tokens]] & ->); cbn.
  - destruct (first_name_score_returns prof_nome author_nome) as [ns ->]. cbn. eauto.
  - apply token_set_score_returns.
Qed.

(** An empty or missing normalised name scores 0. *)
Lemma calculate_name_score_optimized_empty {PId} (prof_data : professor PId)
      (author_data : author) :
  default [] (nome_completo_normalized prof_data) = [] \/
  default [] (display_name_normalized author_data) = [] ->
  V4.calculate_name_score_optimized U JaroWinkler_similarity token_set_ratio
    prof_data author_data = Some 0.
Proof.
  unfold V4.calculate_name_score_optimized. intros [-> | ->]; [reflexivity|].
  rewrite orb_true_r. reflexivity.
Qed.

Context {PId AId : Type}.
Implicit Types (prof : professor PId) (professors : list (professor PId)).
Implicit Types (items : list (AId * author)).

Lemma scan_authors_spec prof items score_threshold :
  exists l,
    V4.scan_authors U JaroWinkler_similarity token_set_ratio prof items score_threshold
    = Some l /\
    (length l <= length items)%nat /\
    forall c, In c l <-> generated_by U JaroWinkler_similarity token_set_ratio
                           [prof] items score_threshold c.
Proof.
  induction items as [|[author_id author_data] rest IH]; cbn [V4.scan_authors].
  - exists []. split; [reflexivity|]. split; [cbn; lia|].
    intros c. split; [intros []|]. intros (p & a & d & s & _ & [] & _).
  - destruct (calculate_name_score_optimized_returns prof author_data) as [score Hs].
    rewrite Hs. destruct IH as (more & -> & Hlen & Hmore). cbn [mbind option_bind].
    eexists. split; [reflexivity|]. split.
    { destruct (Qltb score_threshold score); cbn [length]; lia. }
    intros c. destruct (Qltb score_threshold score) eqn:Hlt.
    + apply Qltb_true in Hlt. split.
      * intros [<-|Hc].
        -- exists prof, author_id, author_data, score.
           repeat split; auto; now left.
        -- apply Hmore in Hc as (p & a & d & s & Hp & Ha & Hsc & Hth & ->).
           exists p, a, d, s. repeat split; auto. now right.
      * intros (p & a & d & s & Hp & [Ha|Ha] & Hsc & Hth & ->).
        -- injection Ha as <- <-. destruct Hp as [<-|[]].
           rewrite Hs in Hsc. injection Hsc as <-. now left.
        -- right. apply Hmore. exists p, a, d, s. repeat split; auto.
    + apply Qltb_false in Hlt. split.
      * intros Hc. apply Hmore in Hc as (p & a & d & s & Hp & Ha & Hsc & Hth & ->).
        exists p, a, d, s. repeat split; auto. now right.
      * intros (p & a & d & s & Hp & [Ha|Ha] & Hsc & Hth & ->).
        -- injection Ha as <- <-. destruct Hp as [<-|[]].
           rewrite Hs in Hsc. injection Hsc as <-. lra.
        -- apply Hmore. exists p, a, d, s. repeat split; auto.
Qed.

Lemma scan_professors_spec professors items score_threshold :
  exists l,
    V4.scan_professors U JaroWinkler_similarity token_set_ratio professors items
      score_threshold = Some l /\
    (length l <= length professors * length items)%nat /\
    forall c, In c l <-> generated_by U JaroWinkler_similarity token_set_ratio
                           professors items score_threshold c.
Proof.
  induction professors as [|prof rest IH]; cbn [V4.scan_professors].
  - exists []. split; [reflexivity|]. split; [cbn; lia|].
    intros c. split; [intros []|]. intros (p & a & d & s & [] & _).
  - destruct (scan_authors_spec prof items score_threshold) as (mine & -> & Hl1 & Hmine).
    destruct IH as (more & -> & Hl2 & Hmore). cbn [mbind option_bind].
    eexists. split; [reflexivity|]. split.
    { rewrite length_app. cbn [length]. lia. }
    intros c. rewrite in_app_iff, Hmine, Hmore. split.
    + intros [(p & a & d & s & Hp & Ha & Hsc & Hth & ->)
             |(p & a & d & s & Hp & Ha & Hsc & Hth & ->)];
        exists p, a, d, s; repeat split; auto.
      * destruct Hp as [<-|[]]. now left.
      * now right.
    + intros (p & a & d & s & [<-|Hp] & Ha & Hsc & Hth & ->).
      * left. exists prof, a, d, s. repeat split; auto. now left.
      * right. exists p, a, d, s. repeat split; auto.
Qed.
End GeneratorFacts.

(** ** The sorted candidate list and the resolver *)

Section SortFacts.
Local Open Scope Q_scope.
Context {PId AId : Type} `{Countable PId} `{Countable AId}.
Implicit Types (c : V4.candidate (PId := PId) (AId := AId)).
Implicit Types (l all_matches : list (V4.candidate (PId := PId) (AId := AId))).
Implicit Types (authors_dict : gmap AId author).

Local Abbreviation pid c := (prof_id (V4.cand_prof c)).
Local Abbreviation aid c := (V4.cand_author c).

Lemma insert_by_score_In c l d :
  In d (V4.insert_by_score c l) <-> d = c \/ In d l.
Proof.
  induction l as [|e rest IH]; cbn [V4.insert_by_score].
  - cbn. intuition.
  - destruct (Qltb _ _); cbn [In]; [rewrite IH|]; intuition.
Qed.

Lemma insert_by_score_length c l :
  length (V4.insert_by_score c l) = S (length l).
Proof.
  induction l as [|e rest IH]; cbn [V4.insert_by_score]; [reflexivity|].
  destruct (Qltb _ _); cbn [length]; [rewrite IH|]; reflexivity.
Qed.

Lemma insert_by_score_sorted c l :
  sorted_desc (List.map V4.cand_score l) ->
  sorted_desc (List.map V4.cand_score (V4.insert_by_score c l)).
Proof.
  induction l as [|e rest IH]; cbn [V4.insert_by_score].
  - cbn. intros _. split; [constructor | exact I].
  - intros Hs. pose proof Hs as [Hall Hrest]. cbn [List.map sorted_desc] in Hall, Hrest.
    destruct (Qltb _ _) eqn:Hlt; cbn [List.map sorted_desc].
    + apply Qltb_true in Hlt. split; [|apply IH, Hrest].
      apply List.Forall_forall. intros s Hin. apply in_map_iff in Hin as (d & <- & Hd).
      apply insert_by_score_In in Hd as [->|Hd]; [now apply Qlt_le_weak|].
      rewrite List.Forall_forall in Hall. apply Hall, in_map, Hd.
    + apply Qltb_false in Hlt. split; [|exact Hs].
      constructor; [exact Hlt|].
      revert Hall. apply List.Forall_impl. intros s Hle.
      exact (Qle_trans _ _ _ Hle Hlt).
Qed.

Lemma sort_by_score_In l d : In d (V4.sort_by_score l) <-> In d l.
Proof.
  induction l as [|e rest IH]; [reflexivity|].
  cbn [V4.sort_by_score fold_right]. rewrite insert_by_score_In.
  fold (V4.sort_by_score rest). rewrite IH. cbn. intuition.
Qed.

Lemma sort_by_score_length l : length (V4.sort_by_score l) = length l.
Proof.
  induction l as [|e rest IH]; [reflexivity|].
  cbn [V4.sort_by_score fold_right]. rewrite insert_by_score_length.
  fold (V4.sort_by_score rest). rewrite IH. reflexivity.
Qed.

Lemma sort_by_score_sorted l :
  sorted_desc (List.map V4.cand_score (V4.sort_by_score l)).
Proof.
  induction l as [|e rest IH]; [exact I|].
  cbn [V4.sort_by_score fold_right]. apply insert_by_score_sorted, IH.
Qed.
End SortFacts.

Section FindBestMatches.
Local Open Scope Q_scope.
Variable U : UnicodeData.
Variable JaroWinkler_similarity : str -> str -> Q.
Variable token_set_ratio : str -> str -> Q.
Context {PId AId : Type} `{Countable PId} `{Countable AId}.

End FindBestMatches.

Section ResolverOrder.
Local Open Scope Q_scope.
Context {PId AId : Type} `{Countable PId} `{Countable AId}.
Implicit Types (c : V4.candidate (PId := PId) (AId := AId)).
Implicit Types (all_matches : list (V4.candidate (PId := PId) (AId := AId))).
Implicit Types (authors_dict : gmap AId author).

Local Abbreviation pid c := (prof_id (V4.cand_prof c)).
Local Abbreviation aid c := (V4.cand_author c).

Lemma filter_below_threshold all_matches threshold s :
  Forall (fun t => t <= s) (List.map V4.cand_score all_matches) ->
  s < threshold ->
  List.filter (fun c => negb (Qltb (V4.cand_score c) threshold)) all_matches = [].
Proof.
  intros Hall Hs. induction all_matches as [|d rest IH]; [reflexivity|].
  cbn [List.map] in Hall. apply List.Forall_cons_iff in Hall as [Hd Hrest].
  cbn [List.filter].
  assert (Hlt : Qltb (V4.cand_score d) threshold = true).
  { unfold Qltb. destruct (Qle_bool threshold (V4.cand_score d)) eqn:Hle; [|reflexivity].
    apply Qle_bool_iff in Hle. lra. }
  rewrite Hlt. cbn [negb]. apply IH, Hrest.
Qed.

Lemma resolve_loop_sorted_filter authors_dict threshold all_matches :
  sorted_desc (List.map V4.cand_score all_matches) ->
  forall st,
    V4.resolve_loop authors_dict threshold all_matches st =
    V4.resolve_loop authors_dict threshold
      (List.filter (fun c => negb (Qltb (V4.cand_score c) threshold)) all_matches) st.
Proof.
  induction all_matches as [|d rest IH]; intros Hs st; [reflexivity|].
  destruct Hs as [Hall Hrest]. cbn [List.map] in Hall.
  cbn [List.filter]. destruct d as [[[score prof] author_id] match_type].
  change (V4.cand_score (score, prof, author_id, match_type)) with score in *.
  destruct (Qltb score threshold) eqn:Hlt; cbn [negb].
  - cbn [V4.resolve_loop]. rewrite Hlt.
    rewrite (filter_below_threshold rest threshold score Hall (proj1 (Qltb_true _ _) Hlt)).
    reflexivity.
  - cbn [V4.resolve_loop]. rewrite Hlt.
    destruct (_ && _); [|apply IH, Hrest].
    destruct (authors_dict !! author_id); [|reflexivity].
    cbn [mbind option_bind]. apply IH, Hrest.
Qed.

(** X12. On a candidate list in order of non-increasing score, as
    [find_best_matches_optimized] returns it, the [break] of
    [resolve_matches] at the first score below the threshold loses
    nothing: the call returns what it returns on the list of the
    candidates that are not below the threshold, exception included. *)
Theorem resolve_matches_sorted_filter all_matches authors_dict threshold :
  sorted_desc (List.map V4.cand_score all_matches) ->
  V4.resolve_matches all_matches authors_dict threshold =
  V4.resolve_matches
    (List.filter (fun c => negb (Qltb (V4.cand_score c) threshold)) all_matches)
    authors_dict threshold.
Proof.
  intros Hs. unfold V4.resolve_matches.
  rewrite <- (resolve_loop_sorted_filter authors_dict threshold all_matches Hs).
  reflexivity.
Qed.

Lemma emitted_scores_eq authors_dict
      (committed : list (V4.candidate (PId := PId) (AId := AId))) final :
  Forall2 (V4.emitted_for authors_dict) committed final ->
  List.map mr_score final = List.map V4.cand_score committed.
Proof.
  induction 1 as [|c m cs ms (a & _ & ->) _ IH]; [reflexivity|].
  cbn [List.map]. rewrite IH. reflexivity.
Qed.

Lemma filter_scores_below (final : list (match_result AId)) threshold s :
  Forall (fun t => t <= s) (List.map mr_score final) ->
  s < threshold ->
  List.filter (fun m => negb (Qltb (mr_score m) threshold)) final = [].
Proof.
  intros Hall Hs. induction final as [|m rest IH]; [reflexivity|].
  cbn [List.map] in Hall. apply List.Forall_cons_iff in Hall as [Hm Hrest].
  cbn [List.filter].
  assert (Hlt : Qltb (mr_score m) threshold = true).
  { unfold Qltb. destruct (Qle_bool threshold (mr_score m)) eqn:Hle; [|reflexivity].
    apply Qle_bool_iff in Hle. lra. }
  rewrite Hlt. cbn [negb]. apply IH, Hrest.
Qed.

Lemma resolve_loop_raise_threshold authors_dict low high all_matches :
  low <= high ->
  sorted_desc (List.map V4.cand_score all_matches) ->
  forall st st_low,
    V4.resolve_loop authors_dict low all_matches st = Some st_low ->
    exists new st_high,
      V4.final_matches st_low = V4.final_matches st ++ new /\
      V4.resolve_loop authors_dict high all_matches st = Some st_high /\
      V4.final_matches st_high =
      V4.final_matches st
      ++ List.filter (fun m => negb (Qltb (mr_score m) high)) new.
Proof.
  intros Hle. induction all_matches as [|d rest IH]; intros Hs st st_low.
  - cbn. intros [= <-]. exists [], st. cbn. rewrite !app_nil_r. auto.
  - destruct Hs as [Hall Hrest]. cbn [List.map] in Hall.
    destruct (Qltb (V4.cand_score d) high) eqn:Hhigh.
    + (* the loop at [high] stops here *)
      intros Hloop. destruct (resolve_loop_committed _ _ _ _ _ Hloop) as (new & Hfinal & Hem).
      exists new, st. split; [exact Hfinal|].
      destruct d as [[[score prof] author_id] match_type].
      change (V4.cand_score (score, prof, author_id, match_type)) with score in *.
      cbn [V4.resolve_loop]. rewrite Hhigh. split; [reflexivity|].
      rewrite (filter_scores_below new high score); [now rewrite app_nil_r| |].
      * rewrite (emitted_scores_eq _ _ _ Hem).
        apply List.Forall_forall. intros s Hin. apply in_map_iff in Hin as (c & <- & Hc).
        apply list_elem_of_In in Hc.
        destruct (committed_from_spec low ((score, prof, author_id, match_type) :: rest)
                    (V4.used_professors st) (V4.used_authors st)) as (Hin & _).
        destruct (Hin c Hc) as (_ & _ & _ & Hmem).
        apply elem_of_cons in Hmem as [->|Hmem]; [apply Qle_refl|].
        rewrite List.Forall_forall in Hall. apply Hall, in_map.
        now apply list_elem_of_In.
      * now apply Qltb_true.
    + pose proof (proj1 (Qltb_false _ _) Hhigh) as Hge.
      assert (Hlow : Qltb (V4.cand_score d) low = false).
      { unfold Qltb. destruct (Qle_bool low (V4.cand_score d)) eqn:Hb; [reflexivity|].
        exfalso. assert (Hl : low <= V4.cand_score d) by lra.
        apply Qle_bool_iff in Hl. congruence. }
      destruct d as [[[score prof] author_id] match_type].
      change (V4.cand_score (score, prof, author_id, match_type)) with score in *.
      cbn [V4.resolve_loop]. rewrite Hhigh, Hlow.
      destruct (_ && _); [|apply IH, Hrest].
      destruct (authors_dict !! author_id) as [author_data|]; [|discriminate].
      cbn [mbind option_bind]. intros Hloop.
      destruct (IH Hrest _ _ Hloop) as (new & st_high & Hfinal & Hres & Hfh).
      cbn [V4.final_matches] in Hfinal, Hfh.
      eexists (_ :: new), st_high. split; [|split].
      * rewrite Hfinal, <- app_assoc. reflexivity.
      * exact Hres.
      * rewrite Hfh, <- app_assoc. cbn [List.filter mr_score].
        rewrite Hhigh. reflexivity.
Qed.

(** X13. Raising the resolution threshold changes no pair: on a candidate
    list in order of non-increasing score, if [resolve_matches] returns
    [final] at the threshold [low], then at every threshold [high] above
    it the call returns the matches of [final] whose score is not below
    [high], in the same order. *)
Theorem resolve_matches_raise_threshold all_matches authors_dict low high final :
  low <= high ->
  sorted_desc (List.map V4.cand_score all_matches) ->
  V4.resolve_matches all_matches authors_dict low = Some final ->
  V4.resolve_matches all_matches authors_dict high =
  Some (List.filter (fun m => negb (Qltb (mr_score m) high)) final).
Proof.
  intros Hle Hs. unfold V4.resolve_matches.
  destruct (V4.resolve_loop authors_dict low all_matches V4.resolver_init)
    as [st_low|] eqn:Hloop; [|discriminate].
  cbn [mbind option_bind]. intros [= <-].
  destruct (resolve_loop_raise_threshold authors_dict low high all_matches Hle Hs _ _ Hloop)
    as (new & st_high & Hfinal & -> & Hfh).
  cbn [mbind option_bind]. cbn [V4.resolver_init V4.final_matches app] in Hfinal, Hfh.
  rewrite Hfh, Hfinal. reflexivity.
Qed.

Lemma committed_from_maximal threshold all_matches :
  sorted_desc (List.map V4.cand_score all_matches) ->
  forall used_p used_a c,
    c ∈ all_matches -> threshold <= V4.cand_score c ->
    (pid c ∈ used_p \/ aid c ∈ used_a) \/
    exists d, d ∈ V4.committed_from threshold all_matches used_p used_a /\
              (pid d = pid c \/ aid d = aid c) /\
              V4.cand_score c <= V4.cand_score d.
Proof.
  induction all_matches as [|h rest IH]; intros Hs used_p used_a c Hc Hthr.
  { inversion Hc. }
  destruct Hs as [Hall Hrest]. cbn [List.map] in Hall.
  assert (Hch : V4.cand_score c <= V4.cand_score h).
  { apply elem_of_cons in Hc as [->|Hc]; [apply Qle_refl|].
    rewrite List.Forall_forall in Hall. apply Hall, in_map. now apply list_elem_of_In. }
  cbn [V4.committed_from].
  assert (Hlt : Qltb (V4.cand_score h) threshold = false).
  { unfold Qltb. destruct (Qle_bool threshold (V4.cand_score h)) eqn:Hb; [reflexivity|].
    exfalso. assert (Hl : threshold <= V4.cand_score h) by lra.
    apply Qle_bool_iff in Hl. congruence. }
  rewrite Hlt.
  destruct (bool_decide (pid h ∉ used_p)) eqn:Hp;
    [destruct (bool_decide (aid h ∉ used_a)) eqn:Ha|]; cbn [andb].
  - (* [h] is committed *)
    apply elem_of_cons in Hc as [->|Hc].
    { right. exists h. split; [left|]. split; [now left | apply Qle_refl]. }
    destruct (IH Hrest (used_p ∪ {[pid h]}) (used_a ∪ {[aid h]}) c Hc Hthr)
      as [[Hu|Hu]|(d & Hd & Hshare & Hle)].
    + apply elem_of_union in Hu as [Hu|Hu]; [left; now left|].
      apply elem_of_singleton in Hu. right. exists h.
      split; [left|]. split; [left; now symmetry | exact Hch].
    + apply elem_of_union in Hu as [Hu|Hu]; [left; now right|].
      apply elem_of_singleton in Hu. right. exists h.
      split; [left|]. split; [right; now symmetry | exact Hch].
    + right. exists d. split; [now right|]. split; assumption.
  - apply bool_decide_eq_false in Ha. apply dec_stable in Ha.
    apply elem_of_cons in Hc as [->|Hc]; [left; now right|].
    destruct (IH Hrest used_p used_a c Hc Hthr) as [Hu|(d & Hd & Hrel)];
      [now left | right; now exists d].
  - apply bool_decide_eq_false in Hp. apply dec_stable in Hp.
    apply elem_of_cons in Hc as [->|Hc]; [left; now left|].
    destruct (IH Hrest used_p used_a c Hc Hthr) as [Hu|(d & Hd & Hrel)];
      [now left | right; now exists d].
Qed.

(** X14. The resolution leaves no free pair: on a candidate list in order
    of non-increasing score, every candidate whose score is not below the
    threshold shares its professor identifier or its author identifier
    with a committed candidate of at least its score (itself, when it is
    committed), and that committed candidate has its match in the
    returned list. *)
Theorem resolve_matches_maximal all_matches authors_dict threshold final c :
  sorted_desc (List.map V4.cand_score all_matches) ->
  V4.resolve_matches all_matches authors_dict threshold = Some final ->
  c ∈ all_matches -> threshold <= V4.cand_score c ->
  exists d m,
    d ∈ V4.committed all_matches threshold /\
    (pid d = pid c \/ aid d = aid c) /\
    V4.cand_score c <= V4.cand_score d /\
    m ∈ final /\ V4.emitted_for authors_dict d m.
Proof.
  intros Hs Hres Hc Hthr.
  pose proof (resolve_matches_committed _ _ _ _ Hres) as Hem.
  destruct (committed_from_maximal threshold all_matches Hs ∅ ∅ c Hc Hthr)
    as [[Hu|Hu]|(d & Hd & Hshare & Hle)];
    [exfalso; revert Hu; apply not_elem_of_empty
    |exfalso; revert Hu; apply not_elem_of_empty|].
  fold (V4.committed all_matches threshold) in Hd.
  apply list_elem_of_lookup in Hd as [i Hi].
  destruct (Forall2_lookup_l _ _ _ _ _ Hem Hi) as (m & Hm & Hdm).
  exists d, m. split; [eapply list_elem_of_lookup_2, Hi|].
  split; [exact Hshare|]. split; [exact Hle|].
  split; [eapply list_elem_of_lookup_2, Hm | exact Hdm].
Qed.
End ResolverOrder.

Ltac sorted_desc_by_computation :=
  vm_compute; repeat split;
  repeat (apply List.Forall_cons; [intros Hm; discriminate Hm|]);
  apply List.Forall_nil.

(** Witness of X12: the candidates of [match_test.py] at the threshold 79,
    where the last two candidates are cut. *)
Lemma resolve_matches_sorted_filter_witness :
  V4.resolve_matches test_candidates test_authors 79 =
  V4.resolve_matches (firstn 3 test_candidates) test_authors 79.
Proof.
  apply (resolve_matches_sorted_filter test_candidates test_authors 79).
  sorted_desc_by_computation.
Defined.

(** Witness of X13: the same candidates, from the threshold 75 to 90. *)
Lemma resolve_matches_raise_threshold_witness :
  exists final,
    V4.resolve_matches test_candidates test_authors 75 = Some final /\
    V4.resolve_matches test_candidates test_authors 90 =
    Some (List.filter (fun m => negb (Qltb (mr_score m) 90)) final).
Proof.
  destruct (V4.resolve_matches test_candidates test_authors 75) as [final|] eqn:Hres;
    [|vm_compute in Hres; discriminate Hres].
  exists final. split; [reflexivity|].
  apply (resolve_matches_raise_threshold test_candidates test_authors 75 90 final);
    [intros Hm; discriminate Hm | sorted_desc_by_computation | exact Hres].
Defined.

(** Witness of X14: the third candidate of [match_test.py], whose
    professor and author are both taken by candidates of score 98.5. *)
Lemma resolve_matches_maximal_witness :
  exists final d m,
    V4.resolve_matches test_candidates test_authors 75 = Some final /\
    d ∈ V4.committed test_candidates 75 /\
    (80 <= V4.cand_score d)%Q /\
    m ∈ final /\ V4.emitted_for test_authors d m.
Proof.
  destruct (V4.resolve_matches test_candidates test_authors 75) as [final|] eqn:Hres;
    [|vm_compute in Hres; discriminate Hres].
  destruct (resolve_matches_maximal test_candidates test_authors 75 final
              (80%Q, registry_entry 1 "Giuseppe VERDI", "A456"%string, py "display_name"))
    as (d & m & Hd & _ & Hle & Hm & Hdm);
    [sorted_desc_by_computation | exact Hres | do 2 right; left
    |intros Hm; discriminate Hm|].
  exists final, d, m. split; [reflexivity|]. split; [exact Hd|].
  split; [exact Hle|]. split; [exact Hm | exact Hdm].
Defined.

(** ** One university through the pipeline *)

Section Pipeline.
Local Open Scope Q_scope.
Variable U : UnicodeData.
Variable JaroWinkler_similarity : str -> str -> Q.
Variable token_set_ratio : str -> str -> Q.
Context {PId AId : Type} `{Countable PId} `{Countable AId}.
Implicit Types (professor_stack : list (professor PId)).
Implicit Types (oa_authors : list (AId * author)).

Lemma preprocess_professor_keeps (prof : professor PId) :
  prof_id (V4.preprocess_professor U prof) = prof_id prof /\
  nome_completo (V4.preprocess_professor U prof) = nome_completo prof /\
  (default [] (nome_completo prof) = [] ->
   nome_completo_normalized (V4.preprocess_professor U prof) = Some []).
Proof.
  unfold V4.preprocess_professor.
  destruct (default [] (nome_completo prof)) as [|ch name]; cbn; auto.
  repeat split. discriminate.
Qed.

Lemma preprocess_author_keeps (author_data : author) :
  display_name (V4.preprocess_author U author_data) = display_name author_data /\
  orcid (V4.preprocess_author U author_data) = orcid author_data /\
  (default [] (display_name author_data) = [] ->
   display_name_normalized (V4.preprocess_author U author_data) = Some []).
Proof.
  unfold V4.preprocess_author.
  destruct (default [] (display_name author_data)) as [|ch name]; cbn; auto.
  repeat split. discriminate.
Qed.

Lemma preprocessed_items_keys oa_authors :
  (List.map (fun item => (fst item, V4.preprocess_author U (snd item))) oa_authors).*1
  = oa_authors.*1.
Proof.
  induction oa_authors as [|item rest IH]; [reflexivity|].
  cbn [List.map]. rewrite !fmap_cons, IH. reflexivity.
Qed.

(** Candidate generation followed by resolution over the same
    dictionary, at any two thresholds. *)
Lemma generate_and_resolve (professors : list (professor PId))
      (items : list (AId * author)) (score_threshold threshold_resolve : Q) :
  NoDup (items.*1) ->
  exists final,
    (all_matches ← V4.find_best_matches_optimized U JaroWinkler_similarity
                     token_set_ratio professors items score_threshold;
     V4.resolve_matches all_matches (list_to_map items) threshold_resolve) = Some final /\
    NoDup (mr_author_id <$> final) /\
    forall m, m ∈ final ->
      exists prof author_data score,
        In prof professors /\ In (mr_author_id m, author_data) items /\
        V4.calculate_name_score_optimized U JaroWinkler_similarity token_set_ratio
          prof author_data = Some score /\
        threshold_resolve <= score /\
        m = {| mr_score := score;
               mr_nome_completo_rubrica := nome_completo prof;
               mr_display_name := display_name author_data;
               mr_author_id := mr_author_id m;
               mr_orcid := orcid author_data |}.
Proof.
  intros Hnd. unfold V4.find_best_matches_optimized.
  destruct (scan_professors_spec U JaroWinkler_similarity token_set_ratio
              professors items score_threshold) as (l & -> & _ & Hgen).
  cbn [mbind option_bind].
  assert (Hget : forall author_id author_data,
             In (author_id, author_data) items ->
             (list_to_map items : gmap AId author) !! author_id = Some author_data).
  { intros author_id author_data Hin. apply elem_of_list_to_map_1; [exact Hnd|].
    now apply list_elem_of_In. }
  assert (Hall : forall c, c ∈ V4.sort_by_score l ->
             generated_by U JaroWinkler_similarity token_set_ratio
               professors items score_threshold c).
  { intros c Hc. apply Hgen, sort_by_score_In, list_elem_of_In, Hc. }
  destruct (resolve_matches_returns (V4.sort_by_score l)
              (list_to_map items) threshold_resolve) as [final Hres].
  { intros c Hc. destruct (Hall c Hc) as (p & a & d & s & _ & Ha & _ & _ & ->).
    unfold V4.cand_author. cbn [fst snd]. rewrite (Hget a d Ha). eauto. }
  exists final. split; [exact Hres|].
  pose proof (resolve_matches_committed _ _ _ _ Hres) as Hem.
  destruct (committed_from_spec threshold_resolve (V4.sort_by_score l) ∅ ∅)
    as (Hin & _ & Hnda).
  cbn zeta in Hin.
  fold (V4.committed (V4.sort_by_score l) threshold_resolve) in Hin, Hnda.
  split.
  { rewrite (emitted_author_ids _ _ _ Hem). exact Hnda. }
  intros m Hm. apply list_elem_of_lookup in Hm as [i Hi].
  destruct (Forall2_lookup_r _ _ _ _ _ Hem Hi) as (c & Hc & (ad & Hlook & ->)).
  apply list_elem_of_lookup_2 in Hc.
  destruct (Hin c Hc) as (_ & _ & Hthr & Hmem).
  destruct (Hall c Hmem) as (p & a & d & s & Hp & Ha & Hscore & _ & ->).
  change (V4.cand_author (s, p, a, py "display_name")) with a in *.
  change (V4.cand_prof (s, p, a, py "display_name")) with p in *.
  change (V4.cand_score (s, p, a, py "display_name")) with s in *.
  rewrite (Hget a d Ha) in Hlook. injection Hlook as <-.
  exists p, d, s. cbn [mr_author_id].
  split; [exact Hp|]. split; [exact Ha|]. split; [exact Hscore|].
  split; [exact Hthr | reflexivity].
Qed.

(** A score above 0 is the score of two non-empty names. *)
Lemma positive_score_names (prof : professor PId) (author_data : author) score :
  V4.calculate_name_score_optimized U JaroWinkler_similarity token_set_ratio
    (V4.preprocess_professor U prof) (V4.preprocess_author U author_data) = Some score ->
  0 < score ->
  default [] (nome_completo prof) <> [] /\ default [] (display_name author_data) <> [].
Proof.
  intros Hscore Hpos.
  destruct (preprocess_professor_keeps prof) as (_ & _ & Hpempty).
  destruct (preprocess_author_keeps author_data) as (_ & _ & Haempty).
  pose proof (calculate_name_score_optimized_empty U JaroWinkler_similarity
                token_set_ratio (V4.preprocess_professor U prof)
                (V4.preprocess_author U author_data)) as Hzero.
  split; intros Hempty.
  - apply Hpempty in Hempty. rewrite Hempty in Hzero.
    rewrite Hzero in Hscore by (now left). injection Hscore as <-.
    now apply (Qlt_irrefl 0).
  - apply Haempty in Hempty. rewrite Hempty in Hzero.
    rewrite Hzero in Hscore by (now right). injection Hscore as <-.
    now apply (Qlt_irrefl 0).
Qed.

(** X15. Steps 2 and 3 of [main_professor_matcher] raise on no university,
    whatever the two library functions return, the authors being the
    items of a dictionary (no key twice). No author identifier occurs
    in two of the matches, and every match joins a professor of the stack
    and an author of the dictionary whose names are both non-empty; its
    score is the score of the two preprocessed records and is at least
    [RESOLVE_THRESHOLD]. *)
Theorem match_ateneo_spec professor_stack oa_authors :
  NoDup (oa_authors.*1) ->
  exists final,
    Matcher.match_ateneo U JaroWinkler_similarity token_set_ratio
      professor_stack oa_authors = Some final /\
    NoDup (mr_author_id <$> final) /\
    forall m, m ∈ final ->
      exists prof author_data score,
        prof ∈ professor_stack /\
        (mr_author_id m, author_data) ∈ oa_authors /\
        V4.calculate_name_score_optimized U JaroWinkler_similarity token_set_ratio
          (V4.preprocess_professor U prof) (V4.preprocess_author U author_data)
        = Some score /\
        Matcher.RESOLVE_THRESHOLD <= score /\
        m = {| mr_score := score;
               mr_nome_completo_rubrica := nome_completo prof;
               mr_display_name := display_name author_data;
               mr_author_id := mr_author_id m;
               mr_orcid := orcid author_data |} /\
        default [] (nome_completo prof) <> [] /\
        default [] (display_name author_data) <> [].
Proof.
  intros Hnd. unfold Matcher.match_ateneo.
  destruct (nilb professor_stack || nilb oa_authors).
  { exists []. split; [reflexivity|]. split; [constructor|].
    intros m Hm. inversion Hm. }
  cbn zeta.
  destruct (generate_and_resolve
              (List.map (V4.preprocess_professor U) professor_stack)
              (List.map (fun item => (fst item, V4.preprocess_author U (snd item)))
                 oa_authors)
              Matcher.SCORE_APPEND_THRESHOLD Matcher.RESOLVE_THRESHOLD)
    as (final & Hres & Hids & Hall).
  { rewrite preprocessed_items_keys. exact Hnd. }
  exists final. split; [exact Hres|]. split; [exact Hids|].
  intros m Hm. destruct (Hall m Hm) as (p & d & s & Hp & Ha & Hscore & Hthr & Em).
  apply in_map_iff in Hp as (prof & <- & Hprof).
  apply in_map_iff in Ha as ([author_id author_data] & [= Eid <-] & Hitem).
  cbn [fst snd] in *. subst author_id.
  destruct (preprocess_professor_keeps prof) as (_ & Hname & _).
  destruct (preprocess_author_keeps author_data) as (Hdisplay & Horcid & _).
  exists prof, author_data, s.
  split; [now apply list_elem_of_In|]. split; [now apply list_elem_of_In|].
  split; [exact Hscore|]. split; [exact Hthr|].
  split; [rewrite <- Hname, <- Hdisplay, <- Horcid; exact Em|].
  apply (positive_score_names prof author_data s Hscore).
  apply (Qlt_le_trans _ Matcher.RESOLVE_THRESHOLD); [reflexivity | exact Hthr].
Qed.

(** X24. The search of step 4 of [main_professor_matcher] for the
    professor of a match is an identity: for every match that steps 2 and 3
    return, the cell ['nome_completo_rubrica'] of the row is the name
    that the match holds, a non-empty name, also when several professors
    of the stack have that name; the alternative of an empty cell is never
    taken. *)
Theorem nome_completo_rubrica_cell_identity professor_stack oa_authors final :
  NoDup (oa_authors.*1) ->
  Matcher.match_ateneo U JaroWinkler_similarity token_set_ratio
    professor_stack oa_authors = Some final ->
  Forall (fun m =>
            mr_nome_completo_rubrica m
            = Some (Matcher.nome_completo_rubrica_cell
                      (List.map (V4.preprocess_professor U) professor_stack) m) /\
            Matcher.nome_completo_rubrica_cell
              (List.map (V4.preprocess_professor U) professor_stack) m <> [])
         final.
Proof.
  intros Hnd. unfold Matcher.match_ateneo.
  destruct (nilb professor_stack || nilb oa_authors); [intros [= <-]; constructor|].
  cbn zeta.
  destruct (generate_and_resolve
              (List.map (V4.preprocess_professor U) professor_stack)
              (List.map (fun item => (fst item, V4.preprocess_author U (snd item)))
                 oa_authors)
              Matcher.SCORE_APPEND_THRESHOLD Matcher.RESOLVE_THRESHOLD)
    as (final' & -> & _ & Hall).
  { rewrite preprocessed_items_keys. exact Hnd. }
  intros [= <-]. apply List.Forall_forall. intros m Hm. apply list_elem_of_In in Hm.
  destruct (Hall m Hm) as (p & d & s & Hp & Ha & Hscore & Hthr & ->).
  pose proof Hp as Hin.
  apply in_map_iff in Hp as (prof & <- & _).
  apply in_map_iff in Ha as ([author_id author_data] & [= _ <-] & _).
  destruct (positive_score_names prof author_data s Hscore) as [Hname _].
  { apply (Qlt_le_trans _ Matcher.RESOLVE_THRESHOLD); [reflexivity | exact Hthr]. }
  destruct (preprocess_professor_keeps prof) as (_ & Hkeep & _).
  unfold Matcher.nome_completo_rubrica_cell. cbn [mr_nome_completo_rubrica].
  rewrite Hkeep in *.
  destruct (nome_completo prof) as [name|] eqn:Ename; [|now contradiction Hname].
  cbn [from_option id] in Hname.
  destruct (List.find _ _) as [prof_data|] eqn:Hfind.
  - apply find_some in Hfind as [_ Heq]. apply bool_decide_eq_true in Heq.
    rewrite Heq. cbn [from_option id]. split; [reflexivity | exact Hname].
  - exfalso. pose proof (find_none _ _ Hfind _ Hin) as Hno.
    apply bool_decide_eq_false in Hno. apply Hno. exact Hkeep.
Qed.
End Pipeline.

(** Witness of X15: the two professors and the two authors of
    [match_test.py]; both pairs are matched with the score 98.5. *)
Lemma match_ateneo_spec_witness :
  exists final,
    Matcher.match_ateneo UCD.latin1 Rapidfuzz.JaroWinkler_similarity
      Rapidfuzz.token_set_ratio test_professors test_items = Some final /\
    mr_author_id <$> final = ["A123"%string; "A456"%string] /\
    NoDup (mr_author_id <$> final).
Proof.
  destruct (match_ateneo_spec UCD.latin1 Rapidfuzz.JaroWinkler_similarity
              Rapidfuzz.token_set_ratio test_professors test_items)
    as (final & Hres & Hnd & _).
  { vm_compute. repeat constructor; intros Hin; inversion Hin; subst;
      match goal with Hx : _ ∈ _ |- _ => inversion Hx end. }
  exists final. split; [exact Hres|]. split; [|exact Hnd].
  vm_compute in Hres. injection Hres as <-. reflexivity.
Defined.

(** ** Institution names *)

Lemma In_join tokens x :
  In x (join [space] tokens) -> x = space \/ exists t, In t tokens /\ In x t.
Proof.
  induction tokens as [|t ts IH]; [intros []|].
  cbn [join]. destruct ts as [|u ts'].
  - intros Hx. right. exists t. split; [now left | exact Hx].
  - intros Hx. apply in_app_iff in Hx as [Hx|Hx].
    + right. exists t. split; [now left | exact Hx].
    + cbn [app] in Hx. destruct Hx as [<-|Hx]; [now left|].
      destruct (IH Hx) as [->|(t' & Ht' & Hxt)]; [now left|].
      right. exists t'. split; [now right | exact Hxt].
Qed.

Lemma In_token_join tokens t x :
  In t tokens -> In x t -> In x (join [space] tokens).
Proof.
  induction tokens as [|u ts IH]; [intros []|].
  intros Ht Hx. cbn [join]. destruct ts as [|v ts'].
  - destruct Ht as [->|[]]. exact Hx.
  - apply in_app_iff. destruct Ht as [->|Ht]; [now left|].
    right. cbn [app]. right. now apply IH.
Qed.

Lemma filter_all {A} (f : A -> bool) (l : list A) :
  Forall (fun x => f x = true) l -> List.filter f l = l.
Proof.
  induction 1 as [|x xs Hx _ IH]; [reflexivity|].
  cbn [List.filter]. rewrite Hx, IH. reflexivity.
Qed.

(** X16. [remove_stopwords_from_institution] is idempotent. Its result
    has neither leading, trailing nor doubled whitespace; its tokens are
    the tokens of the normalised name that are not stop words, in their
    order and spelling, and none of them is a stop word in any case. *)
Theorem remove_stopwords_idempotent U s :
  let cleaned := Univ.remove_stopwords_from_institution U s in
  Univ.remove_stopwords_from_institution U cleaned = cleaned /\
  tidy cleaned = true /\
  split cleaned
  = List.filter (fun token => negb (Univ.is_stopword U token))
      (split (Univ.normalize_institution_name s)) /\
  Forall (fun token => Univ.is_stopword U token = false) (split cleaned).
Proof.
  cbn zeta. destruct s as [|c0 s0]; [cbn; repeat split; constructor|].
  set (n := Univ.normalize_institution_name (c0 :: s0)).
  set (tokens := List.filter (fun token => negb (Univ.is_stopword U token)) (split n)).
  assert (Ec : Univ.remove_stopwords_from_institution U (c0 :: s0)
               = join [space] tokens) by reflexivity.
  rewrite Ec. clear Ec.
  assert (Htok : Forall is_token tokens).
  { apply List.Forall_forall. intros t Ht. apply filter_In in Ht as [Ht _].
    pose proof (split_tokens n) as Hall. rewrite List.Forall_forall in Hall.
    now apply Hall. }
  assert (Hkeep : Forall (fun t => negb (Univ.is_stopword U t) = true) tokens).
  { apply List.Forall_forall. intros t Ht. now apply filter_In in Ht as [_ Ht]. }
  assert (Hsplit : split (join [space] tokens) = tokens) by now apply split_join.
  destruct (normalize_v3_output (c0 :: s0)) as [Htidy Hchars].
  change (V3.normalize_name (c0 :: s0)) with n in Htidy, Hchars.
  assert (Hnorm : Univ.normalize_institution_name (join [space] tokens)
                  = join [space] tokens).
  { change (Univ.normalize_institution_name (join [space] tokens))
      with (V3.normalize_name (join [space] tokens)).
    apply normalize_v3_fixed; [|now apply tidy_join].
    apply List.Forall_forall. intros x Hx.
    apply In_join in Hx as [->|(t & Ht & Hx)]; [split; reflexivity|].
    apply filter_In in Ht as [Ht _].
    rewrite List.Forall_forall in Hchars. apply Hchars.
    rewrite <- (join_split_tidy n Htidy). now apply (In_token_join _ t). }
  split; [|split; [now apply tidy_join|split; [exact Hsplit|]]].
  - unfold Univ.remove_stopwords_from_institution.
    destruct (nilb (join [space] tokens)) eqn:Hnil.
    + destruct (join [space] tokens); [reflexivity | discriminate Hnil].
    + rewrite Hnorm, Hsplit. rewrite (filter_all _ _ Hkeep). reflexivity.
  - rewrite Hsplit. revert Hkeep. apply List.Forall_impl.
    intros t Ht. now apply negb_true_iff.
Qed.

(** ** The greedy matcher of institutions *)

Section GreedyFacts.
Local Open Scope Q_scope.
Variable U : UnicodeData.
Variable JaroWinkler_similarity : str -> str -> Q.
Variable token_set_ratio : str -> str -> Q.
Context {OId : Type}.
Implicit Types (oa : Univ.oa_row OId) (oa_stack rows : list (Univ.oa_row OId)).
Implicit Types (b : Univ.best) (used : gset nat).

Local Abbreviation score :=
  (Univ.calculate_institution_score U JaroWinkler_similarity token_set_ratio).
Local Abbreviation justified := (best_justified score).

Lemma best_justified_nonneg oa_stack used miur_clean b :
  justified oa_stack used miur_clean b -> 0 <= Univ.best_score b.
Proof.
  intros [(_ & _ & _ & ->)|(idx & oa & type & name & _ & _ & _ & _ & _ & Hpos & _)];
    [apply Qle_refl | now apply Qlt_le_weak].
Qed.

Lemma drop_cons_inv {A} (l : list A) i x rest :
  drop i l = x :: rest -> l !! i = Some x /\ drop (S i) l = rest.
Proof.
  intros Hdrop.
  assert (Hlook : l !! i = Some x).
  { pose proof (lookup_drop l i 0) as Hl. rewrite Hdrop, Nat.add_0_r in Hl.
    symmetry. exact Hl. }
  split; [exact Hlook|].
  rewrite (drop_S _ _ _ Hlook) in Hdrop. now injection Hdrop.
Qed.

Lemma scan_alternatives_spec oa_stack used miur_clean oa_idx oa all_alts :
  oa_stack !! oa_idx = Some oa -> oa_idx ∉ used ->
  Univ.alternatives_pulite oa = Some all_alts ->
  (length all_alts <= length (Univ.display_name_alternatives oa))%nat ->
  forall alts alt_idx b,
    drop alt_idx all_alts = alts ->
    justified oa_stack used miur_clean b ->
    exists b',
      Univ.scan_alternatives U JaroWinkler_similarity token_set_ratio
        miur_clean oa_idx oa alt_idx alts b = Some b' /\
      justified oa_stack used miur_clean b' /\
      Univ.best_score b <= Univ.best_score b'.
Proof.
  intros Hoa Hfree Halts Hlen.
  induction alts as [|alt rest IH]; intros alt_idx b Hdrop Hb.
  - exists b. cbn. split; [reflexivity|]. split; [exact Hb | apply Qle_refl].
  - apply drop_cons_inv in Hdrop as [Hlook Hrest].
    cbn [Univ.scan_alternatives].
    destruct (nilb alt) eqn:Hnil; [now apply IH|].
    destruct (Qltb (Univ.best_score b) (score miur_clean alt)) eqn:Hlt; [|now apply IH].
    apply Qltb_true in Hlt.
    destruct (lookup_lt_is_Some_2 (Univ.display_name_alternatives oa) alt_idx)
      as [name Hname].
    { apply lookup_lt_Some in Hlook. lia. }
    rewrite Hname. cbn [mbind option_bind].
    pose proof (best_justified_nonneg _ _ _ _ Hb) as Hnn.
    edestruct (IH (S alt_idx)) as (b' & Hres & Hj & Hle); [exact Hrest| |].
    2:{ exists b'. split; [exact Hres|]. split; [exact Hj|].
        cbn [Univ.best_score] in Hle. lra. }
    right. exists oa_idx, oa, (py "alternative"), name. cbn.
    split; [reflexivity|]. split; [reflexivity|]. split; [reflexivity|].
    split; [exact Hoa|]. split; [exact Hfree|]. split; [lra|].
    right. split; [reflexivity|]. exists alt_idx, all_alts, alt.
    split; [exact Halts|]. split; [exact Hlook|].
    split; [destruct alt; [discriminate Hnil | discriminate]|].
    split; [exact Hname | reflexivity].
Qed.

Lemma scan_row_spec threshold oa_stack used miur_clean oa_idx oa b :
  aligned oa_stack ->
  oa_stack !! oa_idx = Some oa -> oa_idx ∉ used ->
  justified oa_stack used miur_clean b ->
  exists b',
    (if Qltb (Univ.best_score b) threshold
     then match Univ.alternatives_pulite oa with
          | Some alts =>
              Univ.scan_alternatives U JaroWinkler_similarity token_set_ratio
                miur_clean oa_idx oa 0 alts b
          | None => Some b
          end
     else Some b) = Some b' /\
    justified oa_stack used miur_clean b' /\
    Univ.best_score b <= Univ.best_score b'.
Proof.
  intros Hal Hoa Hfree Hb.
  destruct (Qltb (Univ.best_score b) threshold);
    [|exists b; split; [reflexivity|]; split; [exact Hb | apply Qle_refl]].
  destruct (Univ.alternatives_pulite oa) as [alts|] eqn:Halts;
    [|exists b; split; [reflexivity|]; split; [exact Hb | apply Qle_refl]].
  apply (scan_alternatives_spec oa_stack used miur_clean oa_idx oa alts Hoa Hfree Halts);
    [|reflexivity | exact Hb].
  apply (Hal oa alts); [|exact Halts].
  apply list_elem_of_In. eapply list_elem_of_lookup_2, Hoa.
Qed.

Lemma scan_openalex_spec threshold oa_stack used miur_clean :
  aligned oa_stack ->
  forall rows oa_idx b,
    drop oa_idx oa_stack = rows ->
    justified oa_stack used miur_clean b ->
    exists b',
      Univ.scan_openalex U JaroWinkler_similarity token_set_ratio
        threshold miur_clean used oa_idx rows b = Some b' /\
      justified oa_stack used miur_clean b' /\
      Univ.best_score b <= Univ.best_score b' /\
      forall j oa,
        rows !! j = Some oa -> (oa_idx + j)%nat ∉ used ->
        score miur_clean (Univ.display_name_pulito oa) <= Univ.best_score b'.
Proof.
  intros Hal. induction rows as [|oa rest IH]; intros oa_idx b Hdrop Hb.
  - exists b. cbn. split; [reflexivity|]. split; [exact Hb|].
    split; [apply Qle_refl|]. intros j oa Hj. discriminate Hj.
  - apply drop_cons_inv in Hdrop as [Hlook Hrest].
    cbn [Univ.scan_openalex].
    destruct (bool_decide (oa_idx ∈ used)) eqn:Hused.
    + apply bool_decide_eq_true in Hused.
      destruct (IH (S oa_idx) b Hrest Hb) as (b' & Hres & Hj & Hle & Hbest).
      exists b'. split; [exact Hres|]. split; [exact Hj|]. split; [exact Hle|].
      intros [|j] oa' Hj' Hfree.
      * exfalso. apply Hfree. now rewrite Nat.add_0_r.
      * apply (Hbest j oa' Hj'). now replace (S oa_idx + j)%nat with (oa_idx + S j)%nat by lia.
    + apply bool_decide_eq_false in Hused.
      pose proof (best_justified_nonneg _ _ _ _ Hb) as Hnn.
      destruct (Qltb (Univ.best_score b) (score miur_clean (Univ.display_name_pulito oa)))
        eqn:Hlt.
      * apply Qltb_true in Hlt.
        edestruct (scan_row_spec threshold oa_stack used miur_clean oa_idx oa)
          as (b2 & Hb2 & Hj2 & Hle2); [exact Hal | exact Hlook | exact Hused | |].
        2:{ rewrite Hb2. cbn [mbind option_bind].
            destruct (IH (S oa_idx) b2 Hrest Hj2) as (b' & Hres & Hj & Hle & Hbest).
            exists b'. split; [exact Hres|]. split; [exact Hj|].
            cbn [Univ.best_score] in Hle2.
            split; [lra|]. intros [|j] oa' Hj' Hfree.
            - injection Hj' as <-. lra.
            - apply (Hbest j oa' Hj').
              now replace (S oa_idx + j)%nat with (oa_idx + S j)%nat by lia. }
        right. exists oa_idx, oa, (py "display_name"), (Univ.oa_display_name oa). cbn.
        split; [reflexivity|]. split; [reflexivity|]. split; [reflexivity|].
        split; [exact Hlook|]. split; [exact Hused|]. split; [lra|].
        left. split; [reflexivity|]. split; reflexivity.
      * apply Qltb_false in Hlt.
        destruct (scan_row_spec threshold oa_stack used miur_clean oa_idx oa b
                    Hal Hlook Hused Hb) as (b2 & Hb2 & Hj2 & Hle2).
        rewrite Hb2. cbn [mbind option_bind].
        destruct (IH (S oa_idx) b2 Hrest Hj2) as (b' & Hres & Hj & Hle & Hbest).
        exists b'. split; [exact Hres|]. split; [exact Hj|].
        split; [lra|]. intros [|j] oa' Hj' Hfree.
        -- injection Hj' as <-. lra.
        -- apply (Hbest j oa' Hj').
           now replace (S oa_idx + j)%nat with (oa_idx + S j)%nat by lia.
Qed.
Lemma match_justified_weaken oa_stack row0 miur_rows threshold
      (m : Univ.institution_match OId) :
  match_justified score oa_stack miur_rows threshold m ->
  match_justified score oa_stack (row0 :: miur_rows) threshold m.
Proof.
  intros (row & oa & Hrow & Hrest). exists row, oa. split; [now right | exact Hrest].
Qed.

Lemma greedy_loop_spec threshold oa_stack :
  aligned oa_stack ->
  forall miur_rows final used,
    exists new,
      Univ.greedy_loop U JaroWinkler_similarity token_set_ratio
        threshold oa_stack miur_rows final used = Some (final ++ new) /\
      Forall (match_justified score oa_stack miur_rows threshold) new /\
      (Univ.nome_operativo_miur <$> new) `sublist_of` (Univ.NomeOperativo <$> miur_rows) /\
      Forall (fun m => exists i oa, (i ∉ used) /\ oa_stack !! i = Some oa /\
                                    Univ.id_openalex m = Univ.oa_id oa) new /\
      (NoDup (Univ.oa_id <$> oa_stack) -> NoDup (Univ.id_openalex <$> new)).
Proof.
  intros Hal. induction miur_rows as [|row rest IH]; intros final used.
  { exists []. cbn. rewrite app_nil_r. split; [reflexivity|].
    split; [constructor|]. split; [constructor|]. split; constructor. }
  assert (Hskip :
    exists new,
      Univ.greedy_loop U JaroWinkler_similarity token_set_ratio
        threshold oa_stack rest final used = Some (final ++ new) /\
      Forall (match_justified score oa_stack (row :: rest) threshold) new /\
      (Univ.nome_operativo_miur <$> new)
        `sublist_of` (Univ.NomeOperativo <$> row :: rest) /\
      Forall (fun m => exists i oa, (i ∉ used) /\ oa_stack !! i = Some oa /\
                                    Univ.id_openalex m = Univ.oa_id oa) new /\
      (NoDup (Univ.oa_id <$> oa_stack) -> NoDup (Univ.id_openalex <$> new))).
  { destruct (IH final used) as (new & Hres & Hjust & Hsub & Hidx & Hnd).
    exists new. split; [exact Hres|]. split.
    - revert Hjust. apply List.Forall_impl. intros m. apply match_justified_weaken.
    - split; [rewrite fmap_cons; now apply sublist_cons|]. split; assumption. }
  cbn [Univ.greedy_loop].
  destruct (scan_openalex_spec threshold oa_stack used (Univ.nome_pulito row) Hal
              oa_stack 0%nat
              {| Univ.best_score := 0; Univ.best_match_idx := None;
                 Univ.best_match_type := None; Univ.best_oa_name := None |})
    as (b & -> & Hb & _ & _); [reflexivity | left; cbn; auto|].
  cbn [mbind option_bind].
  destruct Hb as [(-> & _)|(idx & oa & type & name & -> & -> & -> & Hoa & Hfree & Hpos & Hsrc)];
    [exact Hskip|].
  destruct (Qltb (Univ.best_score b) threshold) eqn:Hlt; cbn [negb]; [exact Hskip|].
  apply Qltb_false in Hlt. rewrite Hoa. cbn [mbind option_bind].
  set (m := {| Univ.im_score := Univ.best_score b;
               Univ.nome_operativo_miur := Univ.NomeOperativo row;
               Univ.nome_esteso_miur := Univ.NomeEsteso row;
               Univ.display_name_oa := name;
               Univ.id_openalex := Univ.oa_id oa;
               Univ.im_match_type := type |}).
  destruct (IH (final ++ [m]) (used ∪ {[idx]})) as (new & Hres & Hjust & Hsub & Hidx & Hnd).
  exists (m :: new). split; [rewrite Hres, <- app_assoc; reflexivity|].
  split; [|split; [|split]].
  - constructor.
    + exists row, oa. split; [now left|].
      split; [apply list_elem_of_In; eapply list_elem_of_lookup_2, Hoa|].
      cbn. repeat split; assumption.
    + revert Hjust. apply List.Forall_impl. intros m'. apply match_justified_weaken.
  - rewrite !fmap_cons. now apply sublist_skip.
  - constructor; [exists idx, oa; auto|].
    revert Hidx. apply List.Forall_impl. intros m' (i & oa' & Hi & Hrow & Hid).
    exists i, oa'. apply not_elem_of_union in Hi as [Hi _]. auto.
  - intros Hids. rewrite fmap_cons. apply NoDup_cons. split; [|now apply Hnd].
    intros Hin. apply list_elem_of_fmap in Hin as (m' & Heq & Hm').
    rewrite List.Forall_forall in Hidx.
    destruct (Hidx m') as (i & oa' & Hi & Hrow & Hid); [now apply list_elem_of_In|].
    apply not_elem_of_union in Hi as [_ Hi]. apply Hi, elem_of_singleton.
    apply (NoDup_lookup (Univ.oa_id <$> oa_stack) i idx (Univ.oa_id oa) Hids).
    + rewrite list_lookup_fmap, Hrow. cbn. rewrite <- Hid, <- Heq. reflexivity.
    + rewrite list_lookup_fmap, Hoa. reflexivity.
Qed.

(** X17. When no row of [oa_stack] has fewer original alternatives than
    cleaned ones, [greedy_institution_matching] raises no exception. Every
    match joins a row of [miur_stack] and a row of [oa_stack] with a
    positive score that is not below the threshold and that is the score
    of the cleaned display name, or of a non-empty cleaned alternative
    whose original name is reported; the matches follow the order of
    [miur_stack], at most one per row; and when the rows of [oa_stack]
    have distinct identifiers, no identifier is matched twice. *)
Theorem greedy_institution_matching_spec miur_stack oa_stack threshold :
  aligned oa_stack ->
  exists final,
    Univ.greedy_institution_matching U JaroWinkler_similarity token_set_ratio
      miur_stack oa_stack threshold = Some final /\
    Forall (match_justified score oa_stack miur_stack threshold) final /\
    (Univ.nome_operativo_miur <$> final)
      `sublist_of` (Univ.NomeOperativo <$> miur_stack) /\
    (NoDup (Univ.oa_id <$> oa_stack) -> NoDup (Univ.id_openalex <$> final)).
Proof.
  intros Hal. unfold Univ.greedy_institution_matching.
  destruct (greedy_loop_spec threshold oa_stack Hal miur_stack [] ∅)
    as (new & Hres & Hjust & Hsub & _ & Hnd).
  exists new. split; [exact Hres|]. split; [exact Hjust|]. split; assumption.
Qed.

End GreedyFacts.

(** Witness of X17: two universities and two institutions of Rome. *)
Lemma greedy_institution_matching_spec_witness :
  exists final,
    Univ.greedy_institution_matching UCD.latin1 Rapidfuzz.JaroWinkler_similarity
      Rapidfuzz.token_set_ratio rome_miur rome_openalex 75 = Some final /\
    NoDup (Univ.id_openalex <$> final).
Proof.
  destruct (greedy_institution_matching_spec UCD.latin1 Rapidfuzz.JaroWinkler_similarity
              Rapidfuzz.token_set_ratio rome_miur rome_openalex 75)
    as (final & Hres & _ & _ & Hnd).
  { intros oa alts [<-|[<-|[]]] [= <-]; cbn; lia. }
  exists final. split; [exact Hres|]. apply Hnd.
  vm_compute. repeat constructor; intros Hin; inversion Hin; subst;
    match goal with Hx : _ ∈ _ |- _ => inversion Hx end.
Defined.


Section PreparedStacks.
Local Open Scope Q_scope.
Variable U : UnicodeData.
Variable JaroWinkler_similarity : str -> str -> Q.
Variable token_set_ratio : str -> str -> Q.
Context {OId : Type}.

Lemma prepared_aligned (oa_data : list (Univ.oa_data_row OId)) :
  aligned (List.map (Univ.prepare_oa_row U) oa_data).
Proof.
  intros oa alts Hoa. apply in_map_iff in Hoa as (row & <- & _).
  cbn. intros [= <-]. rewrite length_map. lia.
Qed.

(** X19. On the two stacks that [prepare_institution_stacks] builds,
    [greedy_institution_matching] raises no exception, whatever the data
    rows and the threshold. There are at most as many matches as registry
    rows; every match reports the operative and the extended name of one
    registry row, and the identifier of an OpenAlex row together with its
    display name or one of its alternatives, as they are before the
    cleaning. *)
Theorem prepared_greedy_matching (miur_data : list Univ.miur_data_row)
        (oa_data : list (Univ.oa_data_row OId)) (threshold : Q) :
  let stacks := Univ.prepare_institution_stacks U miur_data oa_data in
  exists final,
    Univ.greedy_institution_matching U JaroWinkler_similarity token_set_ratio
      (fst stacks) (snd stacks) threshold = Some final /\
    (length final <= length miur_data)%nat /\
    Forall (fun m =>
              (exists row, In row miur_data /\
                 Univ.nome_operativo_miur m = Univ.md_NomeOperativo row /\
                 Univ.nome_esteso_miur m = Univ.md_NomeEsteso row) /\
              (exists row, In row oa_data /\
                 Univ.id_openalex m = Univ.od_id row /\
                 (Univ.display_name_oa m = Univ.od_display_name row \/
                  In (Univ.display_name_oa m) (default [] (Univ.od_alternatives row)))) /\
              threshold <= Univ.im_score m)
           final.
Proof.
  cbn zeta. unfold Univ.prepare_institution_stacks, Univ.greedy_institution_matching.
  cbn [fst snd].
  destruct (greedy_loop_spec U JaroWinkler_similarity token_set_ratio threshold
              _ (prepared_aligned oa_data)
              (List.map (Univ.prepare_miur_row U) miur_data) [] ∅)
    as (new & Hres & Hjust & Hsub & _ & _).
  exists new. split; [exact Hres|]. split.
  { apply sublist_length in Hsub. rewrite !length_fmap, ?length_map in Hsub. exact Hsub. }
  revert Hjust. apply List.Forall_impl.
  intros m (row & oa & Hrow & Hoa & Hop & Hex & Hid & Hthr & _ & Hsrc).
  apply in_map_iff in Hrow as (mrow & <- & Hmrow).
  apply in_map_iff in Hoa as (orow & <- & Horow).
  split; [exists mrow; auto|]. split; [|exact Hthr].
  exists orow. split; [exact Horow|]. split; [exact Hid|].
  destruct Hsrc as [(_ & Hname & _)|(_ & k & alts & alt & _ & _ & _ & Hname & _)].
  - left. exact Hname.
  - right. apply list_elem_of_In. eapply list_elem_of_lookup_2, Hname.
Qed.
End PreparedStacks.

Section InstitutionScore.
Local Open Scope Q_scope.
Variable U : UnicodeData.
Variable JaroWinkler_similarity : str -> str -> Q.
Variable token_set_ratio : str -> str -> Q.
Hypothesis JaroWinkler_range : forall a b, 0 <= JaroWinkler_similarity a b <= 1.
Hypothesis token_set_ratio_range : forall a b, 0 <= token_set_ratio a b <= 100.

(** X20. [calculate_institution_score] lies between 0 and 100 when the
    two library functions keep to their ranges, and it is 0 as soon as
    one of the two cleaned names has fewer than two characters after
    stripping, whatever the other name is. *)
Theorem calculate_institution_score_range miur_clean oa_clean :
  let score :=
    Univ.calculate_institution_score U JaroWinkler_similarity token_set_ratio
      miur_clean oa_clean in
  0 <= score <= 100 /\
  ((length (strip miur_clean) < 2)%nat \/ (length (strip oa_clean) < 2)%nat ->
   score = 0).
Proof.
  cbn zeta. unfold Univ.calculate_institution_score.
  destruct (nilb miur_clean || nilb oa_clean); [split; [lra | reflexivity]|].
  destruct ((length (strip miur_clean) <? 2)%nat || (length (strip oa_clean) <? 2)%nat)
    eqn:Hshort; [split; [lra | reflexivity]|].
  apply orb_false_iff in Hshort as [Hm Ho].
  apply Nat.ltb_ge in Hm. apply Nat.ltb_ge in Ho.
  split; [|intros [Hlt|Hlt]; lia].
  pose proof (JaroWinkler_range (upper U miur_clean) (upper U oa_clean)) as Hjw.
  pose proof (token_set_ratio_range (upper U miur_clean) (upper U oa_clean)) as Hts.
  split.
  - apply (Qle_trans _ _ _ (proj1 Hts)), Q.le_max_r.
  - apply Q.max_lub; lra.
Qed.
End InstitutionScore.

(** Witness of X20: "Roma Tre" against "Rome 3", under the reference
    instances of the two library functions. *)
Lemma calculate_institution_score_range_witness :
  (0 <= Univ.calculate_institution_score UCD.latin1 Rapidfuzz.JaroWinkler_similarity
          Rapidfuzz.token_set_ratio (py "Roma Tre") (py "Rome 3") <= 100)%Q.
Proof.
  apply (calculate_institution_score_range UCD.latin1 Rapidfuzz.JaroWinkler_similarity
           Rapidfuzz.token_set_ratio JaroWinkler_similarity_range token_set_ratio_range
           (py "Roma Tre") (py "Rome 3")).
Defined.

(** ** The statistics of the log *)

(** X21. The three bands of [log_matching_stats] (at least 80, from 60
    to below 80, below 60) count every candidate score exactly once. *)
Theorem score_bands_partition (scores : list Q) :
  let '(high, medium, low) := Matcher.score_bands scores in
  (high + medium + low)%nat = length scores.
Proof.
  unfold Matcher.score_bands. induction scores as [|s rest IH]; [reflexivity|].
  cbn [List.filter length].
  destruct (Qltb s 80) eqn:H80; destruct (Qltb s 60) eqn:H60; cbn [negb andb length];
    try lia.
  apply Qltb_true in H60. apply Qltb_false in H80.
  exfalso. apply (Qlt_irrefl s), (Qlt_le_trans _ _ _ H60), (Qle_trans _ 80); [|exact H80].
  intros Hm. discriminate Hm.
Qed.

(** ** The two versions of the scorer *)

Lemma split_lstrip s : split (lstrip s) = split s.
Proof.
  induction s as [|c r IH]; [reflexivity|]. cbn [lstrip]. rewrite (split_cons c r).
  destruct (isspace c) eqn:Hc; [exact IH|]. rewrite split_cons, Hc. reflexivity.
Qed.

Lemma split_re_sub_spaces s : forall in_run, split (re_sub_spaces in_run s) = split s.
Proof.
  induction s as [|c r IH]; intros in_run; [reflexivity|].
  cbn [re_sub_spaces]. rewrite (split_cons c r).
  destruct (isspace c) eqn:Hc.
  - destruct in_run; [apply IH|]. rewrite split_cons.
    replace (isspace space) with true by reflexivity. apply IH.
  - rewrite split_cons, Hc. destruct r as [|d r']; [reflexivity|].
    pose proof (IH false) as IHf. cbn [re_sub_spaces] in IHf |- *.
    destruct (isspace d) eqn:Hd.
    + replace (isspace space) with true by reflexivity. rewrite IHf. reflexivity.
    + rewrite Hd, IHf. reflexivity.
Qed.

Lemma split_rstrip s : split (rstrip s) = split s.
Proof.
  induction s as [|c r IH]; [reflexivity|].
  rewrite rstrip_cons. destruct (isspace c && nilb (rstrip r)) eqn:E.
  - apply andb_prop in E as [Hc Hr]. rewrite split_cons, Hc, <- IH.
    destruct (rstrip r); [reflexivity | discriminate Hr].
  - rewrite !split_cons. destruct (isspace c) eqn:Hc; [exact IH|].
    destruct r as [|d r0]; [reflexivity|].
    rewrite rstrip_cons in IH |- *.
    destruct (isspace d && nilb (rstrip r0)) eqn:E2.
    + apply andb_prop in E2 as [Hd _]. rewrite Hd, <- IH. reflexivity.
    + rewrite IH. reflexivity.
Qed.

(** The tokens of a name are those of its normalised form. *)
Lemma split_normalized s : split (re_sub_spaces false (strip s)) = split s.
Proof.
  rewrite split_re_sub_spaces. unfold strip. rewrite split_rstrip. apply split_lstrip.
Qed.

Lemma strip_tidy s : tidy s = true -> strip s = s.
Proof.
  destruct s as [|c r]; [reflexivity|]. unfold tidy, strip. intros Ht.
  rewrite (lstrip_tidy _ Ht). apply (rstrip_tidy _ true Ht).
Qed.

Lemma normalize_v3_plain s :
  Forall (fun c => is_dash c = false /\ is_quote c = false) s ->
  V3.normalize_name s = re_sub_spaces false (strip s).
Proof.
  intros Hs. unfold V3.normalize_name. destruct s as [|c0 r0] eqn:Es; [reflexivity|].
  cbn [nilb]. rewrite <- Es in *.
  rewrite (re_sub_class_none is_dash hyphen s)
    by (eapply List.Forall_impl; [|exact Hs]; intros c Hc; apply Hc).
  rewrite (re_sub_class_none is_quote apostrophe s)
    by (eapply List.Forall_impl; [|exact Hs]; intros c Hc; apply Hc).
  reflexivity.
Qed.

Lemma normalize_v4_plain U s :
  Forall (settled U) s -> V4.normalize_name U s = re_sub_spaces false (strip s).
Proof.
  intros Hs. unfold V4.normalize_name. destruct s as [|c0 r0] eqn:Es; [reflexivity|].
  cbn [nilb]. rewrite <- Es in *.
  assert (Hi : Forall (inert U) s)
    by (eapply List.Forall_impl; [|exact Hs]; intros c Hc; apply Hc).
  rewrite (NFD_inert _ _ Hi), (filter_marks_inert _ _ Hi).
  rewrite (re_sub_class_none is_dash hyphen s)
    by (eapply List.Forall_impl; [|exact Hs]; intros c Hc; apply Hc).
  rewrite (re_sub_class_none is_quote apostrophe s)
    by (eapply List.Forall_impl; [|exact Hs]; intros c Hc; apply Hc).
  rewrite (re_sub_class_none is_comma space s)
    by (eapply List.Forall_impl; [|exact Hs]; intros c Hc; apply Hc).
  reflexivity.
Qed.

(** A string joined from tokens of a normalised name is left alone by
    the normaliser of version 3. *)
Lemma normalize_v3_joined n tokens :
  tidy n = true ->
  Forall (fun c => is_dash c = false /\ is_quote c = false) n ->
  (forall t, In t tokens -> In t (split n)) ->
  V3.normalize_name (join [space] tokens) = join [space] tokens /\
  strip (join [space] tokens) = join [space] tokens.
Proof.
  intros Htidy Hchars Hsub.
  assert (Htok : Forall is_token tokens).
  { apply List.Forall_forall. intros t Ht.
    pose proof (split_tokens n) as Hall. rewrite List.Forall_forall in Hall.
    apply Hall, Hsub, Ht. }
  pose proof (tidy_join tokens Htok) as Hj.
  split; [|now apply strip_tidy].
  apply normalize_v3_fixed; [|exact Hj].
  apply List.Forall_forall. intros x Hx.
  apply In_join in Hx as [->|(t & Ht & Hx)]; [split; reflexivity|].
  rewrite List.Forall_forall in Hchars. apply Hchars.
  rewrite <- (join_split_tidy n Htidy). apply (In_token_join _ t); [apply Hsub, Ht | exact Hx].
Qed.

Lemma normalize_v3_token n t :
  tidy n = true ->
  Forall (fun c => is_dash c = false /\ is_quote c = false) n ->
  In t (split n) ->
  V3.normalize_name t = t /\ strip t = t.
Proof.
  intros Htidy Hchars Ht.
  apply (normalize_v3_joined n [t] Htidy Hchars). intros t' [<-|[]]. exact Ht.
Qed.

Lemma abbreviations_agree full_lower abbrev_lower :
  abbrev_lower <> py "checco" ->
  match dict_get V4.abbreviations full_lower with
  | Some l => existsb (str_eqb abbrev_lower) l
  | None => false
  end =
  match dict_get V3.abbreviations full_lower with
  | Some l => existsb (str_eqb abbrev_lower) l
  | None => false
  end.
Proof.
  intros Hne. unfold V4.abbreviations, V3.abbreviations. cbn [dict_get].
  assert (Hc : str_eqb abbrev_lower (py "checco") = false)
    by (unfold str_eqb; now apply bool_decide_eq_false).
  repeat match goal with
         | |- context [if str_eqb ?k full_lower then _ else _] =>
             destruct (str_eqb k full_lower);
             [first [reflexivity
                    |cbn [existsb]; rewrite Hc, !orb_false_r; reflexivity]|]
         end.
  reflexivity.
Qed.

Section VersionAgreement.
Local Open Scope Q_scope.
Variable U : UnicodeData.
Variable JaroWinkler_similarity : str -> str -> Q.
Variable token_set_ratio : str -> str -> Q.

Lemma upper_if_nil s : (if nilb s then [] else upper U s) = upper U s.
Proof. destruct s; reflexivity. Qed.

Lemma lower_if_nil s : (if nilb s then [] else lower U s) = lower U s.
Proof. destruct s; reflexivity. Qed.

Lemma strip_if_nil s : (if nilb s then [] else strip s) = strip s.
Proof. destruct s; reflexivity. Qed.

Lemma check_common_abbreviations_agree full_name abbrev_name :
  V3.normalize_name full_name = full_name ->
  V3.normalize_name abbrev_name = abbrev_name ->
  lower U abbrev_name <> py "checco" ->
  V4.check_common_abbreviations U full_name abbrev_name
  = V3.check_common_abbreviations U full_name abbrev_name.
Proof.
  intros Hf Ha Hne. unfold V4.check_common_abbreviations, V3.check_common_abbreviations.
  cbn zeta. rewrite !lower_if_nil, Hf, Ha. now apply abbreviations_agree.
Qed.

Lemma first_name_score_agree prof_nome author_first :
  V3.normalize_name (strip prof_nome) = strip prof_nome ->
  (is_initial (strip author_first) = false ->
   V3.normalize_name (strip author_first) = strip author_first /\
   lower U (strip author_first) <> py "checco") ->
  V4.calculate_first_name_score_optimized U JaroWinkler_similarity prof_nome author_first
  = V3.calculate_first_name_score U JaroWinkler_similarity prof_nome author_first.
Proof.
  intros Hp Ha.
  unfold V4.calculate_first_name_score_optimized, V3.calculate_first_name_score.
  cbn zeta. rewrite !strip_if_nil.
  destruct (is_initial (strip author_first)) eqn:Hia; [reflexivity|].
  destruct (is_initial (strip prof_nome)); [reflexivity|].
  destruct (Ha eq_refl) as [Haf Hne].
  rewrite Hp, Haf, (check_common_abbreviations_agree _ _ Hp Haf Hne). reflexivity.
Qed.

Lemma initial_bonus_agree prof_token author_token :
  V3.normalize_name prof_token = prof_token ->
  V3.normalize_name author_token = author_token ->
  V4.initial_bonus_of U prof_token author_token
  = V3.initial_bonus_of U prof_token author_token.
Proof.
  intros Hp Ha. unfold V4.initial_bonus_of, V3.initial_bonus_of.
  rewrite Hp, Ha. reflexivity.
Qed.

Lemma bonus_inner_agree prof_token author_tokens :
  V3.normalize_name prof_token = prof_token ->
  Forall (fun t => V3.normalize_name t = t) author_tokens ->
  forall initial_bonus,
    V4.bonus_inner U prof_token author_tokens initial_bonus
    = V3.bonus_inner U prof_token author_tokens initial_bonus.
Proof.
  intros Hp. induction 1 as [|t ts Ht _ IH]; intros initial_bonus; [reflexivity|].
  cbn [V4.bonus_inner V3.bonus_inner]. rewrite (initial_bonus_agree _ _ Hp Ht).
  destruct (V3.initial_bonus_of U prof_token t); [|reflexivity].
  cbn [mbind option_bind]. apply IH.
Qed.

Lemma bonus_outer_agree prof_tokens author_tokens :
  Forall (fun t => V3.normalize_name t = t) prof_tokens ->
  Forall (fun t => V3.normalize_name t = t) author_tokens ->
  forall initial_bonus,
    V4.bonus_outer U prof_tokens author_tokens initial_bonus
    = V3.bonus_outer U prof_tokens author_tokens initial_bonus.
Proof.
  intros Hp Ha. induction Hp as [|t ts Ht _ IH]; intros initial_bonus; [reflexivity|].
  cbn [V4.bonus_outer V3.bonus_outer]. rewrite (bonus_inner_agree _ _ Ht Ha).
  destruct (V3.bonus_inner U t author_tokens initial_bonus); [|reflexivity].
  cbn [mbind option_bind]. apply IH.
Qed.

Lemma map_upper_fixed tokens :
  Forall (fun t => V3.normalize_name t = t) tokens ->
  List.map (fun t => upper U (V3.normalize_name t)) (List.filter (isalpha U) tokens)
  = List.map (upper U) (List.filter (isalpha U) tokens).
Proof.
  intros Hall. apply map_ext_in. intros t Ht. apply filter_In in Ht as [Ht _].
  rewrite List.Forall_forall in Hall. now rewrite (Hall t Ht).
Qed.

Lemma token_set_score_agree prof_tokens author_tokens :
  Forall (fun t => V3.normalize_name t = t) prof_tokens ->
  Forall (fun t => V3.normalize_name t = t) author_tokens ->
  V4.calculate_token_set_score_optimized U token_set_ratio prof_tokens author_tokens
  = V3.calculate_token_set_score U token_set_ratio prof_tokens author_tokens.
Proof.
  intros Hp Ha.
  unfold V4.calculate_token_set_score_optimized, V3.calculate_token_set_score.
  cbn zeta. rewrite (map_upper_fixed _ Hp), (map_upper_fixed _ Ha).
  rewrite (bonus_outer_agree _ _ Hp Ha). reflexivity.
Qed.

Lemma parse_professor_name_agree prof_tokens original_name :
  original_name <> [] -> split original_name = prof_tokens ->
  V4.parse_professor_name U prof_tokens original_name
  = V3.parse_professor_name U prof_tokens.
Proof.
  intros Hne <-. unfold V4.parse_professor_name, V3.parse_professor_name.
  destruct original_name; [congruence|]. reflexivity.
Qed.

Lemma parse_professor_name_parts prof_tokens :
  exists nome_tokens cognome_tokens,
    (forall t, In t nome_tokens -> In t prof_tokens) /\
    (forall t, In t cognome_tokens -> In t prof_tokens) /\
    V3.parse_professor_name U prof_tokens
    = (join [space] nome_tokens, join [space] cognome_tokens).
Proof.
  unfold V3.parse_professor_name.
  destruct prof_tokens as [|first [|second others]].
  - exists [], []. repeat split; intros t [].
  - exists [], []. repeat split; intros t [].
  - cbn zeta.
    destruct (nilb (join [space] (List.filter (isupper U) (first :: second :: others)))).
    + exists (second :: others), [first]. split; [intros t Ht; now right|].
      split; [intros t [<-|[]]; now left | reflexivity].
    + eexists _, _. split; [|split; [|reflexivity]];
        intros t Ht; now apply filter_In in Ht as [Ht _].
Qed.

Lemma parse_author_name_agree author_tokens :
  author_tokens <> [] ->
  V4.parse_author_name author_tokens = V3.parse_author_name author_tokens.
Proof. destruct author_tokens; [congruence | reflexivity]. Qed.

Lemma parse_author_name_parts author_tokens author_nome author_cognome :
  V3.parse_author_name author_tokens = Some (author_nome, CognomeStr author_cognome) ->
  (author_cognome = [] \/ In author_cognome author_tokens) /\
  (author_nome = [] \/ In author_nome author_tokens \/
   exists c, ascii_letter c = true /\ author_nome = [c]).
Proof.
  unfold V3.parse_author_name.
  destruct author_tokens as [|t0 [|t1 [|t2 rest]]]; [discriminate| | |].
  - destruct (6 <? _)%nat; intros [= <- <-] || discriminate. auto.
  - destruct (is_initial t0) eqn:Hi.
    + unfold extract_initial. destruct (nilb t0); [cbn; intros [= <- <-]; cbn; auto|].
      destruct (List.filter ascii_letter t0) as [|c l] eqn:Hf; [discriminate|].
      cbn. intros [= <- <-]. split; [right; right; now left|].
      right. right. exists c. split; [|reflexivity].
      assert (Hc : In c (List.filter ascii_letter t0)) by (rewrite Hf; now left).
      now apply filter_In in Hc as [_ Hc].
    + intros [= <- <-]. split; [right; right; now left | right; left; now left].
  - destruct (6 <? _)%nat; intros [= <- <-] || discriminate. auto.
Qed.
Lemma normalized_plain s :
  Forall (settled U) s ->
  let n := re_sub_spaces false (strip s) in
  V4.normalize_name U s = n /\ V3.normalize_name s = n /\ split n = split s /\
  tidy n = true /\ Forall (fun c => is_dash c = false /\ is_quote c = false) n.
Proof.
  intros Hs. cbn zeta.
  assert (Hplain : Forall (fun c => is_dash c = false /\ is_quote c = false) s)
    by (eapply List.Forall_impl; [|exact Hs]; intros c Hc; split; apply Hc).
  split; [now apply normalize_v4_plain|]. split; [now apply normalize_v3_plain|].
  split; [apply split_normalized|].
  rewrite <- (normalize_v3_plain s Hplain). apply normalize_v3_output.
Qed.

Lemma calculate_name_score_agree {PId} (prof_data : professor PId) (author_data : author)
      (prof_name author_name : str) :
  nome_completo_normalized prof_data = Some (V4.normalize_name U prof_name) ->
  nome_completo_tokens prof_data = Some (split (V4.normalize_name U prof_name)) ->
  nome_completo_original prof_data = Some prof_name ->
  display_name_normalized author_data = Some (V4.normalize_name U author_name) ->
  display_name_tokens author_data = Some (split (V4.normalize_name U author_name)) ->
  Forall (settled U) prof_name -> Forall (settled U) author_name ->
  split prof_name <> [] -> split author_name <> [] ->
  Forall (fun t => lower U t <> py "checco") (split author_name) ->
  V4.calculate_name_score_optimized U JaroWinkler_similarity token_set_ratio
    prof_data author_data
  = V3.calculate_name_score U JaroWinkler_similarity token_set_ratio
      prof_name author_name.
Proof.
  intros Hpn Hpt Hpo Han Hat Hps Has Hpne Hane Hchecco.
  destruct (normalized_plain prof_name Hps) as (Ep4 & Ep3 & Eps & Hptidy & Hpchars).
  destruct (normalized_plain author_name Has) as (Ea4 & Ea3 & Eas & Hatidy & Hachars).
  cbn zeta in *.
  set (n := re_sub_spaces false (strip prof_name)) in *.
  set (m := re_sub_spaces false (strip author_name)) in *.
  unfold V4.calculate_name_score_optimized, V3.calculate_name_score.
  rewrite Hpn, Hpt, Hpo, Han, Hat, Ep4, Ea4, Ep3, Ea3. cbn [from_option id].
  assert (Hp0 : prof_name <> []) by (intros ->; now apply Hpne).
  assert (Ha0 : author_name <> []) by (intros ->; now apply Hane).
  assert (Hn0 : n <> []) by (intros E; rewrite E in Eps; now apply Hpne).
  assert (Hm0 : m <> []) by (intros E; rewrite E in Eas; now apply Hane).
  replace (nilb n || nilb m) with false
    by (destruct n; [congruence|]; destruct m; [congruence | reflexivity]).
  replace (nilb prof_name || nilb author_name) with false
    by (destruct prof_name; [congruence|]; destruct author_name; [congruence | reflexivity]).
  destruct ((length (split n) <? 2)%nat || (length (split m) <? 2)%nat) eqn:Hshort;
    [reflexivity|].
  apply orb_false_iff in Hshort as [_ Hmlen]. apply Nat.ltb_ge in Hmlen.
  rewrite (parse_professor_name_agree (split n) prof_name Hp0 (eq_sym Eps)).
  destruct (parse_professor_name_parts (split n))
    as (nome_tokens & cognome_tokens & Hnome & Hcognome & ->).
  rewrite (parse_author_name_agree (split m))
    by (destruct (split m); [cbn in Hmlen; lia | discriminate]).
  assert (Hptokens : Forall (fun t => V3.normalize_name t = t) (split n)).
  { apply List.Forall_forall. intros t Ht.
    apply (normalize_v3_token n t Hptidy Hpchars Ht). }
  assert (Hatokens : Forall (fun t => V3.normalize_name t = t) (split m)).
  { apply List.Forall_forall. intros t Ht.
    apply (normalize_v3_token m t Hatidy Hachars Ht). }
  destruct (V3.parse_author_name (split m)) as [[author_nome [author_cognome|tokens]]|]
    eqn:Hparse; cbn [mbind option_bind]; [| |reflexivity].
  - destruct (parse_author_name_parts _ _ _ Hparse) as [Hac Han'].
    destruct (normalize_v3_joined n nome_tokens Hptidy Hpchars Hnome) as [Hn3 Hnstrip].
    destruct (normalize_v3_joined n cognome_tokens Hptidy Hpchars Hcognome) as [Hc3 _].
    rewrite !upper_if_nil, Hc3.
    assert (Hac3 : V3.normalize_name author_cognome = author_cognome).
    { destruct Hac as [->|Hac]; [reflexivity|].
      apply (normalize_v3_token m _ Hatidy Hachars Hac). }
    rewrite Hac3.
    rewrite (first_name_score_agree (join [space] nome_tokens) author_nome);
      [reflexivity | now rewrite Hnstrip|].
    intros Hnot. destruct Han' as [->|[Hin|(c & Hc & ->)]].
    + split; [reflexivity | discriminate].
    + destruct (normalize_v3_token m _ Hatidy Hachars Hin) as [H3 Hst].
      rewrite Hst. split; [exact H3|].
      rewrite List.Forall_forall in Hchecco. apply Hchecco. now rewrite <- Eas.
    + rewrite (strip_letter c Hc), (is_initial_letter c Hc) in Hnot. discriminate Hnot.
  - apply (token_set_score_agree _ _ Hptokens Hatokens).
Qed.

(** X22. The preprocessed scorer of version 4 gives the score of version
    3: for a professor and an author whose names have at least one token
    each and hold no character that the normaliser of version 4 changes
    (accent, dash, quote, comma, semicolon), where no token of the author
    name is "checco" in any case, [calculate_name_score_optimized] on the
    two preprocessed records, and [debug_name_score] on the two names,
    return what [calculate_name_score] of version 3 returns on the two
    names. *)
Theorem optimized_score_agrees_with_v3 {PId} (prof : professor PId) (author_data : author) :
  let prof_name := default [] (nome_completo prof) in
  let author_name := default [] (display_name author_data) in
  Forall (settled U) prof_name -> Forall (settled U) author_name ->
  split prof_name <> [] -> split author_name <> [] ->
  Forall (fun t => lower U t <> py "checco") (split author_name) ->
  V4.calculate_name_score_optimized U JaroWinkler_similarity token_set_ratio
    (V4.preprocess_professor U prof) (V4.preprocess_author U author_data)
  = V3.calculate_name_score U JaroWinkler_similarity token_set_ratio
      prof_name author_name /\
  V4.debug_name_score U JaroWinkler_similarity token_set_ratio prof_name author_name
  = V3.calculate_name_score U JaroWinkler_similarity token_set_ratio
      prof_name author_name.
Proof.
  cbn zeta. intros Hps Has Hpne Hane Hchecco. split.
  - apply calculate_name_score_agree; try assumption;
      unfold V4.preprocess_professor, V4.preprocess_author.
    + destruct (default [] (nome_completo prof)); [now contradiction Hpne | reflexivity].
    + destruct (default [] (nome_completo prof)); [now contradiction Hpne | reflexivity].
    + destruct (default [] (nome_completo prof)); [now contradiction Hpne | reflexivity].
    + destruct (default [] (display_name author_data)); [now contradiction Hane | reflexivity].
    + destruct (default [] (display_name author_data)); [now contradiction Hane | reflexivity].
  - unfold V4.debug_name_score. cbn zeta.
    apply calculate_name_score_agree; try assumption; reflexivity.
Qed.
End VersionAgreement.

(** Witness of X22: "Giuseppe VERDI" and "G. Verdi" in Latin-1; both
    versions give 98.5. *)
Lemma optimized_score_agrees_with_v3_witness :
  v4_score (py "Giuseppe VERDI") (py "G. Verdi")
  = v3_score (py "Giuseppe VERDI") (py "G. Verdi").
Proof.
  refine (proj2 (optimized_score_agrees_with_v3 UCD.latin1 Rapidfuzz.JaroWinkler_similarity
                   Rapidfuzz.token_set_ratio (registry_entry 1 "Giuseppe VERDI")
                   (openalex_author "G. Verdi") _ _ _ _ _)).
  - repeat (apply List.Forall_cons; [vm_compute; repeat split; reflexivity|]).
    apply List.Forall_nil.
  - repeat (apply List.Forall_cons; [vm_compute; repeat split; reflexivity|]).
    apply List.Forall_nil.
  - vm_compute. discriminate.
  - vm_compute. discriminate.
  - vm_compute. repeat (apply List.Forall_cons; [discriminate|]). apply List.Forall_nil.
Defined.

(** ** The first version of the registry parser *)

Lemma join_nil tokens : join [space] tokens = [] -> tokens = [] \/ tokens = [[]].
Proof.
  destruct tokens as [|t [|u rest]]; cbn [join]; [now left| |].
  - intros ->. now right.
  - intros E. apply app_eq_nil in E as [_ E]. discriminate E.
Qed.

Lemma no_family_token U tokens :
  nilb (join [space] (List.filter (isupper U) tokens)) = true <->
  Forall (fun t => isupper U t = false) tokens.
Proof.
  split.
  - intros Hnil.
    assert (E : join [space] (List.filter (isupper U) tokens) = [])
      by (destruct (join _ _); [reflexivity | discriminate Hnil]).
    apply List.Forall_forall. intros t Ht.
    destruct (isupper U t) eqn:Hup; [|reflexivity]. exfalso.
    assert (Hin : In t (List.filter (isupper U) tokens)) by (apply filter_In; auto).
    destruct (join_nil _ E) as [E'|E']; rewrite E' in Hin; [destruct Hin|].
    destruct Hin as [<-|[]]. discriminate Hup.
  - intros Hall. replace (List.filter (isupper U) tokens) with (@nil str); [reflexivity|].
    symmetry. induction Hall as [|t ts Ht _ IH]; [reflexivity|].
    cbn [List.filter]. rewrite Ht. exact IH.
Qed.

(** X23. On a list of tokens whose upper-case tokens are all alphabetic,
    [parse_professor_name] of the first version returns the given and the
    family name that version 3 returns; it appends a row to
    [anomalie_prof.csv] exactly when there are at least two tokens and
    none of them is upper-case, and the row is the pair of the family and
    the given name that it returns. *)
Theorem parse_professor_name_first_version U prof_tokens :
  Forall (fun t => isupper U t = true -> isalpha U t = true) prof_tokens ->
  exists prof_nome prof_cognome rows,
    Old.parse_professor_name U prof_tokens = (prof_nome, prof_cognome, rows) /\
    V3.parse_professor_name U prof_tokens = (prof_nome, prof_cognome) /\
    (rows = [] \/ rows = [(prof_cognome, prof_nome)]) /\
    (rows <> [] <->
     (2 <= length prof_tokens)%nat /\ Forall (fun t => isupper U t = false) prof_tokens).
Proof.
  intros Hall. unfold Old.parse_professor_name, V3.parse_professor_name.
  destruct prof_tokens as [|first [|second others]].
  - exists [], [], []. split; [reflexivity|]. split; [reflexivity|].
    split; [now left|]. split; [congruence | intros [Hlen _]; cbn in Hlen; lia].
  - exists [], [], []. split; [reflexivity|]. split; [reflexivity|].
    split; [now left|]. split; [congruence | intros [Hlen _]; cbn in Hlen; lia].
  - cbn zeta. set (tokens := first :: second :: others) in *.
    assert (Ef : List.filter (fun t => isupper U t && isalpha U t) tokens
                 = List.filter (isupper U) tokens).
    { apply filter_ext_in. intros t Ht. rewrite List.Forall_forall in Hall.
      destruct (isupper U t) eqn:Hup; [|reflexivity]. now rewrite (Hall t Ht Hup). }
    assert (En : List.filter (fun t => negb (isupper U t && isalpha U t)) tokens
                 = List.filter (fun t => negb (isupper U t)) tokens).
    { apply filter_ext_in. intros t Ht. rewrite List.Forall_forall in Hall.
      destruct (isupper U t) eqn:Hup; [|reflexivity]. now rewrite (Hall t Ht Hup). }
    rewrite Ef, En.
    destruct (nilb (join [space] (List.filter (isupper U) tokens))) eqn:Hnil.
    + eexists _, _, _. split; [reflexivity|]. split; [reflexivity|].
      split; [now right|]. split; [|discriminate].
      intros _. split; [cbn; lia | now apply no_family_token].
    + eexists _, _, _. split; [reflexivity|]. split; [reflexivity|].
      split; [now left|]. split; [congruence|].
      intros [_ Hno]. apply no_family_token in Hno. congruence.
Qed.

(** Witness of X23: the tokens of "Giuseppe VERDI" in Latin-1. *)
Lemma parse_professor_name_first_version_witness :
  exists rows,
    Old.parse_professor_name UCD.latin1 [py "Giuseppe"; py "VERDI"]
    = (py "Giuseppe", py "VERDI", rows) /\
    V3.parse_professor_name UCD.latin1 [py "Giuseppe"; py "VERDI"]
    = (py "Giuseppe", py "VERDI").
Proof.
  destruct (parse_professor_name_first_version UCD.latin1 [py "Giuseppe"; py "VERDI"])
    as (prof_nome & prof_cognome & rows & Hold & Hv3 & _).
  { repeat (apply List.Forall_cons; [intros Hm; first [reflexivity | discriminate Hm]|]).
    apply List.Forall_nil. }
  exists rows. vm_compute in Hv3. injection Hv3 as <- <-.
  split; [exact Hold | reflexivity].
Defined.

(** Witness of X24: the run of the witness of X15. *)
Lemma nome_completo_rubrica_cell_identity_witness :
  exists final,
    Matcher.match_ateneo UCD.latin1 Rapidfuzz.JaroWinkler_similarity
      Rapidfuzz.token_set_ratio test_professors test_items = Some final /\
    Forall (fun m =>
              mr_nome_completo_rubrica m
              = Some (Matcher.nome_completo_rubrica_cell
                        (List.map (V4.preprocess_professor UCD.latin1) test_professors) m) /\
              Matcher.nome_completo_rubrica_cell
                (List.map (V4.preprocess_professor UCD.latin1) test_professors) m <> [])
           final.
Proof.
  destruct (Matcher.match_ateneo UCD.latin1 Rapidfuzz.JaroWinkler_similarity
              Rapidfuzz.token_set_ratio test_professors test_items) as [final|] eqn:Hres;
    [|vm_compute in Hres; discriminate Hres].
  exists final. split; [reflexivity|].
  apply (nome_completo_rubrica_cell_identity UCD.latin1 Rapidfuzz.JaroWinkler_similarity
           Rapidfuzz.token_set_ratio test_professors test_items final); [|exact Hres].
  vm_compute. repeat constructor; intros Hin; inversion Hin; subst;
    match goal with Hx : _ ∈ _ |- _ => inversion Hx end.
Defined.
